(** * codex-review: the ranking, diff, ChatOps, JSON-RPC and orchestration core

    A shallow embedding of the TypeScript sources
      - packages/domain/src/findings.ts   (Module Findings)
      - packages/domain/src/diff.ts       (Module Diff)
      - packages/domain/src/chatops.ts    (Module ChatOps)
      - packages/app-server-client/src/jsonrpc.ts and client.ts
      - services/worker/src/orchestrator.ts
    followed by the properties proved about them.

    JavaScript values are modelled as follows.  A [number] is an exact
    rational extended with NaN and the two infinities: the IEEE-754 rounding
    of binary64 arithmetic is abstracted (arithmetic is exact), the special
    values are kept; the score formula is also given in binary64 itself
    (Module Binary64).  A string is a Rocq [string] of 8-bit code units, read
    as the UTF-16 code units U+0000 to U+00FF (Latin-1); the white space of
    [trim] and of the regular expression class \s, and the case mapping of
    [toLowerCase], are those of ECMAScript on that range.  A [Map] is an
    association list in insertion order. *)

From Stdlib Require Import List ZArith QArith Qcanon Qround String Ascii Bool.
From Stdlib Require Import Lia Permutation Sorted DecimalString OrderedTypeEx.
From Stdlib Require Import NArith.
From Stdlib Require Import SpecFloat.
From Stdlib Require Strings.Byte.
Import ListNotations.

Set Warnings "-register-all".

Local Open Scope string_scope.
Local Open Scope Z_scope.

(* ================================================================== *)
(** * The JavaScript runtime fragment used by the sources               *)
(* ================================================================== *)

Module Js.

(** ** Numbers *)

Inductive number : Type :=
| NaN
| NegInf
| Fin (q : Qc)
| PosInf.

Definition qz (z : Z) : Qc := Q2Qc (inject_Z z).
Definition qfrac (a : Z) (b : positive) : Qc := Q2Qc (a # b).
Definition num (z : Z) : number := Fin (qz z).

Definition Qcltb (x y : Qc) : bool :=
  match Qccompare x y with Lt => true | _ => false end.
Definition Qcleb (x y : Qc) : bool :=
  match Qccompare x y with Gt => false | _ => true end.
Definition Qcmax (x y : Qc) : Qc := if Qcltb x y then y else x.
Definition Qcmin (x y : Qc) : Qc := if Qcltb y x then y else x.

Definition Number_isNaN (v : number) : bool :=
  match v with NaN => true | _ => false end.

(** [a < b]; every comparison with NaN is false. *)
Definition num_ltb (a b : number) : bool :=
  match a, b with
  | NaN, _ | _, NaN => false
  | NegInf, NegInf => false
  | NegInf, _ => true
  | _, NegInf => false
  | PosInf, _ => false
  | Fin _, PosInf => true
  | Fin x, Fin y => Qcltb x y
  end.

Definition num_gtb (a b : number) : bool := num_ltb b a.

(** [a >= b]. *)
Definition num_geb (a b : number) : bool :=
  match a, b with
  | NaN, _ | _, NaN => false
  | _, NegInf => true
  | NegInf, _ => false
  | PosInf, _ => true
  | Fin _, PosInf => false
  | Fin x, Fin y => Qcleb y x
  end.

(** [a === b] on numbers: NaN differs from itself. *)
Definition num_eqb (a b : number) : bool :=
  match a, b with
  | NegInf, NegInf | PosInf, PosInf => true
  | Fin x, Fin y => Qc_eq_bool x y
  | _, _ => false
  end.

Definition num_neqb (a b : number) : bool := negb (num_eqb a b).

Definition Math_max (a b : number) : number :=
  match a, b with
  | NaN, _ | _, NaN => NaN
  | PosInf, _ | _, PosInf => PosInf
  | NegInf, x | x, NegInf => x
  | Fin x, Fin y => Fin (Qcmax x y)
  end.

Definition Math_min (a b : number) : number :=
  match a, b with
  | NaN, _ | _, NaN => NaN
  | NegInf, _ | _, NegInf => NegInf
  | PosInf, x | x, PosInf => x
  | Fin x, Fin y => Fin (Qcmin x y)
  end.

Definition Math_floor (a : number) : number :=
  match a with
  | Fin x => num (Qfloor x)
  | other => other
  end.

Definition num_add (a b : number) : number :=
  match a, b with
  | NaN, _ | _, NaN => NaN
  | PosInf, NegInf | NegInf, PosInf => NaN
  | PosInf, _ | _, PosInf => PosInf
  | NegInf, _ | _, NegInf => NegInf
  | Fin x, Fin y => Fin (x + y)%Qc
  end.

Definition num_neg (a : number) : number :=
  match a with
  | NaN => NaN
  | NegInf => PosInf
  | PosInf => NegInf
  | Fin x => Fin (- x)%Qc
  end.

Definition num_sub (a b : number) : number := num_add a (num_neg b).

Definition Qc_sign (x : Qc) : comparison := Qccompare x (qz 0).

Definition num_mul (a b : number) : number :=
  match a, b with
  | NaN, _ | _, NaN => NaN
  | Fin x, Fin y => Fin (x * y)%Qc
  | Fin x, PosInf | PosInf, Fin x =>
      match Qc_sign x with Eq => NaN | Gt => PosInf | Lt => NegInf end
  | Fin x, NegInf | NegInf, Fin x =>
      match Qc_sign x with Eq => NaN | Gt => NegInf | Lt => PosInf end
  | PosInf, PosInf | NegInf, NegInf => PosInf
  | PosInf, NegInf | NegInf, PosInf => NegInf
  end.

(** Rounding of a rational to [d] decimal places, ties away from zero: the
    digits [Number.prototype.toFixed] prints. *)
Definition round_places (d : nat) (x : Qc) : Qc :=
  let scale := qz (10 ^ Z.of_nat d) in
  let half := qfrac 1 2 in
  if Qcltb x (qz 0)
  then (- (qz (Qfloor ((- x) * scale + half)%Qc) / scale))%Qc
  else (qz (Qfloor (x * scale + half)%Qc) / scale)%Qc.

(** [Number(x.toFixed(d))]. *)
Definition Number_toFixed (d : nat) (x : number) : number :=
  match x with
  | Fin q => Fin (round_places d q)
  | other => other
  end.

(** ** Strings *)

Definition LF : ascii := "010"%char.
Definition CR : ascii := "013"%char.

(** White space of [String.prototype.trim] and of \s among the code units
    below 256: TAB, LF, VT, FF, CR, SPACE and NO-BREAK SPACE (U+00A0). *)
Definition is_space (c : ascii) : bool :=
  let n := nat_of_ascii c in
  ((9 <=? n) && (n <=? 13) || (n =? 32) || (n =? 160))%nat.

Definition is_digit (c : ascii) : bool :=
  let n := nat_of_ascii c in ((48 <=? n) && (n <=? 57))%nat.

Definition is_upper (c : ascii) : bool :=
  let n := nat_of_ascii c in ((65 <=? n) && (n <=? 90))%nat.

Definition is_lower (c : ascii) : bool :=
  let n := nat_of_ascii c in ((97 <=? n) && (n <=? 122))%nat.

Definition chars (s : string) : list ascii := list_ascii_of_string s.
Definition str (l : list ascii) : string := string_of_list_ascii l.

Fixpoint drop_while (p : ascii -> bool) (l : list ascii) : list ascii :=
  match l with
  | [] => []
  | c :: t => if p c then drop_while p t else l
  end.

Definition trim_chars (l : list ascii) : list ascii :=
  rev (drop_while is_space (rev (drop_while is_space l))).

Definition trim (s : string) : string := str (trim_chars (chars s)).

(** Letters with a lower-case mapping among the code units below 256: A-Z,
    and U+00C0-U+00DE without the multiplication sign U+00D7; each maps to
    the unit 32 above it. *)
Definition has_lower (c : ascii) : bool :=
  let n := nat_of_ascii c in
  (is_upper c || ((192 <=? n) && (n <=? 222) && negb (n =? 215)))%nat.

Definition lower_char (c : ascii) : ascii :=
  if has_lower c then ascii_of_nat (nat_of_ascii c + 32) else c.

Definition toLowerCase (s : string) : string := str (map lower_char (chars s)).

Definition startsWith (s p : string) : bool := String.prefix p s.

Fixpoint includes (s p : string) : bool :=
  String.prefix p s ||
  match s with
  | EmptyString => false
  | String _ t => includes t p
  end.

(** [s.slice(n)] and [s.slice(0, n)] for a natural [n]. *)
Fixpoint slice_from (n : nat) (s : string) : string :=
  match n, s with
  | O, _ => s
  | S k, EmptyString => EmptyString
  | S k, String _ t => slice_from k t
  end.

Fixpoint slice_to (n : nat) (s : string) : string :=
  match n, s with
  | O, _ => EmptyString
  | S k, EmptyString => EmptyString
  | S k, String c t => String c (slice_to k t)
  end.

(** [s.split(c)] for a single separator character: the pieces between the
    occurrences of [c]; the empty string gives one empty piece. *)
Fixpoint split_char_aux (c : ascii) (cur : list ascii) (l : list ascii) : list string :=
  match l with
  | [] => [str (rev cur)]
  | x :: t =>
      if Ascii.eqb x c then str (rev cur) :: split_char_aux c [] t
      else split_char_aux c (x :: cur) t
  end.

Definition split_char (c : ascii) (s : string) : list string :=
  split_char_aux c [] (chars s).

(** [s.split(/\s+/)]: the pieces between the maximal runs of white space. *)
Fixpoint split_ws_aux (in_run : bool) (cur : list ascii) (l : list ascii)
  : list string :=
  match l with
  | [] => [str (rev cur)]
  | x :: t =>
      if is_space x then
        if in_run then split_ws_aux true [] t
        else str (rev cur) :: split_ws_aux true [] t
      else split_ws_aux false (x :: cur) t
  end.

Definition split_ws (s : string) : list string := split_ws_aux false [] (chars s).

(** [s.replace(/\s+/g, ' ')]. *)
Fixpoint collapse_ws_chars (in_run : bool) (l : list ascii) : list ascii :=
  match l with
  | [] => []
  | x :: t =>
      if is_space x then
        if in_run then collapse_ws_chars true t
        else " "%char :: collapse_ws_chars true t
      else x :: collapse_ws_chars false t
  end.

Definition collapse_ws (s : string) : string := str (collapse_ws_chars false (chars s)).

Definition join (sep : string) (l : list string) : string := String.concat sep l.

Definition is_empty (s : string) : bool :=
  match s with EmptyString => true | _ => false end.

(** Decimal digits of an integer, as template literals print them. *)
Definition Z_toString (z : Z) : string := NilZero.string_of_int (Z.to_int z).

(** ** JSON values, the results of [JSON.parse] and the plain objects the
    sources pass around as [Record<string, unknown>] *)

Inductive json : Type :=
| JNull
| JBool (b : bool)
| JNum (n : number)
| JStr (s : string)
| JArr (items : list json)
| JObj (fields : list (string * json)).

(** Property lookup [o[k]]: [None] is [undefined]. *)
Fixpoint obj_get (fields : list (string * json)) (k : string) : option json :=
  match fields with
  | [] => None
  | (k', v) :: t => if String.eqb k' k then Some v else obj_get t k
  end.

(** Property write, as object spread followed by an own key does it: an
    existing key keeps its place, a new key goes last. *)
Fixpoint obj_set (fields : list (string * json)) (k : string) (v : json)
  : list (string * json) :=
  match fields with
  | [] => [(k, v)]
  | (k', v') :: t =>
      if String.eqb k' k then (k', v) :: t else (k', v') :: obj_set t k v
  end.

(** Property read on an arbitrary value: only objects carry properties here
    (arrays carry none of the names the sources read). *)
Definition prop (v : json) (k : string) : option json :=
  match v with
  | JObj fields => obj_get fields k
  | _ => None
  end.

(** ** [Map], in insertion order *)

Section MapModel.
Context {K V : Type}.
Variable eqb : K -> K -> bool.

Fixpoint map_get (m : list (K * V)) (k : K) : option V :=
  match m with
  | [] => None
  | (k', v) :: t => if eqb k' k then Some v else map_get t k
  end.

Definition map_has (m : list (K * V)) (k : K) : bool :=
  match map_get m k with Some _ => true | None => false end.

Fixpoint map_set (m : list (K * V)) (k : K) (v : V) : list (K * V) :=
  match m with
  | [] => [(k, v)]
  | (k', v') :: t =>
      if eqb k' k then (k', v) :: t else (k', v') :: map_set t k v
  end.

Fixpoint map_delete (m : list (K * V)) (k : K) : list (K * V) :=
  match m with
  | [] => []
  | (k', v') :: t => if eqb k' k then t else (k', v') :: map_delete t k
  end.

Definition map_values (m : list (K * V)) : list V := map snd m.

End MapModel.

(** ** [Array.prototype.sort] with a comparator: a stable sort; [x] goes
    after [y] exactly when the comparator is positive on [(x, y)]. *)

Section SortModel.
Context {A : Type}.
Variable cmp : A -> A -> number.

Fixpoint sort_insert (x : A) (l : list A) : list A :=
  match l with
  | [] => [x]
  | y :: t => if num_gtb (cmp x y) (num 0) then y :: sort_insert x t else x :: l
  end.

Definition Array_sort (l : list A) : list A := fold_right sort_insert [] l.

End SortModel.

(** [a.slice(0, n)] for an integer [n]: a negative [n] counts from the end. *)
Definition Array_slice0 {A : Type} (l : list A) (n : Z) : list A :=
  if n <? 0 then firstn (Z.to_nat (Z.max 0 (Z.of_nat (List.length l) + n))) l
  else firstn (Z.to_nat n) l.

End Js.

Import Js.

(* ================================================================== *)
(** * packages/domain/src/types.ts and findings.ts                      *)
(* ================================================================== *)

Module Findings.

Inductive ReviewRole : Type := correctness | security | maintainability.
Inductive Severity : Type := low | medium | high | critical.

Record Finding : Type := mkFinding {
  id : string;
  repo : string;
  prNumber : number;
  role : ReviewRole;
  severity : Severity;
  confidence : number;
  file : string;
  startLine : number;
  endLine : number;
  title : string;
  issueKey : string;
  evidence : list (string * json);
  dedupeKey : string
}.

(** [RankedFinding extends Finding]: the inherited fields are [base]. *)
Record RankedFinding : Type := mkRanked {
  base :> Finding;
  score : number;
  supportingRoles : list ReviewRole
}.

Definition severityWeight (s : Severity) : number :=
  match s with
  | low => num 1
  | medium => num 2
  | high => num 3
  | critical => num 4
  end.

(** The table [roleBonus]; a lookup is [undefined] ([None]) off the table. *)
Definition roleBonus (r : ReviewRole) : option number :=
  match r with
  | correctness => Some (Fin (qfrac 6 10))
  | security => Some (Fin (qfrac 9 10))
  | maintainability => Some (Fin (qfrac 5 10))
  end.

Definition clampConfidence (value : number) : number :=
  if Number_isNaN value then num 0
  else Math_min (num 1) (Math_max (num 0) value).

Definition higherSeverity (a b : Severity) : Severity :=
  if num_geb (severityWeight a) (severityWeight b) then a else b.

Definition role_eqb (a b : ReviewRole) : bool :=
  match a, b with
  | correctness, correctness | security, security
  | maintainability, maintainability => true
  | _, _ => false
  end.

(** [Array.from(new Set(l))]: first occurrences, in order. *)
Fixpoint set_of_roles (seen : list ReviewRole) (l : list ReviewRole)
  : list ReviewRole :=
  match l with
  | [] => rev seen
  | r :: t =>
      if existsb (role_eqb r) seen then set_of_roles seen t
      else set_of_roles (r :: seen) t
  end.

Definition rankScore (sev : Severity) (conf : number)
  (roles : list ReviewRole) (r : ReviewRole) : number :=
  let severity := num_mul (severityWeight sev) (num 10) in
  let confidence := num_mul (clampConfidence conf) (num 8) in
  let agreement := num_mul (num (Z.of_nat (List.length roles))) (num 5) in
  let rolePriority := match roleBonus r with Some b => b | None => num 0 end in
  Number_toFixed 4
    (num_add (num_add (num_add severity confidence) agreement) rolePriority).

Definition rankScore_of (f : RankedFinding) : number :=
  rankScore (severity f) (confidence f) (supportingRoles f) (role f).

Section Runtime.

(** [createHash('sha256').update(s).digest('hex')]. *)
Variable sha256_hex : string -> string.
(** The text of a number inside [Array.prototype.join]. *)
Variable Number_toString : number -> string.
(** [a.localeCompare(b)]: negative, zero or positive. *)
Variable localeCompare : string -> string -> Z.

Definition buildDedupeKey (file_ : string) (startLine_ endLine_ : number)
  (issueKey_ : string) : string :=
  let normalized :=
    join "|"
      [ toLowerCase (trim file_);
        Number_toString (Math_max (num 1) startLine_);
        Number_toString (Math_max (num 1) endLine_);
        collapse_ws (toLowerCase (trim issueKey_)) ] in
  slice_to 16 (sha256_hex normalized).

(** [finding.dedupeKey || buildDedupeKey(finding)]. *)
Definition key_of (finding : Finding) : string :=
  if is_empty (dedupeKey finding)
  then buildDedupeKey (file finding) (startLine finding) (endLine finding)
         (issueKey finding)
  else dedupeKey finding.

Definition seed (finding : Finding) (key : string) (conf : number) : RankedFinding :=
  {| base := {| id := id finding; repo := repo finding;
                prNumber := prNumber finding; role := role finding;
                severity := severity finding; confidence := conf;
                file := file finding; startLine := startLine finding;
                endLine := endLine finding; title := title finding;
                issueKey := issueKey finding; evidence := evidence finding;
                dedupeKey := key |};
     score := num 0;
     supportingRoles := [role finding] |}.

Definition corroborating (ev : list (string * json)) : list json :=
  match obj_get ev "corroboratingEvidence" with
  | Some (JArr items) => items
  | _ => []
  end.

Definition merge (current : RankedFinding) (finding : Finding) (conf : number)
  : RankedFinding :=
  let mergedRoles := set_of_roles [] (supportingRoles current ++ [role finding]) in
  {| base := {| id := id current; repo := repo current;
                prNumber := prNumber current; role := role current;
                severity := higherSeverity (severity current) (severity finding);
                confidence := Math_max (confidence current) conf;
                file := file current; startLine := startLine current;
                endLine := endLine current;
                title := if (String.length (title finding) <=? String.length (title current))%nat
                         then title current else title finding;
                issueKey := issueKey current;
                evidence :=
                  obj_set (evidence current) "corroboratingEvidence"
                    (JArr (corroborating (evidence current) ++ [JObj (evidence finding)]));
                dedupeKey := dedupeKey current |};
     score := score current;
     supportingRoles := mergedRoles |}.

(** One iteration of the loop over [findings]. *)
Definition group_step (grouped : list (string * RankedFinding)) (finding : Finding)
  : list (string * RankedFinding) :=
  let key := key_of finding in
  let conf := clampConfidence (confidence finding) in
  match map_get String.eqb grouped key with
  | None => map_set String.eqb grouped key (seed finding key conf)
  | Some current => map_set String.eqb grouped key (merge current finding conf)
  end.

Definition with_score (f : RankedFinding) : RankedFinding :=
  {| base := base f; score := rankScore_of f; supportingRoles := supportingRoles f |}.

Definition dedupeFindings (findings : list Finding) : list RankedFinding :=
  let grouped := fold_left group_step findings [] in
  map with_score (map_values grouped).

Definition rank_compare (left right : RankedFinding) : number :=
  if num_neqb (score right) (score left) then num_sub (score right) (score left)
  else if num_neqb (confidence right) (confidence left)
       then num_sub (confidence right) (confidence left)
       else num (localeCompare (id left) (id right)).

Definition rankFindings (findings : list Finding) : list RankedFinding :=
  let deduped := dedupeFindings findings in
  Array_sort rank_compare deduped.

Definition topFindings (findings : list Finding) (limit : Z) : list RankedFinding :=
  Array_slice0 (rankFindings findings) limit.

End Runtime.

End Findings.

(* ================================================================== *)
(** * findings.ts: the score in binary64                                *)
(* ================================================================== *)

Module Binary64.

Import Findings.

(** A binary64 value is a [spec_float] of precision 53 and exponent bound
    1024; the operations are those of the Standard Library's specification
    of IEEE 754, which round to nearest, ties to even. *)
Definition prec : Z := 53.
Definition emax : Z := 1024.

Definition zero : spec_float := S754_zero false.

(** A whole number as a double: exact when it is below 2^53. *)
Definition of_Z (z : Z) : spec_float := binary_normalize prec emax z 0 false.

(** The double nearest to the fraction [n/d]: what a decimal literal and
    [Number] on a decimal string give. *)
Definition nearest (n : Z) (d : positive) : spec_float :=
  match n with
  | Z0 => S754_zero false
  | Zpos p => SFdiv prec emax (S754_finite false p 0) (S754_finite false d 0)
  | Zneg p => SFdiv prec emax (S754_finite true p 0) (S754_finite false d 0)
  end.

Definition add : spec_float -> spec_float -> spec_float := SFadd prec emax.
Definition mul : spec_float -> spec_float -> spec_float := SFmul prec emax.

Definition Number_isNaN (x : spec_float) : bool :=
  match x with S754_nan => true | _ => false end.

(** [Math.max(a, b)] and [Math.min(a, b)]: NaN when either is NaN, and +0
    counts as larger than -0. *)
Definition Math_max (a b : spec_float) : spec_float :=
  match SFcompare b a with
  | None => S754_nan
  | Some Gt => b
  | Some Lt => a
  | Some Eq =>
      match a, b with
      | S754_zero sa, S754_zero sb => S754_zero (sa && sb)
      | _, _ => a
      end
  end.

Definition Math_min (a b : spec_float) : spec_float :=
  match SFcompare b a with
  | None => S754_nan
  | Some Lt => b
  | Some Gt => a
  | Some Eq =>
      match a, b with
      | S754_zero sa, S754_zero sb => S754_zero (sa || sb)
      | _, _ => a
      end
  end.

(** [Number(x.toFixed(places))].  Below 10^21 [toFixed] writes the whole
    number [n] nearest to |x| * 10^places, the larger one of two equally
    near, with a decimal point before its last [places] digits and with the
    sign of [x]; at or above 10^21 it writes [x] as [String(x)] does.
    [Number] reads the decimal back to the nearest double. *)
Definition Number_toFixed (places : nat) (x : spec_float) : spec_float :=
  match x with
  | S754_zero _ => S754_zero false
  | S754_finite s m e =>
      let large :=
        if 0 <=? e then 10 ^ 21 <=? Zpos m * 2 ^ e
        else 10 ^ 21 * 2 ^ (- e) <=? Zpos m in
      if large then x
      else
        let scale := 10 ^ Z.of_nat places in
        let n :=
          if 0 <=? e then Zpos m * 2 ^ e * scale
          else (2 * (Zpos m * scale) + 2 ^ (- e)) / (2 * 2 ^ (- e)) in
        if n =? 0 then S754_zero s
        else nearest (if s then - n else n) (Z.to_pos scale)
  | other => other
  end.

(** *** findings.ts in binary64 *)

Definition severityWeight (s : Severity) : spec_float :=
  match s with
  | low => of_Z 1
  | medium => of_Z 2
  | high => of_Z 3
  | critical => of_Z 4
  end.

Definition roleBonus (r : ReviewRole) : option spec_float :=
  match r with
  | correctness => Some (nearest 6 10)
  | security => Some (nearest 9 10)
  | maintainability => Some (nearest 5 10)
  end.

Definition clampConfidence (value : spec_float) : spec_float :=
  if Number_isNaN value then of_Z 0
  else Math_min (of_Z 1) (Math_max (of_Z 0) value).

Definition rankScore (sev : Severity) (conf : spec_float)
  (roles : list ReviewRole) (r : ReviewRole) : spec_float :=
  let severity := mul (severityWeight sev) (of_Z 10) in
  let confidence := mul (clampConfidence conf) (of_Z 8) in
  let agreement := mul (of_Z (Z.of_nat (List.length roles))) (of_Z 5) in
  let rolePriority := match roleBonus r with Some b => b | None => of_Z 0 end in
  Number_toFixed 4 (add (add (add severity confidence) agreement) rolePriority).

End Binary64.

(* ================================================================== *)
(** * packages/domain/src/diff.ts                                       *)
(* ================================================================== *)

Module Diff.

(** Line numbers are integers; they are kept exact (binary64 is exact on
    integers below 2^53). *)
Record GithubSuggestion : Type := mkSuggestion {
  filePath : string;
  startLine : Z;
  endLine : Z;
  body : string
}.

(** ** The two regular expressions, as matchers on the characters *)

Fixpoint strip_prefix (p l : list ascii) : option (list ascii) :=
  match p, l with
  | [], _ => Some l
  | _ :: _, [] => None
  | a :: p', b :: l' => if Ascii.eqb a b then strip_prefix p' l' else None
  end.

(** The class [.]: any character but a line terminator. *)
Definition is_dot (c : ascii) : bool := negb (Ascii.eqb c LF || Ascii.eqb c CR).

(** Lazy [(.+?)] followed by [" b/"] and a non-empty [(.+)$]: the first
    position, after at least one character, where [" b/"] stands and
    something follows it. [g1] is the first group so far, reversed. *)
Fixpoint split_at_b (g1 : list ascii) (r : list ascii)
  : option (list ascii * list ascii) :=
  match r with
  | [] => None
  | c :: t =>
      match g1, strip_prefix (chars " b/") r with
      | _ :: _, Some (x :: g2) => Some (rev g1, x :: g2)
      | _, _ => split_at_b (c :: g1) t
      end
  end.

(** [/^diff --git a\/(.+?) b\/(.+)$/.exec(line)]: the two groups. *)
Definition match_file_header (line : string) : option (string * string) :=
  match strip_prefix (chars "diff --git a/") (chars line) with
  | None => None
  | Some r =>
      if forallb is_dot r then
        match split_at_b [] r with
        | Some (g1, g2) => Some (str g1, str g2)
        | None => None
        end
      else None
  end.

(** [\d+]: the longest run of digits, which must not be empty. *)
Fixpoint span_digits (l : list ascii) : list ascii * list ascii :=
  match l with
  | c :: t =>
      if is_digit c then let (d, r) := span_digits t in (c :: d, r) else ([], l)
  | [] => ([], [])
  end.

Definition digits1 (l : list ascii) : option (list ascii * list ascii) :=
  match span_digits l with
  | ([], _) => None
  | (d, r) => Some (d, r)
  end.

(** [(?:,\d+)?]. *)
Definition opt_comma_digits (l : list ascii) : list ascii :=
  match l with
  | ","%char :: t =>
      match digits1 t with
      | Some (_, r) => r
      | None => l
      end
  | _ => l
  end.

(** [Number(digits)]. *)
Definition Number_of_digits (d : list ascii) : Z :=
  fold_left (fun acc c => 10 * acc + (Z.of_nat (nat_of_ascii c) - 48)) d 0.

(** [/^@@ -\d+(?:,\d+)? \+(\d+)(?:,\d+)? @@/.exec(line)]: the group. *)
Definition match_hunk_header (line : string) : option Z :=
  match strip_prefix (chars "@@ -") (chars line) with
  | None => None
  | Some r1 =>
      match digits1 r1 with
      | None => None
      | Some (_, r2) =>
          match strip_prefix (chars " +") (opt_comma_digits r2) with
          | None => None
          | Some r3 =>
              match digits1 r3 with
              | None => None
              | Some (c, r4) =>
                  match strip_prefix (chars " @@") (opt_comma_digits r4) with
                  | None => None
                  | Some _ => Some (Number_of_digits c)
                  end
              end
          end
      end
  end.

(** ** The loop state: the variables [toGithubSuggestions] closes over *)

Record State : Type := mkState {
  suggestions : list GithubSuggestion;
  currentFile : option string;
  newLine : Z;
  pendingStart : option Z;
  pendingBody : list string
}.

Definition init : State :=
  {| suggestions := []; currentFile := None; newLine := 0;
     pendingStart := None; pendingBody := [] |}.

Definition reset_pending (st : State) (sugg : list GithubSuggestion) : State :=
  {| suggestions := sugg; currentFile := currentFile st; newLine := newLine st;
     pendingStart := None; pendingBody := [] |}.

Definition flush (st : State) : State :=
  match currentFile st, pendingStart st, pendingBody st with
  | Some f, Some start, _ :: _ =>
      if is_empty f then reset_pending st (suggestions st)
      else reset_pending st
             (suggestions st ++
                [ {| filePath := f; startLine := start; endLine := start;
                     body := join (String LF "") (pendingBody st) |} ])
  | _, _, _ => reset_pending st (suggestions st)
  end.

Definition set_file (st : State) (f : string) : State :=
  {| suggestions := suggestions st; currentFile := Some f; newLine := newLine st;
     pendingStart := pendingStart st; pendingBody := pendingBody st |}.

Definition set_newLine (st : State) (n : Z) : State :=
  {| suggestions := suggestions st; currentFile := currentFile st; newLine := n;
     pendingStart := pendingStart st; pendingBody := pendingBody st |}.

(** [if (pendingStart === null) pendingStart = Math.max(1, newLine - 1)]. *)
Definition open_pending (st : State) : State :=
  match pendingStart st with
  | Some _ => st
  | None =>
      {| suggestions := suggestions st; currentFile := currentFile st;
         newLine := newLine st;
         pendingStart := Some (Z.max 1 (newLine st - 1));
         pendingBody := pendingBody st |}
  end.

Definition push_body (st : State) (text : string) : State :=
  {| suggestions := suggestions st; currentFile := currentFile st;
     newLine := newLine st; pendingStart := pendingStart st;
     pendingBody := pendingBody st ++ [text] |}.

(** The body of [for (const line of lines)]. *)
Definition step (st : State) (line : string) : State :=
  match match_file_header line with
  | Some (_, f) => set_file (flush st) f
  | None =>
      match match_hunk_header line with
      | Some n => set_newLine (flush st) n
      | None =>
          if startsWith line "+++" || startsWith line "---" then st
          else if startsWith line "+" then
            let st1 := push_body (open_pending st) (slice_from 1 line) in
            set_newLine st1 (newLine st1 + 1)
          else if startsWith line "-" then open_pending st
          else
            let st1 := flush st in
            if startsWith line " " then set_newLine st1 (newLine st1 + 1)
            else st1
      end
  end.

Definition run (st : State) (lines : list string) : State := fold_left step lines st.

(** [maxSuggestions] is [None] when the caller leaves it out: the default 5. *)
Definition toGithubSuggestions (diff : string) (maxSuggestions : option Z)
  : list GithubSuggestion :=
  let lines := split_char LF diff in
  let final := flush (run init lines) in
  Array_slice0 (suggestions final)
    (match maxSuggestions with Some n => n | None => 5 end).

End Diff.

(* ================================================================== *)
(** * packages/domain/src/chatops.ts                                    *)
(* ================================================================== *)

Module ChatOps.

Inductive RerunScope : Type :=
| scope_correctness | scope_security | scope_maintainability | scope_all.

Inductive ChatOpsCommand : Type :=
| Rerun (scope : RerunScope)
| Explain (findingId : string)
| Patch (findingId : string)
| Stop.

(** [rerunScopes.has(s)], with the member found. *)
Definition rerunScopes (s : string) : option RerunScope :=
  if String.eqb s "correctness" then Some scope_correctness
  else if String.eqb s "security" then Some scope_security
  else if String.eqb s "maintainability" then Some scope_maintainability
  else if String.eqb s "all" then Some scope_all
  else None.

Definition id_char (c : ascii) : bool :=
  is_lower c || is_upper c || is_digit c || Ascii.eqb c "_"%char || Ascii.eqb c "-"%char.

(** [/^[a-zA-Z0-9_-]+$/.test(s)]. *)
Definition idPattern (s : string) : bool :=
  negb (is_empty s) && forallb id_char (chars s).

Definition parseChatOpsCommand (body : string) : option ChatOpsCommand :=
  let trimmed := trim body in
  if negb (startsWith trimmed "/codex ") then None
  else if includes trimmed (String LF "") then None
  else
    let tokens := split_ws trimmed in
    if (List.length tokens <? 2)%nat then None
    else
      let subcommand := nth 1 tokens "" in
      if String.eqb subcommand "stop" && (List.length tokens =? 2)%nat then Some Stop
      else if String.eqb subcommand "rerun" then
        let requestedScope :=
          toLowerCase (match nth_error tokens 2 with Some t => t | None => "all" end) in
        match rerunScopes requestedScope with
        | None => None
        | Some sc => Some (Rerun sc)
        end
      else if String.eqb subcommand "explain" || String.eqb subcommand "patch" then
        let findingId := match nth_error tokens 2 with Some t => t | None => "" end in
        if negb (idPattern findingId) then None
        else if String.eqb subcommand "explain" then Some (Explain findingId)
        else Some (Patch findingId)
      else None.

End ChatOps.

(* ================================================================== *)
(** * packages/app-server-client/src/jsonrpc.ts                         *)
(* ================================================================== *)

(** A call either returns or throws an [Error] with a message. *)
Inductive outcome (A : Type) : Type :=
| Returned (a : A)
| Thrown (message : string).
Arguments Returned {A} a.
Arguments Thrown {A} message.

Module JsonRpc.

(** What [JSON.stringify] followed by [JSON.parse] makes of a value: a
    number that is not finite comes back as [null]. *)
Definition is_finite (n : number) : bool :=
  match n with Fin _ => true | _ => false end.

Fixpoint json_image (v : json) : json :=
  match v with
  | JNum n => if is_finite n then JNum n else JNull
  | JArr items => JArr (map json_image items)
  | JObj fields => JObj (map (fun kv => (fst kv, json_image (snd kv))) fields)
  | other => other
  end.

(** The own properties of an object literal that [JSON.stringify] writes:
    a property whose value is [undefined] ([None]) is left out. *)
Fixpoint defined_props (l : list (string * option json)) : list (string * json) :=
  match l with
  | [] => []
  | (k, Some v) :: t => (k, v) :: defined_props t
  | (_, None) :: t => defined_props t
  end.

Definition request_object (id : number) (method : string) (params : option json)
  : json :=
  JObj (defined_props
          [ ("jsonrpc", Some (JStr "2.0"));
            ("id", Some (JNum id));
            ("method", Some (JStr method));
            ("params", params) ]).

Section Builtins.

(** [JSON.stringify] on a JSON value and [JSON.parse]; [None] is the
    [SyntaxError] that [JSON.parse] throws. *)
Variable JSON_stringify : json -> string.
Variable JSON_parse : string -> option json.

Definition encodeJsonRpcRequest (id : number) (method : string)
  (params : option json) : string :=
  JSON_stringify (request_object id method params).

Definition has_prop (message : json) (k : string) : bool :=
  match prop message k with Some _ => true | None => false end.

Definition parseJsonRpcMessage (line : string) : outcome json :=
  match JSON_parse line with
  | None => Thrown "SyntaxError"
  | Some parsed =>
      match parsed with
      | JObj _ | JArr _ =>
          let message := parsed in
          let id_is_number :=
            match prop message "id" with Some (JNum _) => true | _ => false end in
          let method_is_string :=
            match prop message "method" with Some (JStr _) => true | _ => false end in
          if id_is_number && (has_prop message "result" || has_prop message "error")
          then Returned message
          else if method_is_string && has_prop message "params"
          then Returned message
          else Thrown "Invalid JSON-RPC message shape"
      | _ => Thrown "Invalid JSON-RPC message payload type"
      end
  end.

End Builtins.

End JsonRpc.

(* ================================================================== *)
(** * packages/app-server-client/src/client.ts                          *)
(* ================================================================== *)

Module Client.

(** The promise callbacks of a pending call are those of its request id;
    the record keeps what the source reads back. *)
Record PendingResponse : Type := { method : string }.

Record TurnWaiter : Type := { timer : Z }.

(** What a handler does to the world outside the client object. *)
Inductive Effect : Type :=
| Spawn (bin : string) (args : list string)
| StdinWrite (text : string)
| ResolveRequest (id : Z) (value : json)
| RejectRequest (id : Z) (reason : string)
| ResolveTurn (key : string) (turn : json)
| RejectTurn (key : string) (reason : string)
| SetTimeout (timer : Z) (ms : Z)
| ClearTimeout (timer : Z)
| Kill (signal : string)
| Emit (event : string) (payload : json).

Record State : Type := mkClient {
  codexBin : string;
  child : option Z;
  nextRequestId : Z;
  pendingResponses : list (Z * PendingResponse);
  completedTurns : list (string * json);
  turnWaiters : list (string * TurnWaiter);
  diffByTurn : list (string * string);
  tokenUsageByThread : list (string * json);
  (** handles the runtime hands out: process and timer numbers *)
  nextHandle : Z
}.

Definition create (bin : option string) : State :=
  {| codexBin := match bin with Some b => b | None => "codex" end;
     child := None; nextRequestId := 1; pendingResponses := [];
     completedTurns := []; turnWaiters := []; diffByTurn := [];
     tokenUsageByThread := []; nextHandle := 0 |}.

Definition with_tables (st : State) (pend : list (Z * PendingResponse))
  (waiters : list (string * TurnWaiter)) : State :=
  {| codexBin := codexBin st; child := child st;
     nextRequestId := nextRequestId st; pendingResponses := pend;
     completedTurns := completedTurns st; turnWaiters := waiters;
     diffByTurn := diffByTurn st; tokenUsageByThread := tokenUsageByThread st;
     nextHandle := nextHandle st |}.

Definition start (st : State) : State * list Effect :=
  match child st with
  | Some _ => (st, [])
  | None =>
      ({| codexBin := codexBin st; child := Some (nextHandle st);
          nextRequestId := nextRequestId st;
          pendingResponses := pendingResponses st;
          completedTurns := completedTurns st; turnWaiters := turnWaiters st;
          diffByTurn := diffByTurn st;
          tokenUsageByThread := tokenUsageByThread st;
          nextHandle := nextHandle st + 1 |},
       [Spawn (codexBin st) ["app-server"; "--listen"; "stdio://"]])
  end.

Definition failAllPending (reason : string) (st : State) : State * list Effect :=
  let rejected :=
    map (fun entry => RejectRequest (fst entry) reason) (pendingResponses st) in
  let canceled :=
    flat_map
      (fun entry =>
         let key := fst entry in
         let waiter := snd entry in
         [ ClearTimeout (timer waiter);
           (* waiter.reject clears the timer again before it rejects *)
           ClearTimeout (timer waiter);
           RejectTurn key ("Turn waiter canceled (" ++ key ++ ")") ])
      (turnWaiters st) in
  (with_tables st [] [], (rejected ++ canceled)%list).

Definition or_null (v : option string) : string :=
  match v with Some s => s | None => "null" end.

Definition json_or_null (v : option json) : json :=
  match v with Some j => j | None => JNull end.

(** The listener of [child.once('exit', ...)]. *)
Definition on_exit (code : option Z) (signal : option string) (st : State)
  : State * list Effect :=
  let reason :=
    "codex app-server exited (code=" ++ or_null (option_map Z_toString code)
      ++ ", signal=" ++ or_null signal ++ ")" in
  let (st', effects) := failAllPending reason st in
  (st', (effects ++
        [Emit "exit"
           (JObj [ ("code", json_or_null (option_map (fun c => JNum (num c)) code));
                   ("signal", json_or_null (option_map JStr signal)) ])])%list).

(** The listener of [child.once('error', ...)]. *)
Definition on_error (message : string) (st : State) : State * list Effect :=
  let (st', effects) := failAllPending message st in
  (st', (effects ++ [Emit "error" (JStr message)])%list).

Section Builtins.
Variable JSON_stringify : json -> string.
Variable JSON_parse : string -> option json.

(** [request]: the synchronous part, up to the returned promise. *)
Definition request (method_ : string) (params : option json) (st : State)
  : State * list Effect :=
  let (st1, spawned) := start st in
  let id := nextRequestId st1 in
  let line := JsonRpc.encodeJsonRpcRequest JSON_stringify (num id) method_ params in
  ({| codexBin := codexBin st1; child := child st1; nextRequestId := id + 1;
      pendingResponses :=
        map_set Z.eqb (pendingResponses st1) id {| method := method_ |};
      completedTurns := completedTurns st1; turnWaiters := turnWaiters st1;
      diffByTurn := diffByTurn st1;
      tokenUsageByThread := tokenUsageByThread st1;
      nextHandle := nextHandle st1 |},
   (spawned ++ [StdinWrite (line ++ String LF "")])%list).

Definition waitForTurnCompletion (threadId turnId : string) (timeoutMs : Z)
  (st : State) : State * list Effect :=
  let key := threadId ++ ":" ++ turnId in
  match map_get String.eqb (completedTurns st) key with
  | Some completed => (st, [ResolveTurn key completed])
  | None =>
      let t := nextHandle st in
      ({| codexBin := codexBin st; child := child st;
          nextRequestId := nextRequestId st;
          pendingResponses := pendingResponses st;
          completedTurns := completedTurns st;
          turnWaiters := map_set String.eqb (turnWaiters st) key {| timer := t |};
          diffByTurn := diffByTurn st;
          tokenUsageByThread := tokenUsageByThread st;
          nextHandle := t + 1 |},
       [SetTimeout t timeoutMs])
  end.

(** The timer callback of a turn wait. *)
Definition on_turn_timeout (key : string) (st : State) : State * list Effect :=
  (with_tables st (pendingResponses st) (map_delete String.eqb (turnWaiters st) key),
   [RejectTurn key ("Timed out waiting for turn completion (" ++ key ++ ")")]).

Definition handleResponse (response : json) (st : State) : State * list Effect :=
  match prop response "id" with
  | Some (JNum (Fin q)) =>
      let id := Qfloor q in
      match (if Qc_eq_bool (qz id) q
             then map_get Z.eqb (pendingResponses st) id else None) with
      | None => (st, [])
      | Some pending =>
          let st' :=
            with_tables st (map_delete Z.eqb (pendingResponses st) id)
              (turnWaiters st) in
          match prop response "error" with
          | Some err =>
              let message :=
                match prop err "message" with Some (JStr m) => m | _ => "undefined" end in
              (st', [RejectRequest id (method pending ++ " failed: " ++ message)])
          | None =>
              (st', [ResolveRequest id (json_or_null (prop response "result"))])
          end
      end
  | _ => (st, [])
  end.

Definition string_prop (v : json) (k : string) : string :=
  match prop v k with Some (JStr s) => s | _ => "undefined" end.

Definition handleNotification (notification : json) (st : State)
  : State * list Effect :=
  let emitted := [Emit "notification" notification] in
  let params := json_or_null (prop notification "params") in
  match prop notification "method" with
  | Some (JStr "turn/completed") =>
      let turn := json_or_null (prop params "turn") in
      let key := string_prop params "threadId" ++ ":" ++ string_prop turn "id" in
      let done := map_set String.eqb (completedTurns st) key turn in
      let st1 :=
        {| codexBin := codexBin st; child := child st;
           nextRequestId := nextRequestId st;
           pendingResponses := pendingResponses st; completedTurns := done;
           turnWaiters := turnWaiters st; diffByTurn := diffByTurn st;
           tokenUsageByThread := tokenUsageByThread st;
           nextHandle := nextHandle st |} in
      match map_get String.eqb (turnWaiters st) key with
      | Some waiter =>
          (with_tables st1 (pendingResponses st1)
             (map_delete String.eqb (turnWaiters st1) key),
           (emitted ++ [ClearTimeout (timer waiter); ResolveTurn key turn])%list)
      | None => (st1, emitted)
      end
  | Some (JStr "turn/diff/updated") =>
      ({| codexBin := codexBin st; child := child st;
          nextRequestId := nextRequestId st;
          pendingResponses := pendingResponses st;
          completedTurns := completedTurns st; turnWaiters := turnWaiters st;
          diffByTurn :=
            map_set String.eqb (diffByTurn st) (string_prop params "turnId")
              (string_prop params "diff");
          tokenUsageByThread := tokenUsageByThread st;
          nextHandle := nextHandle st |}, emitted)
  | Some (JStr "thread/tokenUsage/updated") =>
      ({| codexBin := codexBin st; child := child st;
          nextRequestId := nextRequestId st;
          pendingResponses := pendingResponses st;
          completedTurns := completedTurns st; turnWaiters := turnWaiters st;
          diffByTurn := diffByTurn st;
          tokenUsageByThread :=
            map_set String.eqb (tokenUsageByThread st) (string_prop params "threadId")
              (json_or_null (prop (json_or_null (prop params "tokenUsage")) "total"));
          nextHandle := nextHandle st |}, emitted)
  | _ => (st, emitted)
  end.

Definition handleStdoutLine (line : string) (st : State) : State * list Effect :=
  if is_empty (trim line) then (st, [])
  else
    match JsonRpc.parseJsonRpcMessage JSON_parse line with
    | Thrown message =>
        (st, [Emit "parseError" (JObj [("line", JStr line); ("error", JStr message)])])
    | Returned message =>
        if JsonRpc.has_prop message "id"
           && (JsonRpc.has_prop message "result" || JsonRpc.has_prop message "error")
        then handleResponse message st
        else handleNotification message st
    end.

End Builtins.

End Client.

(* ================================================================== *)
(** * services/worker/src/orchestrator.ts and report.ts                 *)
(* ================================================================== *)

Module Orchestrator.

Import Findings.

(** ** Normalisation of a persona's findings *)

Record NormalizedFinding : Type := mkNormalized {
  n_title : string;
  n_severity : Severity;
  n_confidence : number;
  n_file : string;
  n_startLine : number;
  n_endLine : number;
  n_issueKey : string;
  n_evidence : string;
  n_suggestedFix : option string
}.

Definition normalizeSeverity (value : option json) : Severity :=
  match value with
  | Some (JStr s) =>
      if String.eqb s "critical" then critical
      else if String.eqb s "high" then high
      else if String.eqb s "medium" then medium
      else if String.eqb s "low" then low
      else medium
  | _ => medium
  end.

Definition clamp01 (value : number) : number :=
  if Number_isNaN value then num 0
  else Math_max (num 0) (Math_min (num 1) value).

Definition toNormalizedFinding (candidate : json) : option NormalizedFinding :=
  match candidate with
  | JObj _ | JArr _ =>
      let value := candidate in
      let title := match prop value "title" with Some (JStr s) => trim s | _ => "" end in
      let severity_ := normalizeSeverity (prop value "severity") in
      let confidence_ :=
        match prop value "confidence" with Some (JNum n) => n | _ => num 0 end in
      let file_ := match prop value "file" with Some (JStr s) => trim s | _ => "" end in
      let startLine_ :=
        match prop value "startLine" with
        | Some (JNum n) => Math_max (num 1) (Math_floor n)
        | _ => num 1
        end in
      let endLine_ :=
        match prop value "endLine" with
        | Some (JNum n) => Math_max startLine_ (Math_floor n)
        | _ => startLine_
        end in
      let issueKey_ :=
        match prop value "issueKey" with
        | Some (JStr s) => trim s
        | _ => slice_to 64 title
        end in
      let evidence_ := match prop value "evidence" with Some (JStr s) => s | _ => "" end in
      let suggestedFix :=
        match prop value "suggestedFix" with Some (JStr s) => Some s | _ => None end in
      if is_empty title || is_empty file_ || is_empty issueKey_ then None
      else
        Some {| n_title := title; n_severity := severity_;
                n_confidence := clamp01 confidence_; n_file := file_;
                n_startLine := startLine_; n_endLine := endLine_;
                n_issueKey := issueKey_; n_evidence := evidence_;
                n_suggestedFix := suggestedFix |}
  | _ => None
  end.

(** [input.match(/\{[\s\S]*\}/)]: from the first opening brace to the last
    closing brace after it. *)
Definition not_char (c x : ascii) : bool := negb (Ascii.eqb x c).

Definition match_braces (input : string) : option string :=
  match drop_while (not_char "{"%char) (chars input) with
  | [] => None
  | open :: rest =>
      match drop_while (not_char "}"%char) (rev rest) with
      | [] => None
      | tail => Some (str (open :: rev tail))
      end
  end.

(** JavaScript truthiness of a parsed value. *)
Definition truthy (v : json) : bool :=
  match v with
  | JNull => false
  | JBool b => b
  | JNum NaN => false
  | JNum (Fin q) => negb (Qc_eq_bool q (qz 0))
  | JNum _ => true
  | JStr s => negb (is_empty s)
  | JArr _ | JObj _ => true
  end.

Section Parsing.

(** [JSON.parse]; [None] is the [SyntaxError] it throws. *)
Variable JSON_parse : string -> option json.

Definition parseJsonBlob (input : string) : option json :=
  match JSON_parse input with
  | Some v => Some v
  | None =>
      match match_braces input with
      | None => None
      | Some text => JSON_parse text
      end
  end.

(** The candidates [parsed.findings] of a normalisation answer. *)
Definition candidates (input : string) : list json :=
  if is_empty (trim input) then []
  else
    match parseJsonBlob input with
    | None => []
    | Some parsed =>
        if negb (truthy parsed) then []
        else match prop parsed "findings" with
             | Some (JArr items) => items
             | _ => []
             end
    end.

(** [.map(toNormalizedFinding).filter(c => c !== null)]. *)
Fixpoint keep_some {A : Type} (l : list (option A)) : list A :=
  match l with
  | [] => []
  | Some a :: t => a :: keep_some t
  | None :: t => keep_some t
  end.

Definition parseNormalizedFindings (input : string) : list NormalizedFinding :=
  keep_some (map toNormalizedFinding (candidates input)).

End Parsing.

(** ** report.ts *)

Definition renderExplainComment (findingId title_ filePath : string)
  (startLine_ endLine_ : Z) (evidence_ : string) : string :=
  join (String LF (String LF ""))
    [ "### Explanation for " ++ findingId;
      "**" ++ title_ ++ "**";
      "Location: `" ++ filePath ++ ":" ++ Z_toString startLine_ ++ "-"
        ++ Z_toString endLine_ ++ "`";
      "Evidence: " ++ evidence_ ].

(** ** Job handling, over the collaborators' interfaces *)

Record RepoRecord : Type := {
  owner : string;
  name : string;
  installationId : Z
}.

Record RunWithRepo : Type := {
  run_id : Z;
  run_repo : RepoRecord;
  run_prNumber : Z
}.

Record FindingRecord : Type := {
  fr_id : string;
  fr_title : string;
  fr_filePath : string;
  fr_startLine : Z;
  fr_endLine : Z;
  fr_evidence : list (string * json)
}.

Record PatchRecord : Type := {
  patch_riskNotes : option string;
  patch_suggestions : list Diff.GithubSuggestion
}.

Record GitHubContext : Type := {
  ctx_owner : string;
  ctx_repo : string;
  ctx_installationId : Z
}.

Inductive QueueJobPayload : Type :=
| run_pr (runId : Z)
| cancel_run (runId : Z) (reason : option string)
| explain_finding (runId : Z) (findingId : string)
| patch_finding (runId : Z) (findingId : string).

Section Jobs.

(** The state of everything outside the orchestrator: the database and
    GitHub.  An awaited call runs against it and returns or throws. *)
Variable World : Type.

Definition M (A : Type) : Type := World -> outcome A * World.

Definition ret {A : Type} (a : A) : M A := fun w => (Returned a, w).

Definition bind {A B : Type} (m : M A) (k : A -> M B) : M B :=
  fun w =>
    match m w with
    | (Returned a, w') => k a w'
    | (Thrown e, w') => (Thrown e, w')
    end.

Notation "x <- m ;; k" := (bind m (fun x => k))
  (at level 61, m at next level, right associativity).

Record RunStore : Type := {
  getRunWithRepo : Z -> M (option RunWithRepo);
  getFinding : Z -> string -> M (option FindingRecord);
  listPatchesForFinding : string -> M (list PatchRecord)
}.

Record GitHubService : Type := {
  createIssueComment : GitHubContext -> Z -> string -> M unit
}.

Variable store : RunStore.
Variable github : GitHubService.
(** [String(v)] on a value that is neither [null] nor [undefined]. *)
Variable String_of : json -> string.
(** The two handlers the properties below do not look into. *)
Variable runPullRequest : Z -> M unit.
Variable cancelRun : Z -> option string -> M unit.
(** report.ts, [renderPatchComment]. *)
Variable renderPatchComment :
  string -> string -> list Diff.GithubSuggestion -> string.

Definition context_of (run : RunWithRepo) : GitHubContext :=
  {| ctx_owner := owner (run_repo run); ctx_repo := name (run_repo run);
     ctx_installationId := installationId (run_repo run) |}.

Definition not_found_comment (runId : Z) (findingId : string) : string :=
  "No finding found for id `" ++ findingId ++ "` in run " ++ Z_toString runId ++ ".".

Definition explainFinding (runId : Z) (findingId : string) : M unit :=
  run <- getRunWithRepo store runId ;;
  match run with
  | None => ret tt
  | Some run =>
      finding <- getFinding store runId findingId ;;
      match finding with
      | None =>
          createIssueComment github (context_of run) (run_prNumber run)
            (not_found_comment runId findingId)
      | Some finding =>
          let evidence_ :=
            match obj_get (fr_evidence finding) "evidence" with
            | None | Some JNull => "No evidence captured"
            | Some v => String_of v
            end in
          createIssueComment github (context_of run) (run_prNumber run)
            (renderExplainComment (fr_id finding) (fr_title finding)
               (fr_filePath finding) (fr_startLine finding) (fr_endLine finding)
               evidence_)
      end
  end.

Definition patchFinding (runId : Z) (findingId : string) : M unit :=
  run <- getRunWithRepo store runId ;;
  match run with
  | None => ret tt
  | Some run =>
      patches <- listPatchesForFinding store findingId ;;
      match patches with
      | [] =>
          createIssueComment github (context_of run) (run_prNumber run)
            ("No generated patch is available for `" ++ findingId
               ++ "`. Re-run the analysis with `/codex rerun` to generate a fresh patch.")
      | latest :: _ =>
          createIssueComment github (context_of run) (run_prNumber run)
            (renderPatchComment findingId
               (match patch_riskNotes latest with
                | Some notes => notes
                | None => "Patch generated."
                end)
               (patch_suggestions latest))
      end
  end.

Definition handleJob (payload : QueueJobPayload) : M unit :=
  match payload with
  | run_pr runId => runPullRequest runId
  | cancel_run runId reason => cancelRun runId reason
  | explain_finding runId findingId => explainFinding runId findingId
  | patch_finding runId findingId => patchFinding runId findingId
  end.

End Jobs.

Arguments getRunWithRepo {World} _ _ _.
Arguments getFinding {World} _ _ _ _.
Arguments listPatchesForFinding {World} _ _ _.
Arguments createIssueComment {World} _ _ _ _ _.
Arguments ret {World A} _ _.
Arguments bind {World A B} _ _ _.

End Orchestrator.

(* ================================================================== *)
(** * packages/app-server-client/src/thread.ts                          *)
(* ================================================================== *)

Module Thread.

(** A turn as the server sends it.  [items] is [None] when the property is
    not an array. *)
Record AppTurn : Type := {
  turn_id : string;
  turn_status : string;
  items : option (list json)
}.

(** [turns] is [None] when the property is absent or [null]; an entry of
    the array is [None] when it is [null]. *)
Record AppThread : Type := {
  thread_id : string;
  turns : option (list (option AppTurn))
}.

(** [a[a.length - 1]]: [None] is [undefined]. *)
Fixpoint last_item {A : Type} (l : list A) : option A :=
  match l with
  | [] => None
  | x :: t => match t with [] => Some x | _ :: _ => last_item t end
  end.

Definition is_null (v : json) : bool :=
  match v with JNull => true | _ => false end.

Section Builtins.

(** [String(v)] on a value that is neither a string, [null] nor
    [undefined]. *)
Variable String_of : json -> string.

(** [item.type === 'agentMessage'] on an item that is not [null]. *)
Definition is_agentMessage (item : json) : bool :=
  match prop item "type" with
  | Some (JStr t) => String.eqb t "agentMessage"
  | _ => false
  end.

(** [String(item.text ?? '')]. *)
Definition item_text (item : json) : string :=
  match prop item "text" with
  | None | Some JNull => ""
  | Some (JStr s) => s
  | Some v => String_of v
  end.

(** Reading [items.filter] without an array, and [item.type] on [null],
    throws a [TypeError]. *)
Definition extractAgentMessagesFromTurn (turn : AppTurn) : outcome (list string) :=
  match items turn with
  | None => Thrown "TypeError"
  | Some its =>
      if existsb is_null its then Thrown "TypeError"
      else
        Returned
          (filter (fun text => negb (is_empty text))
             (map item_text (filter is_agentMessage its)))
  end.

Definition extractLatestAgentMessage (thread : AppThread) : outcome (option string) :=
  let all := match turns thread with Some ts => ts | None => [] end in
  match last_item all with
  | None => Returned None
  | Some None => Returned None
  | Some (Some latestTurn) =>
      match extractAgentMessagesFromTurn latestTurn with
      | Thrown e => Thrown e
      | Returned messages => Returned (last_item messages)
      end
  end.

End Builtins.

End Thread.

(* ================================================================== *)
(** * client.ts: the read accessors and [stop]                          *)
(* ================================================================== *)

Module ClientQueries.

Import Client.

Definition getLatestTurnDiff (turnId : string) (st : State) : option string :=
  map_get String.eqb (diffByTurn st) turnId.

Definition getLatestTokenUsage (threadId : string) (st : State) : option json :=
  map_get String.eqb (tokenUsageByThread st) threadId.

(** [stop], up to the promise it awaits: the child is forgotten and sent
    SIGTERM, and a timer of two seconds is set whose callback sends
    SIGKILL. *)
Definition stop (st : State) : State * list Effect :=
  match child st with
  | None => (st, [])
  | Some _ =>
      ({| codexBin := codexBin st; child := None;
          nextRequestId := nextRequestId st;
          pendingResponses := pendingResponses st;
          completedTurns := completedTurns st; turnWaiters := turnWaiters st;
          diffByTurn := diffByTurn st;
          tokenUsageByThread := tokenUsageByThread st;
          nextHandle := nextHandle st + 1 |},
       [Kill "SIGTERM"; SetTimeout (nextHandle st) 2000])
  end.

Definition on_kill_timeout (st : State) : State * list Effect :=
  (st, [Kill "SIGKILL"]).

End ClientQueries.

(* ================================================================== *)
(** * orchestrator.ts: cancellation and patch notes; report.ts          *)
(* ================================================================== *)

Module OrchestratorMore.

Import Findings Orchestrator.

Definition default_riskNotes : string :=
  "Patch generated with localized edits. Validate behavior with project tests before merge.".

Section Parsing.

Variable JSON_parse : string -> option json.

Definition parsePatchRiskNotes (input : string) : string :=
  match parseJsonBlob JSON_parse input with
  | None => default_riskNotes
  | Some parsed =>
      if negb (truthy parsed) then default_riskNotes
      else match prop parsed "riskNotes" with
           | Some (JStr notes) => notes
           | _ => default_riskNotes
           end
  end.

End Parsing.

(** report.ts, [renderRunSummary]: the counters after the loop, as
    (critical, high, medium, low). *)
Definition count_step (counts : Z * Z * Z * Z) (sev : Severity) : Z * Z * Z * Z :=
  match counts with
  | (c, h, m, l) =>
      match sev with
      | critical => (c + 1, h, m, l)
      | high => (c, h + 1, m, l)
      | medium => (c, h, m + 1, l)
      | low => (c, h, m, l + 1)
      end
  end.

Definition severity_counts (findings : list RankedFinding) : Z * Z * Z * Z :=
  fold_left (fun counts (finding : RankedFinding) => count_step counts (severity finding))
    findings (0, 0, 0, 0).

Definition renderRunSummary (findings : list RankedFinding) : string :=
  match severity_counts findings with
  | (c, h, m, l) =>
      "Findings: " ++ Z_toString (Z.of_nat (List.length findings))
        ++ " (critical: " ++ Z_toString c ++ ", high: " ++ Z_toString h
        ++ ", medium: " ++ Z_toString m ++ ", low: " ++ Z_toString l ++ ")"
  end.

(** The in-memory registry entry of a live run. *)
Record ActiveRunContext (Client : Type) : Type := {
  client : Client;
  currentTurn : option (string * string)
}.
Arguments client {Client} _.
Arguments currentTurn {Client} _.

Section Cancel.

Variable World : Type.
Variable Client : Type.
(** The store's [requestCancel] and [updateRunStatus], and the client's
    [request('turn/interrupt', {threadId, turnId})]. *)
Variable requestCancel : Z -> string -> M World unit.
Variable updateRunStatus : Z -> string -> option string -> M World unit.
Variable interrupt : Client -> string -> string -> M World unit.

(** [try { await m } catch { }]. *)
Definition swallow (m : M World unit) : M World unit :=
  fun w =>
    match m w with
    | (Thrown _, w') => (Returned tt, w')
    | done => done
    end.

Definition cancelRun (activeRuns : list (Z * ActiveRunContext Client))
  (runId : Z) (reason : option string) : M World unit :=
  let reason := match reason with Some r => r | None => "Cancellation requested" end in
  bind (requestCancel runId reason) (fun _ =>
    match map_get Z.eqb activeRuns runId with
    | Some context =>
        match currentTurn context with
        | Some (threadId, turnId) =>
            swallow (interrupt (client context) threadId turnId)
        | None => updateRunStatus runId "canceled" (Some reason)
        end
    | None => updateRunStatus runId "canceled" (Some reason)
    end).

End Cancel.

End OrchestratorMore.

(* ================================================================== *)
(** * services/cloudflare-worker/src: crypto.ts, config.ts, chatops.ts,
      ranking.ts                                                        *)
(* ================================================================== *)

Module Crypto.

(** A digit of [Number.prototype.toString(16)]. *)
Definition hex_digit (d : N) : ascii :=
  if (d <? 10)%N then ascii_of_N (48 + d) else ascii_of_N (87 + d).

(** [value.toString(16)] for the value of a byte. *)
Definition toString16 (value : N) : string :=
  if (value <? 16)%N then String (hex_digit value) ""
  else String (hex_digit (value / 16)) (String (hex_digit (value mod 16)) "").

Fixpoint repeat_char (n : nat) (c : ascii) (s : string) : string :=
  match n with
  | O => s
  | S k => String c (repeat_char k c s)
  end.

(** [s.padStart(n, c)] for a single pad character. *)
Definition padStart (n : nat) (c : ascii) (s : string) : string :=
  repeat_char (n - String.length s) c s.

Definition hex (input : list Byte.byte) : string :=
  join "" (map (fun value => padStart 2 "0"%char (toString16 (Byte.to_N value))) input).

Definition charCode (c : ascii) : N := N_of_ascii c.

(** The loop over [index] runs over the two strings side by side; it is
    reached only when they have the same length. *)
Definition timingSafeEqual (left right : string) : bool :=
  if negb (String.length left =? String.length right)%nat then false
  else
    let mismatch :=
      fold_left
        (fun mismatch pair =>
           N.lor mismatch (N.lxor (charCode (fst pair)) (charCode (snd pair))))
        (combine (chars left) (chars right)) 0%N in
    N.eqb mismatch 0.

Section Subtle.

(** [crypto.subtle.sign('HMAC', key(secret), body)] and
    [crypto.subtle.digest('SHA-256', input)]. *)
Variable hmac_sha256 : string -> string -> list Byte.byte.
Variable sha256 : string -> list Byte.byte.

(** [crypto.subtle.importKey] refuses a key of length zero with a
    [DataError]: the promise of [verifyGitHubSignature] is then rejected. *)
Definition verifyGitHubSignature (secret rawBody : string)
  (signatureHeader : option string) : outcome bool :=
  match signatureHeader with
  | None => Returned false
  | Some header =>
      if is_empty header then Returned false
      else if is_empty secret then Thrown "DataError"
      else
        let expected := "sha256=" ++ hex (hmac_sha256 secret rawBody) in
        Returned (timingSafeEqual expected header)
  end.

Definition shortHash (input : string) : string := slice_to 16 (hex (sha256 input)).

End Subtle.

End Crypto.

Module Config.

Record Env : Type := {
  MAX_REPOS : option string;
  TOP_PATCH_COUNT : option string;
  OPENAI_MODEL : option string;
  ALLOWED_REPOS : option string;
  AUTO_ONBOARD_WEBHOOKS : option string
}.

Record AppConfig : Type := {
  maxRepos : number;
  topPatchCount : number;
  model : string;
  allowlist : list string;
  autoOnboardWebhooks : bool
}.

Record AppConfigOverrides : Type := {
  o_topPatchCount : option number;
  o_model : option string;
  o_allowlist : option (list string);
  o_autoOnboardWebhooks : option bool
}.

Definition Number_isInteger (n : number) : bool :=
  match n with
  | Fin q => Qc_eq_bool (qz (Qfloor q)) q
  | _ => false
  end.

(** [a <= b]. *)
Definition num_leb (a b : number) : bool := num_geb b a.

(** [new Set(l)], in insertion order. *)
Fixpoint string_set (seen : list string) (l : list string) : list string :=
  match l with
  | [] => rev seen
  | s :: t =>
      if existsb (String.eqb s) seen then string_set seen t
      else string_set (s :: seen) t
  end.

Definition parseBoolean (value : option string) (fallback : bool) : bool :=
  match value with
  | None => fallback
  | Some v =>
      if is_empty v then fallback
      else
        let normalized := toLowerCase (trim v) in
        if String.eqb normalized "1" || String.eqb normalized "true"
           || String.eqb normalized "yes" || String.eqb normalized "on" then true
        else if String.eqb normalized "0" || String.eqb normalized "false"
                || String.eqb normalized "no" || String.eqb normalized "off" then false
        else fallback
  end.

Definition parseAllowlist (value : option string) : list string :=
  match value with
  | None => []
  | Some v =>
      if is_empty v then []
      else
        string_set []
          (filter (fun entry => negb (is_empty entry))
             (map (fun entry => toLowerCase (trim entry)) (split_char ","%char v)))
  end.

Definition repoKey (owner name : string) : string := toLowerCase (owner ++ "/" ++ name).

Section Builtins.

(** [Number(s)] on a string. *)
Variable Number_of_string : string -> number.

Definition parsePositiveInt (value : option string) (fallback : number) : number :=
  let parsed := match value with Some s => Number_of_string s | None => NaN end in
  if negb (Number_isInteger parsed) || num_leb parsed (num 0) then fallback
  else parsed.

Definition readConfig (env : Env) : AppConfig :=
  {| maxRepos := parsePositiveInt (MAX_REPOS env) (num 5);
     topPatchCount := parsePositiveInt (TOP_PATCH_COUNT env) (num 3);
     model := match OPENAI_MODEL env with Some m => m | None => "gpt-5.3-codex" end;
     allowlist := parseAllowlist (ALLOWED_REPOS env);
     autoOnboardWebhooks := parseBoolean (AUTO_ONBOARD_WEBHOOKS env) false |}.

End Builtins.

Definition applyConfigOverrides (base : AppConfig) (overrides : AppConfigOverrides)
  : AppConfig :=
  {| maxRepos := maxRepos base;
     topPatchCount :=
       match o_topPatchCount overrides with
       | Some n =>
           if Number_isInteger n && num_gtb n (num 0) then n else topPatchCount base
       | None => topPatchCount base
       end;
     model :=
       match o_model overrides with
       | Some m => if is_empty (trim m) then model base else trim m
       | None => model base
       end;
     allowlist :=
       match o_allowlist overrides with Some a => a | None => allowlist base end;
     autoOnboardWebhooks :=
       match o_autoOnboardWebhooks overrides with
       | Some b => b
       | None => autoOnboardWebhooks base
       end |}.

End Config.

Module CloudflareChatOps.

Import ChatOps.

Inductive CommandType : Type := type_rerun | type_explain | type_patch | type_stop.

Record ParsedCommand : Type := {
  type : CommandType;
  scope : option RerunScope;
  findingId : option string
}.

(** [t === s] for a token that may be [undefined]. *)
Definition token_is (t : option string) (s : string) : bool :=
  match t with Some x => String.eqb x s | None => false end.

(** The file's own [scopeSet] and [idPattern] are those of chatops.ts. *)
Definition parseChatOpsCommand (body : string) : option ParsedCommand :=
  let trimmed := trim body in
  if negb (startsWith trimmed "/codex ") then None
  else if includes trimmed (String LF "") then None
  else
    let tokens := split_ws trimmed in
    let cmd := nth_error tokens 1 in
    if token_is cmd "stop" && (List.length tokens =? 2)%nat then
      Some {| type := type_stop; scope := None; findingId := None |}
    else if token_is cmd "rerun" then
      let scope_ :=
        toLowerCase (match nth_error tokens 2 with Some t => t | None => "all" end) in
      match rerunScopes scope_ with
      | None => None
      | Some sc => Some {| type := type_rerun; scope := Some sc; findingId := None |}
      end
    else
      match nth_error tokens 2 with
      | Some third =>
          if (token_is cmd "explain" || token_is cmd "patch")
             && negb (is_empty third) && idPattern third
          then Some {| type := if token_is cmd "explain" then type_explain else type_patch;
                       scope := None; findingId := Some third |}
          else None
      | None => None
      end.

End CloudflareChatOps.

Module CloudflareRanking.

Import Findings.

Record Finding : Type := mkFinding {
  id : string;
  runId : number;
  role : ReviewRole;
  severity : Severity;
  confidence : number;
  filePath : string;
  startLine : number;
  endLine : number;
  title : string;
  issueKey : string;
  evidence : string;
  dedupeKey : string;
  supportingRoles : list ReviewRole;
  score : number
}.

Definition clamp01 (value : number) : number :=
  if Number_isNaN value then num 0
  else Math_max (num 0) (Math_min (num 1) value).

Definition maxSeverity (left right : Severity) : Severity :=
  if num_geb (severityWeight left) (severityWeight right) then left else right.

(** [roleBonus[finding.role]] is added as it is: [undefined] would make the
    sum NaN. *)
Definition scoreForFinding (finding : Finding) : number :=
  Number_toFixed 4
    (num_add
       (num_add
          (num_add (num_mul (severityWeight (severity finding)) (num 10))
             (num_mul (clamp01 (confidence finding)) (num 8)))
          (num_mul (num (Z.of_nat (List.length (supportingRoles finding)))) (num 5)))
       (match roleBonus (role finding) with Some b => b | None => NaN end)).

Definition with_fields (f : Finding) (sev : Severity) (conf : number)
  (roles : list ReviewRole) (score_ : number) : Finding :=
  {| id := id f; runId := runId f; role := role f; severity := sev;
     confidence := conf; filePath := filePath f; startLine := startLine f;
     endLine := endLine f; title := title f; issueKey := issueKey f;
     evidence := evidence f; dedupeKey := dedupeKey f;
     supportingRoles := roles; score := score_ |}.

Definition key_step (byKey : list (string * Finding)) (finding : Finding)
  : list (string * Finding) :=
  match map_get String.eqb byKey (dedupeKey finding) with
  | None =>
      map_set String.eqb byKey (dedupeKey finding)
        (with_fields finding (severity finding) (clamp01 (confidence finding))
           (supportingRoles finding) (score finding))
  | Some existing =>
      let supporting :=
        set_of_roles []
          (supportingRoles existing ++ supportingRoles finding ++ [role finding]) in
      map_set String.eqb byKey (dedupeKey finding)
        (with_fields existing (maxSeverity (severity existing) (severity finding))
           (Math_max (confidence existing) (clamp01 (confidence finding)))
           supporting (score existing))
  end.

Section Runtime.

Variable localeCompare : string -> string -> Z.

Definition compare_ranked (left right : Finding) : number :=
  if num_neqb (score right) (score left) then num_sub (score right) (score left)
  else if num_neqb (confidence right) (confidence left)
       then num_sub (confidence right) (confidence left)
       else num (localeCompare (id left) (id right)).

Definition dedupeAndRankFindings (findings : list Finding) : list Finding :=
  let byKey := fold_left key_step findings [] in
  let ranked :=
    map (fun f => with_fields f (severity f) (confidence f) (supportingRoles f)
                    (scoreForFinding f))
      (map_values byKey) in
  Array_sort compare_ranked ranked.

End Runtime.

End CloudflareRanking.

(* ================================================================== *)
(** * Reference collaborators                                           *)
(* ================================================================== *)

(** Executable stand-ins for what the sources take from their platform,
    for running the embedding on concrete inputs: a JSON printer and parser
    on the fragment without exponents and without \u escapes, a code-unit
    [localeCompare], and an in-memory store and comment log. *)

Module Reference.

Definition DQ : ascii := ascii_of_nat 34.
Definition BSL : ascii := ascii_of_nat 92.

(** *** Printing *)

Definition print_string (s : string) : list ascii :=
  (DQ :: flat_map
           (fun c =>
              if Ascii.eqb c DQ then [BSL; DQ]
              else if Ascii.eqb c BSL then [BSL; BSL]
              else if Ascii.eqb c LF then [BSL; "n"%char]
              else if Ascii.eqb c CR then [BSL; "r"%char]
              else if Ascii.eqb c "009"%char then [BSL; "t"%char]
              else [c])
           (chars s)
      ++ [DQ])%list.

(** The decimal digits of the fraction [r / d], at most [n] of them. *)
Fixpoint print_fraction (n : nat) (r d : Z) : list ascii :=
  match n with
  | O => []
  | S k =>
      if r =? 0 then []
      else ascii_of_nat (Z.to_nat (48 + (10 * r) / d)) :: print_fraction k ((10 * r) mod d) d
  end.

Definition print_number (n : number) : list ascii :=
  match n with
  | Fin q =>
      let a := Qnum (this q) in
      let d := Zpos (Qden (this q)) in
      let whole := Z.quot a d in
      let r := Z.abs (Z.rem a d) in
      ((if (a <? 0) && (whole =? 0) then ["-"%char] else [])
       ++ chars (Z_toString whole)
       ++ (if r =? 0 then [] else "."%char :: print_fraction 20 r d))%list
  | _ => chars "null"
  end.

Fixpoint print (v : json) : list ascii :=
  match v with
  | JNull => chars "null"
  | JBool true => chars "true"
  | JBool false => chars "false"
  | JNum n => print_number n
  | JStr s => print_string s
  | JArr items =>
      ("["%char ::
         (fix elems (l : list json) : list ascii :=
            match l with
            | [] => []
            | x :: t =>
                match t with
                | [] => print x
                | _ :: _ => print x ++ ","%char :: elems t
                end
            end) items
       ++ ["]"%char])%list
  | JObj fields =>
      ("{"%char ::
         (fix members (l : list (string * json)) : list ascii :=
            match l with
            | [] => []
            | (k, x) :: t =>
                match t with
                | [] => print_string k ++ ":"%char :: print x
                | _ :: _ => print_string k ++ ":"%char :: print x ++ ","%char :: members t
                end
            end) fields
       ++ ["}"%char])%list
  end.

Definition JSON_stringify (v : json) : string := str (print v).

(** *** Parsing *)

Definition json_space (c : ascii) : bool :=
  Ascii.eqb c " "%char || Ascii.eqb c LF || Ascii.eqb c CR || Ascii.eqb c "009"%char.

Definition skip (l : list ascii) : list ascii := drop_while json_space l.

Fixpoint parse_string (acc : list ascii) (l : list ascii)
  : option (string * list ascii) :=
  match l with
  | [] => None
  | c :: t =>
      if Ascii.eqb c DQ then Some (str (rev acc), t)
      else if Ascii.eqb c BSL then
        match t with
        | e :: t' =>
            if Ascii.eqb e "n"%char then parse_string (LF :: acc) t'
            else if Ascii.eqb e "r"%char then parse_string (CR :: acc) t'
            else if Ascii.eqb e "t"%char then parse_string ("009"%char :: acc) t'
            else if Ascii.eqb e DQ || Ascii.eqb e BSL || Ascii.eqb e "/"%char
                 then parse_string (e :: acc) t'
            else None
        | [] => None
        end
      else parse_string (c :: acc) t
  end.

Definition parse_number (l : list ascii) : option (json * list ascii) :=
  let (neg, l1) :=
    match l with
    | "-"%char :: t => (true, t)
    | _ => (false, l)
    end in
  match Diff.digits1 l1 with
  | None => None
  | Some (whole, l2) =>
      let (frac, l3) :=
        match l2 with
        | "."%char :: t =>
            match Diff.digits1 t with
            | Some (f, r) => (f, r)
            | None => ([], l2)
            end
        | _ => ([], l2)
        end in
      let scale := Z.pow_pos 10 (Pos.of_succ_nat (List.length frac)) in
      let a := Diff.Number_of_digits (whole ++ frac ++ ["0"%char]) in
      Some (JNum (Fin (Q2Qc (Qred ((if neg then - a else a) # Z.to_pos scale)))), l3)
  end.

Fixpoint parse_elems (n : nat) (pv : list ascii -> option (json * list ascii))
  (acc : list json) (l : list ascii) : option (list json * list ascii) :=
  match n with
  | O => None
  | S k =>
      match pv l with
      | None => None
      | Some (v, r) =>
          match skip r with
          | ","%char :: r' => parse_elems k pv (v :: acc) r'
          | "]"%char :: r' => Some (rev (v :: acc), r')
          | _ => None
          end
      end
  end.

Fixpoint parse_members (n : nat) (pv : list ascii -> option (json * list ascii))
  (acc : list (string * json)) (l : list ascii)
  : option (list (string * json) * list ascii) :=
  match n with
  | O => None
  | S k =>
      match skip l with
      | c :: r0 =>
          if Ascii.eqb c DQ then
            match parse_string [] r0 with
            | None => None
            | Some (key, r1) =>
                match skip r1 with
                | ":"%char :: r2 =>
                    match pv r2 with
                    | None => None
                    | Some (v, r3) =>
                        match skip r3 with
                        | ","%char :: r4 => parse_members k pv (obj_set acc key v) r4
                        | "}"%char :: r4 => Some (obj_set acc key v, r4)
                        | _ => None
                        end
                    end
                | _ => None
                end
            end
          else None
      | [] => None
      end
  end.

Fixpoint parse_value (n : nat) (l : list ascii) : option (json * list ascii) :=
  match n with
  | O => None
  | S k =>
      match skip l with
      | [] => None
      | c :: r =>
          if Ascii.eqb c DQ then
            match parse_string [] r with
            | Some (s, r') => Some (JStr s, r')
            | None => None
            end
          else if Ascii.eqb c "["%char then
            match skip r with
            | "]"%char :: r' => Some (JArr [], r')
            | _ =>
                match parse_elems k (parse_value k) [] r with
                | Some (items, r') => Some (JArr items, r')
                | None => None
                end
            end
          else if Ascii.eqb c "{"%char then
            match skip r with
            | "}"%char :: r' => Some (JObj [], r')
            | _ =>
                match parse_members k (parse_value k) [] r with
                | Some (fields, r') => Some (JObj fields, r')
                | None => None
                end
            end
          else
            match Diff.strip_prefix (chars "null") (c :: r) with
            | Some r' => Some (JNull, r')
            | None =>
                match Diff.strip_prefix (chars "true") (c :: r) with
                | Some r' => Some (JBool true, r')
                | None =>
                    match Diff.strip_prefix (chars "false") (c :: r) with
                    | Some r' => Some (JBool false, r')
                    | None => parse_number (c :: r)
                    end
                end
            end
      end
  end.

Definition JSON_parse (s : string) : option json :=
  match parse_value (S (String.length s)) (chars s) with
  | Some (v, r) => match skip r with [] => Some v | _ => None end
  | None => None
  end.

(** *** Other builtins *)

Definition localeCompare (a b : string) : Z :=
  match String_as_OT.cmp a b with Lt => -1 | Eq => 0 | Gt => 1 end.

(** *** An in-memory world for the orchestrator's collaborators *)

Record World : Type := {
  runs : list Orchestrator.RunWithRepo;
  findings : list (Z * Orchestrator.FindingRecord);
  patches : list (string * Orchestrator.PatchRecord);
  comments : list (Orchestrator.GitHubContext * Z * string)
}.

Definition store : Orchestrator.RunStore World :=
  {| Orchestrator.getRunWithRepo := fun runId w =>
       (Returned (find (fun r => Z.eqb (Orchestrator.run_id r) runId) (runs w)), w);
     Orchestrator.getFinding := fun runId findingId w =>
       (Returned
          (option_map snd
             (find (fun e => Z.eqb (fst e) runId
                             && String.eqb (Orchestrator.fr_id (snd e)) findingId)
                (findings w))), w);
     Orchestrator.listPatchesForFinding := fun findingId w =>
       (Returned (map snd (filter (fun e => String.eqb (fst e) findingId) (patches w))), w)
  |}.

Definition github : Orchestrator.GitHubService World :=
  {| Orchestrator.createIssueComment := fun ctx issue body w =>
       (Returned tt,
        {| runs := runs w; findings := findings w; patches := patches w;
           comments := (comments w ++ [(ctx, issue, body)])%list |}) |}.

End Reference.

(* ================================================================== *)
(** * Properties                                                        *)
(* ================================================================== *)

(** ** Numbers *)

Module NumberFacts.

Lemma Qcltb_lt (x y : Qc) : Qcltb x y = true <-> (x < y)%Qc.
Proof.
  unfold Qcltb. rewrite Qclt_alt.
  destruct (x ?= y)%Qc; split; intro H; congruence.
Qed.

Lemma Qcltb_ge (x y : Qc) : Qcltb x y = false <-> (y <= x)%Qc.
Proof.
  split; intro H.
  - apply Qcnot_lt_le. intro L. apply Qcltb_lt in L. congruence.
  - destruct (Qcltb x y) eqn:E; [| reflexivity].
    apply Qcltb_lt in E. exfalso. exact (Qcle_not_lt _ _ H E).
Qed.

Lemma Qcleb_le (x y : Qc) : Qcleb x y = true <-> (x <= y)%Qc.
Proof.
  unfold Qcleb. rewrite Qcle_alt.
  destruct (x ?= y)%Qc; split; intro H; congruence.
Qed.

Lemma Qc_eq_bool_refl (x : Qc) : Qc_eq_bool x x = true.
Proof.
  unfold Qc_eq_bool. destruct (Qc_eq_dec x x); [reflexivity | congruence].
Qed.

Lemma Qc_eq_bool_false (x y : Qc) : Qc_eq_bool x y = false -> x <> y.
Proof.
  intros H E. subst. rewrite Qc_eq_bool_refl in H. discriminate.
Qed.

Lemma Qcmax_cases (x y : Qc) :
  (Qcmax x y = y /\ (x <= y)%Qc) \/ (Qcmax x y = x /\ (y <= x)%Qc).
Proof.
  unfold Qcmax. destruct (Qcltb x y) eqn:E.
  - left. split; [reflexivity |]. apply Qclt_le_weak, Qcltb_lt, E.
  - right. split; [reflexivity |]. apply Qcltb_ge, E.
Qed.

Lemma Qcmin_cases (x y : Qc) :
  (Qcmin x y = y /\ (y <= x)%Qc) \/ (Qcmin x y = x /\ (x <= y)%Qc).
Proof.
  unfold Qcmin. destruct (Qcltb y x) eqn:E.
  - left. split; [reflexivity |]. apply Qclt_le_weak, Qcltb_lt, E.
  - right. split; [reflexivity |]. apply Qcltb_ge, E.
Qed.

Lemma zero_le_one : (qz 0 <= qz 1)%Qc.
Proof. apply Qcleb_le. reflexivity. Qed.

(** Clamping to [0,1] in either order of [min] and [max]. *)
Lemma clamp_orders (q : Qc) :
  Qcmin (qz 1) (Qcmax (qz 0) q) = Qcmax (qz 0) (Qcmin (qz 1) q).
Proof.
  pose proof zero_le_one as H01.
  destruct (Qcmax_cases (qz 0) q) as [[E1 L1] | [E1 L1]]; rewrite E1;
    destruct (Qcmin_cases (qz 1) q) as [[E2 L2] | [E2 L2]]; rewrite E2;
    destruct (Qcmin_cases (qz 1) (qz 0)) as [[E3 L3] | [E3 L3]];
    destruct (Qcmax_cases (qz 0) (qz 1)) as [[E4 L4] | [E4 L4]];
    destruct (Qcmax_cases (qz 0) q) as [[E5 L5] | [E5 L5]];
    destruct (Qcmin_cases (qz 1) q) as [[E6 L6] | [E6 L6]];
    try congruence;
    try (rewrite ?E3, ?E4, ?E5, ?E6;
         first [ reflexivity
               | apply Qcle_antisym; eauto using Qcle_trans ]).
Qed.


End NumberFacts.

(** ** findings.ts: the score *)

(** Section 4.2 of the specification, in its own words: the weights, the
    bonus, [clamp01] and the formula of [score]. *)
Module ScoreSpec.

Import Findings.

Definition severityWeight (s : Severity) : Z :=
  match s with low => 1 | medium => 2 | high => 3 | critical => 4 end.

Definition roleBonus (r : ReviewRole) : Qc :=
  match r with
  | correctness => qfrac 6 10
  | security => qfrac 9 10
  | maintainability => qfrac 5 10
  end.

(** Clamped to [0,1], NaN treated as 0. *)
Definition clamp01 (v : number) : Qc :=
  match v with
  | NaN => qz 0
  | NegInf => qz 0
  | PosInf => qz 1
  | Fin q => Qcmax (qz 0) (Qcmin (qz 1) q)
  end.

Definition score (sev : Severity) (conf : number) (supporting : nat)
  (r : ReviewRole) : Qc :=
  round_places 4
    (qz (severityWeight sev) * qz 10 + clamp01 conf * qz 8
     + qz (Z.of_nat supporting) * qz 5 + roleBonus r)%Qc.

End ScoreSpec.

Module FindingsFacts.

Import Findings NumberFacts.

Lemma clampConfidence_spec (v : number) :
  clampConfidence v = Fin (ScoreSpec.clamp01 v).
Proof.
  destruct v as [| | q |]; try reflexivity.
  unfold clampConfidence, ScoreSpec.clamp01. cbn [Number_isNaN].
  unfold num. cbn [Math_max Math_min]. f_equal. apply clamp_orders.
Qed.


(** The two clamps of the sources agree. *)
Lemma clamp01_clampConfidence (v : number) :
  Orchestrator.clamp01 v = clampConfidence v.
Proof.
  destruct v as [| | q |]; try reflexivity.
  unfold Orchestrator.clamp01, clampConfidence. cbn [Number_isNaN].
  unfold num. cbn [Math_max Math_min]. f_equal. symmetry. apply clamp_orders.
Qed.

Lemma rankScore_finite (sev : Severity) (conf : number)
  (roles : list ReviewRole) (r : ReviewRole) :
  exists q, rankScore sev conf roles r = Fin q.
Proof.
  unfold rankScore. rewrite clampConfidence_spec.
  destruct sev, r; eexists; reflexivity.
Qed.

(** The score of the exact model, which the lemmas on the ranking order
    use: severityWeight x 10 + clamp01(confidence) x 8
    + |supportingRoles| x 5 + roleBonus(role) over the rationals, rounded
    to 4 decimal places.  The score in the code's own arithmetic is
    [Binary64.rankScore]. *)
Theorem rankScore_formula (sev : Severity) (conf : number)
  (roles : list ReviewRole) (r : ReviewRole) :
  rankScore sev conf roles r
  = Fin (ScoreSpec.score sev conf (List.length roles) r).
Proof.
  unfold rankScore, ScoreSpec.score. rewrite clampConfidence_spec.
  destruct sev, r; reflexivity.
Qed.

End FindingsFacts.

(** ** findings.ts: the score as the code computes it *)

Module Binary64Facts.

Import Findings Binary64.

(** *** The claim's words, on the values *)

(** Two to the power [e], and the magnitude [m * 2^e] of a finite double. *)
Definition pow2 (e : Z) : Q :=
  if 0 <=? e then inject_Z (2 ^ e) else 1 # Z.to_pos (2 ^ (- e)).

Definition magnitude (m : positive) (e : Z) : Q := inject_Z (Zpos m) * pow2 e.

(** The double nearest to a rational. *)
Definition round64 (q : Q) : spec_float := nearest (Qnum q) (Qden q).

(** [c] is [v] clamped to [0,1], NaN taken as 0: [v] itself when it lies
    strictly between 0 and 1, 1 when it is 1 or more, and 0 otherwise. *)
Definition clamped01 (v c : spec_float) : Prop :=
  match SFcompare v (of_Z 0) with
  | Some Gt =>
      match SFcompare v (of_Z 1) with
      | Some Lt => c = v
      | _ => c = of_Z 1
      end
  | _ => c = of_Z 0
  end.

(** [result] is [x] rounded to [places] decimal places: the double nearest
    to [k / 10^places], where [k] is the whole number nearest to
    |x| * 10^places (the larger of two equally near), with the sign of [x];
    a number of magnitude 10^21 or more, an infinity and NaN are left as
    they are. *)
Definition rounded (places : nat) (x result : spec_float) : Prop :=
  match x with
  | S754_nan => result = S754_nan
  | S754_infinity s => result = S754_infinity s
  | S754_zero _ => result = S754_zero false
  | S754_finite s m e =>
      (inject_Z (10 ^ 21) <= magnitude m e -> result = x)%Q /\
      (magnitude m e < inject_Z (10 ^ 21) ->
       let k := Qfloor (magnitude m e * inject_Z (10 ^ Z.of_nat places) + (1 # 2)) in
       result = if k =? 0 then S754_zero s
                else nearest (if s then - k else k)
                       (Z.to_pos (10 ^ Z.of_nat places)))%Q
  end.

(** *** The code against these words *)

Lemma clampConfidence_clamped (v : spec_float) : clamped01 v (clampConfidence v).
Proof.
  unfold clamped01, clampConfidence, Math_min, Math_max.
  change (of_Z 0) with (S754_zero false).
  change (of_Z 1) with (S754_finite false 4503599627370496 (-52)).
  destruct v as [s | s | | s m e]; cbn [Number_isNaN SFcompare].
  - destruct s; reflexivity.
  - destruct s; reflexivity.
  - reflexivity.
  - destruct s; [reflexivity |].
    cbn [SFcompare].
    destruct (e ?= -52); try reflexivity.
    destruct (Pos.compare_cont Eq m 4503599627370496); reflexivity.
Qed.

Lemma pow2_nonneg (e : Z) : 0 <= e -> pow2 e = inject_Z (2 ^ e).
Proof. intro H. unfold pow2. destruct (Z.leb_spec 0 e); [reflexivity | lia]. Qed.

Lemma pow2_neg (e : Z) : e < 0 -> pow2 e = 1 # Z.to_pos (2 ^ (- e)).
Proof. intro H. unfold pow2. destruct (Z.leb_spec 0 e); [lia | reflexivity]. Qed.

Lemma Qfloor_half (n : Z) : Qfloor (inject_Z n + (1 # 2)) = n.
Proof.
  assert (E : (inject_Z n + (1 # 2) == (2 * n + 1) # 2)%Q).
  { unfold Qeq, Qplus, inject_Z. cbn [Qnum Qden]. lia. }
  rewrite (Qfloor_comp _ _ E). cbn [Qfloor].
  symmetry. apply (Z.div_unique_pos _ _ n 1); lia.
Qed.

Lemma Number_toFixed_rounded (places : nat) (x : spec_float) :
  rounded places x (Number_toFixed places x).
Proof.
  destruct x as [s | s | | s m e]; try reflexivity.
  unfold rounded, Number_toFixed, magnitude. cbv zeta.
  set (S := 10 ^ Z.of_nat places).
  assert (HS : 0 < S) by (apply Z.pow_pos_nonneg; lia).
  destruct (Z.leb_spec 0 e) as [He | He].
  - rewrite (pow2_nonneg e He).
    assert (Hp : 0 < 2 ^ e) by (apply Z.pow_pos_nonneg; lia).
    assert (Ea : (inject_Z (Z.pos m) * inject_Z (2 ^ e))%Q = inject_Z (Z.pos m * 2 ^ e)).
    { symmetry. apply inject_Z_mult. }
    split.
    + intro H. rewrite Ea, <- Zle_Qle in H.
      destruct (Z.leb_spec (10 ^ 21) (Z.pos m * 2 ^ e)); [reflexivity | lia].
    + intro H. rewrite Ea, <- Zlt_Qlt in H.
      destruct (Z.leb_spec (10 ^ 21) (Z.pos m * 2 ^ e)); [lia |].
      assert (Ek : Qfloor (inject_Z (Z.pos m) * inject_Z (2 ^ e) * inject_Z S + (1 # 2))
                   = Z.pos m * 2 ^ e * S).
      { rewrite <- Qfloor_half. rewrite Ea, <- inject_Z_mult. reflexivity. }
      rewrite Ek. reflexivity.
  - rewrite (pow2_neg e He).
    set (P := 2 ^ (- e)).
    assert (HP : 0 < P) by (apply Z.pow_pos_nonneg; lia).
    assert (EP : Z.pos (Z.to_pos P) = P) by (apply Z2Pos.id, HP).
    assert (Em : (inject_Z (Z.pos m) * (1 # Z.to_pos P) == Z.pos m # Z.to_pos P)%Q).
    { unfold Qeq, Qmult, inject_Z. cbn [Qnum Qden]. rewrite Pos.mul_1_l. ring. }
    split.
    + intro H. rewrite Em in H. unfold Qle, inject_Z in H. cbn [Qnum Qden] in H.
      rewrite EP in H.
      destruct (Z.leb_spec (10 ^ 21 * P) (Z.pos m)); [reflexivity | lia].
    + intro H. rewrite Em in H. unfold Qlt, inject_Z in H. cbn [Qnum Qden] in H.
      rewrite EP in H.
      destruct (Z.leb_spec (10 ^ 21 * P) (Z.pos m)); [lia |].
      assert (Ek : Qfloor (inject_Z (Z.pos m) * (1 # Z.to_pos P) * inject_Z S + (1 # 2))
                   = (2 * (Z.pos m * S) + P) / (2 * P)).
      { assert (E : (inject_Z (Z.pos m) * (1 # Z.to_pos P) * inject_Z S + (1 # 2)
                     == (2 * (Z.pos m * S) + P) # (2 * Z.to_pos P))%Q).
        { unfold Qeq, Qplus, Qmult, inject_Z. cbn [Qnum Qden].
          rewrite !Pos2Z.inj_mul, EP. ring. }
        rewrite (Qfloor_comp _ _ E). cbn [Qfloor].
        rewrite Pos2Z.inj_mul, EP. reflexivity. }
      rewrite Ek. reflexivity.
Qed.

Lemma roleBonus_table (r : ReviewRole) :
  roleBonus r = Some (round64 (ScoreSpec.roleBonus r)).
Proof. destruct r; vm_compute; reflexivity. Qed.

Lemma severityWeight_table (s : Severity) :
  severityWeight s = of_Z (ScoreSpec.severityWeight s).
Proof. destruct s; reflexivity. Qed.

(** C3: in binary64, as the code computes it, [rankScore] is the sum
    severityWeight * 10 + clamp01(confidence) * 8 + |supportingRoles| * 5
    + roleBonus, added from left to right with each product and each sum
    rounded to the nearest double, then rounded to 4 decimal places: the
    weights are 1, 2, 3, 4 for low, medium, high, critical, the bonuses
    the doubles nearest to 0.6, 0.9, 0.5 for correctness, security,
    maintainability, the confidence is clamped to [0,1] with NaN taken as
    0.  The result depends on the supporting roles through their number
    only, so equal inputs give the same double. *)
Theorem rankScore_binary64 (sev : Severity) (conf : spec_float)
  (roles : list ReviewRole) (r : ReviewRole) :
  exists c sum : spec_float,
    clamped01 conf c /\
    sum = add (add (add (mul (of_Z (ScoreSpec.severityWeight sev)) (of_Z 10))
                        (mul c (of_Z 8)))
                   (mul (of_Z (Z.of_nat (List.length roles))) (of_Z 5)))
              (round64 (ScoreSpec.roleBonus r)) /\
    rounded 4 sum (rankScore sev conf roles r) /\
    forall roles', List.length roles' = List.length roles ->
                   rankScore sev conf roles' r = rankScore sev conf roles r.
Proof.
  exists (clampConfidence conf). eexists.
  split; [apply clampConfidence_clamped |].
  split; [reflexivity |].
  split.
  - unfold rankScore. cbv zeta.
    rewrite roleBonus_table, severityWeight_table.
    apply Number_toFixed_rounded.
  - intros roles' E. unfold rankScore. rewrite E. reflexivity.
Qed.

(** At a confidence of 0.00000625 the sum in binary64 falls just below
    15.60005 and the score is 15.6; the sum of the exact products,
    15.60005, would round to 15.6001. *)
Lemma rankScore_small_confidence :
  rankScore low (round64 (625 # 100000000)) [correctness] correctness
  = round64 (156 # 10) /\
  round64 (156 # 10) <> round64 (156001 # 10000).
Proof. split; [vm_compute; reflexivity | vm_compute; discriminate]. Qed.

(** Two personas on one finding: high severity, confidence 0.9, two
    supporting roles, role correctness. *)
Lemma rankScore_two_personas :
  rankScore high (round64 (9 # 10)) [correctness; security] correctness
  = round64 (478 # 10).
Proof. vm_compute. reflexivity. Qed.

End Binary64Facts.

(** ** [Map] and [sort] *)

Module MapFacts.

Section Assoc.
Context {V : Type}.
Implicit Types (m : list (string * V)) (k : string) (v : V).

Lemma map_get_set_same m k v : map_get String.eqb (map_set String.eqb m k v) k = Some v.
Proof.
  induction m as [| [k' v'] t IH]; cbn.
  - rewrite String.eqb_refl. reflexivity.
  - destruct (String.eqb k' k) eqn:E; cbn; rewrite E; [reflexivity | exact IH].
Qed.

Lemma map_get_set_other m k k0 v :
  k0 <> k -> map_get String.eqb (map_set String.eqb m k v) k0 = map_get String.eqb m k0.
Proof.
  intro Hne. induction m as [| [k' v'] t IH]; cbn.
  - destruct (String.eqb_spec k k0); [congruence | reflexivity].
  - destruct (String.eqb_spec k' k) as [-> | Hk]; cbn.
    + destruct (String.eqb_spec k k0); [congruence | reflexivity].
    + destruct (String.eqb_spec k' k0); [reflexivity | exact IH].
Qed.

Lemma map_get_in m k v : map_get String.eqb m k = Some v -> In (k, v) m.
Proof.
  induction m as [| [k' v'] t IH]; cbn; [discriminate |].
  destruct (String.eqb_spec k' k) as [-> | Hk]; intro H.
  - inversion H. left. reflexivity.
  - right. apply IH, H.
Qed.

Lemma map_get_none m k : map_get String.eqb m k = None <-> ~ In k (map fst m).
Proof.
  induction m as [| [k' v'] t IH]; cbn.
  - split; [intros _ [] | reflexivity].
  - destruct (String.eqb_spec k' k) as [-> | Hk].
    + split; [discriminate | intro H; exfalso; apply H; left; reflexivity].
    + rewrite IH. split; [intros H [E | I]; [congruence | exact (H I)] | intros H I; apply H; right; exact I].
Qed.

Lemma in_map_get m k v :
  NoDup (map fst m) -> In (k, v) m -> map_get String.eqb m k = Some v.
Proof.
  induction m as [| [k' v'] t IH]; cbn; [intros _ [] |].
  intros Hnd [E | I].
  - inversion E. subst. rewrite String.eqb_refl. reflexivity.
  - inversion Hnd as [| ? ? Hnotin Hnd']. subst.
    destruct (String.eqb_spec k' k) as [-> | Hk].
    + exfalso. apply Hnotin. apply (in_map fst) in I. exact I.
    + apply IH; assumption.
Qed.

Lemma map_set_keys m k v :
  map fst (map_set String.eqb m k v)
  = if map_has String.eqb m k then map fst m else (map fst m ++ [k])%list.
Proof.
  unfold map_has. induction m as [| [k' v'] t IH]; cbn; [reflexivity |].
  destruct (String.eqb_spec k' k) as [-> | Hk]; cbn; [reflexivity |].
  rewrite IH. destruct (map_get String.eqb t k); reflexivity.
Qed.

Lemma map_set_nodup m k v :
  NoDup (map fst m) -> NoDup (map fst (map_set String.eqb m k v)).
Proof.
  intro Hnd. rewrite map_set_keys. unfold map_has.
  destruct (map_get String.eqb m k) eqn:E; [exact Hnd |].
  apply map_get_none in E.
  apply NoDup_app; [exact Hnd | repeat constructor; intros [] | ].
  intros x Hx [<- | []]. exact (E Hx).
Qed.

End Assoc.

End MapFacts.

Module SortFacts.

Section Sorting.
Context {A : Type}.
Variable cmp : A -> A -> number.

(** [x] may stand before [y]. *)
Definition before (x y : A) : Prop := num_gtb (cmp x y) (num 0) = false.

Lemma sort_insert_perm (x : A) (l : list A) :
  Permutation (sort_insert cmp x l) (x :: l).
Proof.
  induction l as [| y t IH]; cbn [sort_insert]; [reflexivity |].
  destruct (num_gtb (cmp x y) (num 0)); [| reflexivity].
  rewrite IH. apply perm_swap.
Qed.

Lemma Array_sort_perm (l : list A) : Permutation (Array_sort cmp l) l.
Proof.
  induction l as [| x t IH]; cbn [Array_sort fold_right]; [reflexivity |].
  fold (Array_sort cmp t). rewrite sort_insert_perm. constructor. exact IH.
Qed.

(** The comparator orders the elements of [dom] totally. *)
Record total_order_on (dom : list A) : Prop := {
  ord_total : forall x y, In x dom -> In y dom -> before x y \/ before y x;
  ord_trans : forall x y z, In x dom -> In y dom -> In z dom ->
      before x y -> before y z -> before x z;
  ord_antisym : forall x y, In x dom -> In y dom ->
      before x y -> before y x -> x = y
}.

Lemma sort_insert_sorted (dom : list A) (x : A) (l : list A) :
  total_order_on dom -> In x dom -> incl l dom ->
  StronglySorted before l -> StronglySorted before (sort_insert cmp x l).
Proof.
  intros Hord Hx Hl Hs. induction Hs as [| y t Hs IH Hy]; cbn [sort_insert].
  - repeat constructor.
  - assert (Hyd : In y dom) by (apply Hl; left; reflexivity).
    assert (Htd : incl t dom) by (intros z Hz; apply Hl; right; exact Hz).
    destruct (num_gtb (cmp x y) (num 0)) eqn:E.
    + constructor; [apply IH, Htd |].
      apply Forall_forall. intros z Hz.
      apply (Permutation_in _ (sort_insert_perm x t)) in Hz.
      destruct Hz as [<- | Hz].
      * destruct (ord_total dom Hord x y Hx Hyd) as [B | B]; [| exact B].
        unfold before in B. congruence.
      * rewrite Forall_forall in Hy. apply Hy, Hz.
    + constructor; [constructor; assumption |].
      constructor; [exact E |].
      apply Forall_forall. intros z Hz.
      rewrite Forall_forall in Hy.
      apply (ord_trans dom Hord x y z); auto.
Qed.

Lemma Array_sort_sorted (dom l : list A) :
  total_order_on dom -> incl l dom -> StronglySorted before (Array_sort cmp l).
Proof.
  intros Hord. induction l as [| x t IH]; intro Hl; cbn [Array_sort fold_right]; [constructor |].
  fold (Array_sort cmp t).
  apply (sort_insert_sorted dom); auto.
  - apply Hl. left. reflexivity.
  - intros z Hz. apply (Permutation_in _ (Array_sort_perm t)) in Hz.
    apply Hl. right. exact Hz.
  - apply IH. intros z Hz. apply Hl. right. exact Hz.
Qed.

Lemma sorted_perm_unique (dom l1 l2 : list A) :
  total_order_on dom -> incl l1 dom ->
  StronglySorted before l1 -> StronglySorted before l2 ->
  Permutation l1 l2 -> l1 = l2.
Proof.
  intros Hord. revert l2.
  induction l1 as [| x t IH]; intros l2 Hd S1 S2 P.
  - apply Permutation_nil in P. congruence.
  - destruct l2 as [| y t2]; [apply Permutation_sym, Permutation_nil in P; discriminate |].
    inversion S1 as [| ? ? S1' F1]. inversion S2 as [| ? ? S2' F2]. subst.
    rewrite Forall_forall in F1, F2.
    assert (Hxd : In x dom) by (apply Hd; left; reflexivity).
    assert (Hyl : In y (x :: t)) by (apply (Permutation_in _ (Permutation_sym P)); left; reflexivity).
    assert (Hxl : In x (y :: t2)) by (apply (Permutation_in _ P); left; reflexivity).
    assert (x = y) as ->.
    { destruct Hyl as [E | Hy]; [exact E |].
      destruct Hxl as [E | Hx]; [congruence |].
      apply (ord_antisym dom Hord); auto.
      apply Hd. right. exact Hy. }
    f_equal. apply IH; auto.
    + intros z Hz. apply Hd. right. exact Hz.
    + apply Permutation_cons_inv in P. exact P.
Qed.

(** On a totally ordered input the sort does not depend on the order of
    the input. *)
Lemma Array_sort_perm_eq (l1 l2 : list A) :
  total_order_on l1 -> Permutation l1 l2 ->
  Array_sort cmp l1 = Array_sort cmp l2.
Proof.
  intros Hord P.
  apply (sorted_perm_unique l1); auto.
  - intros z Hz. apply (Permutation_in _ (Array_sort_perm l1)), Hz.
  - apply (Array_sort_sorted l1); auto. apply incl_refl.
  - apply (Array_sort_sorted l1); auto.
    intros z Hz. apply (Permutation_in _ (Permutation_sym P)), Hz.
  - rewrite Array_sort_perm, Array_sort_perm. exact P.
Qed.

End Sorting.

End SortFacts.

(** ** findings.ts: grouping by dedupe key *)

Module DedupeFacts.

Import Findings NumberFacts MapFacts SortFacts FindingsFacts.

(** The order low < medium < high < critical. *)
Definition sev_rank (s : Severity) : nat :=
  match s with low => 0 | medium => 1 | high => 2 | critical => 3 end.

(** [a <= b] between finite numbers. *)
Definition num_le (a b : number) : Prop :=
  exists x y, a = Fin x /\ b = Fin y /\ (x <= y)%Qc.

Lemma higherSeverity_max (a b : Severity) :
  (higherSeverity a b = a \/ higherSeverity a b = b) /\
  (sev_rank a <= sev_rank (higherSeverity a b))%nat /\
  (sev_rank b <= sev_rank (higherSeverity a b))%nat.
Proof. destruct a, b; cbv; repeat split; auto. Qed.

Lemma role_eqb_eq (a b : ReviewRole) : role_eqb a b = true <-> a = b.
Proof. destruct a, b; cbn; split; intro H; congruence. Qed.

Lemma existsb_role (r : ReviewRole) (seen : list ReviewRole) :
  existsb (role_eqb r) seen = true <-> In r seen.
Proof.
  rewrite existsb_exists. split.
  - intros [x [Hx E]]. apply role_eqb_eq in E. subst. exact Hx.
  - intro H. exists r. split; [exact H | apply role_eqb_eq; reflexivity].
Qed.

Lemma set_of_roles_in (l seen : list ReviewRole) (x : ReviewRole) :
  In x (set_of_roles seen l) <-> In x seen \/ In x l.
Proof.
  revert seen. induction l as [| r t IH]; intro seen; cbn [set_of_roles].
  - rewrite <- in_rev. cbn [In]. tauto.
  - destruct (existsb (role_eqb r) seen) eqn:E; rewrite IH; cbn [In].
    + apply existsb_role in E. split; [tauto |].
      intros [H | [<- | H]]; auto.
    + split; [intros [[<- | H] | H] | intros [H | [<- | H]]]; auto.
Qed.

Lemma set_of_roles_nodup (l seen : list ReviewRole) :
  NoDup seen -> NoDup (set_of_roles seen l).
Proof.
  revert seen. induction l as [| r t IH]; intros seen Hnd; cbn [set_of_roles].
  - apply NoDup_rev, Hnd.
  - destruct (existsb (role_eqb r) seen) eqn:E; apply IH; [exact Hnd |].
    constructor; [| exact Hnd].
    intro H. apply existsb_role in H. congruence.
Qed.

(** The clamping the claim describes, stated on the order of the rationals
    alone: [c] is [v] clamped to [0,1], with NaN taken as 0. *)
Definition clamp_of (v : number) (c : Qc) : Prop :=
  match v with
  | NaN => c = 0%Qc
  | NegInf => c = 0%Qc
  | PosInf => c = 1%Qc
  | Fin q =>
      ((q < 0)%Qc -> c = 0%Qc) /\
      ((0 <= q)%Qc -> (q <= 1)%Qc -> c = q) /\
      ((1 < q)%Qc -> c = 1%Qc)
  end.

Lemma clamp01_cases (q : Qc) :
  ((q < 0)%Qc /\ ScoreSpec.clamp01 (Fin q) = 0%Qc) \/
  ((0 <= q)%Qc /\ (q <= 1)%Qc /\ ScoreSpec.clamp01 (Fin q) = q) \/
  ((1 < q)%Qc /\ ScoreSpec.clamp01 (Fin q) = 1%Qc).
Proof.
  assert (H01 : (0 < 1)%Qc) by reflexivity.
  cbn [ScoreSpec.clamp01]. change (qz 0) with 0%Qc. change (qz 1) with 1%Qc.
  unfold Qcmax, Qcmin.
  destruct (Qcltb q 1) eqn:A.
  - apply Qcltb_lt in A. destruct (Qcltb 0 q) eqn:B.
    + apply Qcltb_lt in B. right. left.
      repeat split; auto using Qclt_le_weak.
    + apply Qcltb_ge in B. destruct (Qclt_le_dec q 0) as [L | L].
      * left. split; [exact L | reflexivity].
      * right. left. repeat split; auto using Qclt_le_weak, Qcle_antisym.
  - apply Qcltb_ge in A. rewrite (proj2 (Qcltb_lt 0 1) H01).
    destruct (Qclt_le_dec 1 q) as [U | U].
    + right. right. split; [exact U | reflexivity].
    + right. left. repeat split; auto using Qcle_antisym.
      apply Qclt_le_weak. eapply Qclt_le_trans; eassumption.
Qed.

Lemma clamp_of_clamp01 (v : number) : clamp_of v (ScoreSpec.clamp01 v).
Proof.
  destruct v as [| | q |]; try reflexivity.
  assert (H01 : (0 < 1)%Qc) by reflexivity.
  unfold clamp_of.
  destruct (clamp01_cases q) as [[L ->] | [[L [U ->]] | [U ->]]];
    (split; [| split]); intros; try reflexivity; exfalso.
  - eapply Qclt_not_le; eassumption.
  - apply (Qclt_not_le _ _ H01).
    apply Qclt_le_weak. eapply Qclt_trans; eassumption.
  - eapply Qclt_not_le; eassumption.
  - eapply Qclt_not_le; eassumption.
  - apply (Qclt_not_le _ _ H01).
    apply Qclt_le_weak. eapply Qclt_trans; eassumption.
  - eapply Qclt_not_le; eassumption.
Qed.

Lemma clamp_of_unique (v : number) (c c' : Qc) :
  clamp_of v c -> clamp_of v c' -> c = c'.
Proof.
  destruct v as [| | q |]; cbn; try congruence.
  intros [A [B C]] [A' [B' C']].
  destruct (Qclt_le_dec q 0) as [L | L]; [rewrite A, A'; auto |].
  destruct (Qclt_le_dec 1 q) as [U | U]; [rewrite C, C'; auto |].
  rewrite B, B'; auto.
Qed.

Section Runtime.

Variable sha256_hex : string -> string.
Variable Number_toString : number -> string.
Variable localeCompare : string -> string -> Z.

Local Abbreviation key_of := (Findings.key_of sha256_hex Number_toString).
Local Abbreviation group_step := (Findings.group_step sha256_hex Number_toString).
Local Abbreviation dedupeFindings := (Findings.dedupeFindings sha256_hex Number_toString).
Local Abbreviation rankFindings :=
  (Findings.rankFindings sha256_hex Number_toString localeCompare).

(** The inputs that share the key [k], in input order. *)
Definition group (l : list Finding) (k : string) : list Finding :=
  filter (fun f => String.eqb (key_of f) k) l.

Definition clamped (f : Finding) : number := clampConfidence (confidence f).

(** What one more input with key [k] does to the record kept under [k]. *)
Definition absorb (k : string) (kept : option RankedFinding) (f : Finding)
  : option RankedFinding :=
  Some match kept with
       | None => seed f k (clamped f)
       | Some current => merge current f (clamped f)
       end.

Lemma map_get_group_step (m : list (string * RankedFinding)) (f : Finding) (k : string) :
  map_get String.eqb (group_step m f) k
  = if String.eqb (key_of f) k then absorb k (map_get String.eqb m k) f
    else map_get String.eqb m k.
Proof.
  unfold Findings.group_step, absorb, clamped.
  destruct (String.eqb_spec (key_of f) k) as [<- | Hne].
  - destruct (map_get String.eqb m (key_of f)); apply map_get_set_same.
  - destruct (map_get String.eqb m (key_of f));
      apply map_get_set_other; congruence.
Qed.

Lemma map_get_fold (l : list Finding) (m : list (string * RankedFinding)) (k : string) :
  map_get String.eqb (fold_left group_step l m) k
  = fold_left (absorb k) (group l k) (map_get String.eqb m k).
Proof.
  revert m. induction l as [| f t IH]; intro m; cbn [fold_left group filter];
    [reflexivity |].
  rewrite IH, map_get_group_step. fold (group t k).
  destruct (String.eqb (key_of f) k); reflexivity.
Qed.

Lemma fold_keys_nodup (l : list Finding) (m : list (string * RankedFinding)) :
  NoDup (map fst m) -> NoDup (map fst (fold_left group_step l m)).
Proof.
  revert m. induction l as [| f t IH]; intros m Hnd; cbn [fold_left];
    [exact Hnd |].
  apply IH. unfold Findings.group_step.
  destruct (map_get String.eqb m (key_of f)); apply map_set_nodup, Hnd.
Qed.

(** The record [r] merges the inputs [g], all of key [k]. *)
Record merged_from (k : string) (g : list Finding) (r : RankedFinding) : Prop := {
  mf_key : dedupeKey r = k;
  mf_sev_in : In (severity r) (map severity g);
  mf_sev_max : forall f, In f g -> (sev_rank (severity f) <= sev_rank (severity r))%nat;
  mf_conf_in : In (confidence r) (map clamped g);
  mf_conf_max : forall f, In f g -> num_le (clamped f) (confidence r);
  mf_roles : forall x, In x (supportingRoles r) <-> In x (map role g);
  mf_roles_nodup : NoDup (supportingRoles r)
}.

Lemma clamped_fin (f : Finding) : clamped f = Fin (ScoreSpec.clamp01 (confidence f)).
Proof. apply clampConfidence_spec. Qed.

Lemma num_le_refl_clamped (f : Finding) : num_le (clamped f) (clamped f).
Proof.
  rewrite clamped_fin. eexists _, _. repeat split. apply Qcle_refl.
Qed.

Lemma seed_merged (k : string) (f : Finding) :
  merged_from k [f] (seed f k (clamped f)).
Proof.
  constructor; cbn.
  - reflexivity.
  - left. reflexivity.
  - intros ? [<- | []]. apply le_n.
  - left. reflexivity.
  - intros ? [<- | []]. apply num_le_refl_clamped.
  - intro x. tauto.
  - repeat constructor. intros [].
Qed.

Lemma merge_merged (k : string) (g : list Finding) (c : RankedFinding) (f : Finding) :
  merged_from k g c -> merged_from k (g ++ [f]) (merge c f (clamped f)).
Proof.
  intros [Hk Hsi Hsm Hci Hcm Hr Hnd].
  destruct (higherSeverity_max (severity c) (severity f)) as [Hhs [Hh1 Hh2]].
  assert (Hconf : exists a b, confidence c = Fin a /\ clamped f = Fin b).
  { apply in_map_iff in Hci. destruct Hci as [f0 [E _]].
    rewrite <- E, !clamped_fin. eauto. }
  destruct Hconf as [a [b [Ea Eb]]].
  constructor; cbn [merge base severity confidence dedupeKey supportingRoles].
  - exact Hk.
  - rewrite map_app, in_app_iff. cbn.
    destruct Hhs as [-> | ->]; [left; exact Hsi | right; left; reflexivity].
  - intros f0 Hf0. apply in_app_iff in Hf0. destruct Hf0 as [H | [<- | []]].
    + specialize (Hsm _ H). lia.
    + exact Hh2.
  - rewrite map_app, in_app_iff. cbn. rewrite Ea, Eb. cbn [Math_max].
    destruct (Qcmax_cases a b) as [[-> _] | [-> _]].
    + right. left. reflexivity.
    + left. rewrite <- Ea. exact Hci.
  - intros f0 Hf0. rewrite Ea, Eb. cbn [Math_max].
    apply in_app_iff in Hf0. destruct Hf0 as [H | [<- | []]].
    + destruct (Hcm _ H) as [x [y [Ex [Ey Hxy]]]]. rewrite Ea in Ey.
      inversion Ey. subst y. exists x, (Qcmax a b). repeat split; [exact Ex |].
      destruct (Qcmax_cases a b) as [[-> L] | [-> L]];
        eauto using Qcle_trans.
    + exists b, (Qcmax a b). repeat split; [exact Eb |].
      destruct (Qcmax_cases a b) as [[-> L] | [-> L]];
        [apply Qcle_refl | exact L].
  - intro x. rewrite set_of_roles_in, map_app, !in_app_iff, Hr. cbn. tauto.
  - apply set_of_roles_nodup. constructor.
Qed.

Lemma absorb_fold (k : string) (g g0 : list Finding) (c : RankedFinding) :
  merged_from k g0 c ->
  exists r, fold_left (absorb k) g (Some c) = Some r /\ merged_from k (g0 ++ g) r.
Proof.
  revert g0 c. induction g as [| f t IH]; intros g0 c Hc; cbn [fold_left].
  - exists c. rewrite app_nil_r. auto.
  - cbn [absorb].
    destruct (IH (g0 ++ [f])%list _ (merge_merged k g0 c f Hc)) as [r [E Hr]].
    exists r. rewrite <- app_assoc in Hr. auto.
Qed.

Lemma absorb_group (k : string) (g : list Finding) :
  match fold_left (absorb k) g None with
  | None => g = []
  | Some r => g <> [] /\ merged_from k g r
  end.
Proof.
  destruct g as [| f t]; [reflexivity |].
  change (fold_left (absorb k) (f :: t) None)
    with (fold_left (absorb k) t (Some (seed f k (clamped f)))).
  destruct (absorb_fold k t [f] _ (seed_merged k f)) as [r [-> Hr]].
  split; [discriminate | exact Hr].
Qed.

Lemma group_nonempty (l : list Finding) (k : string) :
  group l k <> [] <-> In k (map key_of l).
Proof.
  unfold group. split.
  - intro H. destruct (filter _ l) as [| f t] eqn:E; [congruence |].
    assert (Hf : In f (filter (fun f => String.eqb (key_of f) k) l))
      by (rewrite E; left; reflexivity).
    apply filter_In in Hf. destruct Hf as [Hin Hk].
    apply String.eqb_eq in Hk. subst. apply in_map, Hin.
  - intros H E. apply in_map_iff in H. destruct H as [f [Hk Hin]].
    assert (Hf : In f (filter (fun f => String.eqb (key_of f) k) l))
      by (apply filter_In; split; [exact Hin | apply String.eqb_eq, Hk]).
    rewrite E in Hf. exact Hf.
Qed.

(** The table after the loop: unique keys, one entry per key of the input,
    each entry the merge of its group. *)
Lemma grouped_entries (l : list Finding) :
  let grouped := fold_left group_step l [] in
  NoDup (map fst grouped) /\
  (forall k, In k (map fst grouped) <-> In k (map key_of l)) /\
  (forall k r, In (k, r) grouped -> merged_from k (group l k) r).
Proof.
  cbn zeta.
  assert (Hnd : NoDup (map fst (fold_left group_step l []))).
  { apply fold_keys_nodup. constructor. }
  assert (Hget : forall k,
             match map_get String.eqb (fold_left group_step l []) k with
             | None => group l k = []
             | Some r => group l k <> [] /\ merged_from k (group l k) r
             end).
  { intro k. rewrite map_get_fold. cbn [map_get]. apply absorb_group. }
  split; [exact Hnd | split].
  - intro k. rewrite <- group_nonempty. specialize (Hget k).
    destruct (map_get String.eqb (fold_left group_step l []) k) eqn:E.
    + split; [tauto |]. intros _.
      apply map_get_in in E. apply (in_map fst) in E. exact E.
    + apply map_get_none in E. split; [tauto | congruence].
  - intros k r Hin. specialize (Hget k).
    rewrite (in_map_get _ _ _ Hnd Hin) in Hget. tauto.
Qed.

Lemma entry_key (l : list Finding) (k : string) (r : RankedFinding) :
  In (k, r) (fold_left group_step l []) -> dedupeKey r = k.
Proof.
  intro H. apply (mf_key _ _ _ (proj2 (proj2 (grouped_entries l)) k r H)).
Qed.

Lemma dedupe_keys (l : list Finding) :
  map (fun r : RankedFinding => dedupeKey r) (dedupeFindings l)
  = map fst (fold_left group_step l []).
Proof.
  unfold Findings.dedupeFindings, map_values. rewrite !map_map.
  apply map_ext_in. intros [k r] Hin. cbn. apply (entry_key l), Hin.
Qed.

(** C1: [rankFindings] returns exactly one record per distinct dedupe key
    of its input; the record's severity is the highest severity of the
    inputs with that key; its confidence is a finite number [c] that is the
    clamped confidence of one of those inputs and is not below the clamped
    confidence of any of them, where clamping ([clamp_of]) takes a number
    below 0 and NaN to 0, a number above 1 to 1 and leaves a number of
    [0,1] as it is; and its supporting roles are exactly the roles of those
    inputs, each once. *)
Theorem rankFindings_merges_by_key (l : list Finding) :
  let out := rankFindings l in
  NoDup (map (fun r : RankedFinding => dedupeKey r) out) /\
  (forall k, In k (map (fun r : RankedFinding => dedupeKey r) out)
             <-> In k (map key_of l)) /\
  (forall r, In r out ->
     let g := group l (dedupeKey r) in
     (In (severity r) (map severity g) /\
      forall f, In f g -> (sev_rank (severity f) <= sev_rank (severity r))%nat) /\
     (exists c, confidence r = Fin c /\
        (exists f, In f g /\ clamp_of (confidence f) c) /\
        (forall f c', In f g -> clamp_of (confidence f) c' -> (c' <= c)%Qc)) /\
     (forall x, In x (supportingRoles r) <-> In x (map role g)) /\
     NoDup (supportingRoles r)).
Proof.
  cbn zeta. unfold Findings.rankFindings.
  pose proof (Array_sort_perm (rank_compare localeCompare) (dedupeFindings l)) as P.
  destruct (grouped_entries l) as [Hnd [Hkeys Hent]].
  split; [| split].
  - eapply Permutation_NoDup.
    + apply Permutation_map, Permutation_sym, P.
    + rewrite dedupe_keys. exact Hnd.
  - intro k. rewrite <- Hkeys, <- dedupe_keys.
    split; apply Permutation_in, Permutation_map;
      [exact P | apply Permutation_sym, P].
  - intros r Hr. apply (Permutation_in _ P) in Hr.
    unfold Findings.dedupeFindings, map_values in Hr.
    rewrite map_map in Hr. apply in_map_iff in Hr.
    destruct Hr as [[k r0] [<- Hin]]. cbn [snd with_score base supportingRoles].
    pose proof (Hent k r0 Hin) as [Hk Hsi Hsm Hci Hcm Hro Hrn].
    rewrite Hk. split; [split; assumption | split; [| split; assumption]].
    apply in_map_iff in Hci. destruct Hci as [f0 [E Hf0]].
    unfold clamped in E. rewrite clampConfidence_spec in E.
    exists (ScoreSpec.clamp01 (confidence f0)).
    split; [symmetry; exact E | split].
    + exists f0. split; [exact Hf0 | apply clamp_of_clamp01].
    + intros f c' Hf Hc'.
      rewrite (clamp_of_unique _ _ _ Hc' (clamp_of_clamp01 (confidence f))).
      destruct (Hcm f Hf) as [x [y [Ex [Ey Hxy]]]].
      unfold clamped in Ex. rewrite clampConfidence_spec in Ex.
      rewrite <- E in Ey. inversion Ex. inversion Ey. subst. exact Hxy.
Qed.

End Runtime.

End DedupeFacts.

(** ** findings.ts: the ranking order *)

Module RankFacts.

Import Findings NumberFacts MapFacts SortFacts FindingsFacts DedupeFacts.

Lemma qz_lt (a b : Z) : (qz a < qz b)%Qc <-> a < b.
Proof.
  unfold qz, Qclt. cbn [this Q2Qc]. rewrite !Qred_correct, <- Zlt_Qlt. tauto.
Qed.

Lemma gt_zero_diff (a b : Qc) :
  num_gtb (num_sub (Fin a) (Fin b)) (num 0) = true <-> (b < a)%Qc.
Proof.
  unfold num_gtb, num_sub, num. cbn [num_neg num_add num_ltb].
  rewrite Qcltb_lt. symmetry. apply Qclt_minus_iff.
Qed.

Lemma gt_zero_num (z : Z) : num_gtb (num z) (num 0) = true <-> 0 < z.
Proof.
  unfold num_gtb, num. cbn [num_ltb]. rewrite Qcltb_lt. apply qz_lt.
Qed.

Lemma num_neqb_fin (a b : Qc) : num_neqb (Fin a) (Fin b) = false <-> a = b.
Proof.
  unfold num_neqb, num_eqb. rewrite negb_false_iff. split.
  - apply Qc_eq_bool_correct.
  - intros ->. apply Qc_eq_bool_refl.
Qed.

(** A comparison that orders the strings totally, as the code-unit order
    does: [a] is not after [b] when the comparison is not positive. *)
Record collation_order (lc : string -> string -> Z) : Prop := {
  lc_total : forall a b, lc a b <= 0 \/ lc b a <= 0;
  lc_trans : forall a b c, lc a b <= 0 -> lc b c <= 0 -> lc a c <= 0;
  lc_antisym : forall a b, lc a b <= 0 -> lc b a <= 0 -> a = b
}.

Lemma Qc_trichotomy (a b : Qc) : (a < b)%Qc \/ a = b \/ (b < a)%Qc.
Proof.
  destruct (Qclt_le_dec a b) as [L | L]; [left; exact L |].
  destruct (Qcle_lt_or_eq _ _ L) as [L' | E]; auto.
Qed.

Lemma Qclt_irrefl (a : Qc) : ~ (a < a)%Qc.
Proof. intro L. exact (Qclt_not_le _ _ L (Qcle_refl _)). Qed.

Lemma Qclt_asym (a b : Qc) : (a < b)%Qc -> ~ (b < a)%Qc.
Proof. intros L L'. exact (Qclt_not_le _ _ L (Qclt_le_weak _ _ L')). Qed.

Lemma nodup_map_injective {A B : Type} (g : A -> B) (l : list A) (a b : A) :
  NoDup (map g l) -> In a l -> In b l -> g a = g b -> a = b.
Proof.
  induction l as [| x t IH]; cbn; [intros _ [] |].
  intros Hnd Ha Hb E. inversion Hnd as [| ? ? Hnot Hnd']. subst.
  destruct Ha as [-> | Ha], Hb as [-> | Hb]; auto.
  - exfalso. apply Hnot. rewrite E. apply in_map, Hb.
  - exfalso. apply Hnot. rewrite <- E. apply in_map, Ha.
Qed.

End RankFacts.

(** ** findings.ts on concrete inputs *)

Module FindingsExamples.

Import Findings DedupeFacts RankFacts.

Lemma reference_collation : collation_order Reference.localeCompare.
Proof.
  assert (Hle : forall a b, Reference.localeCompare a b <= 0
                            <-> String_as_OT.lt a b \/ a = b).
  { intros a b. unfold Reference.localeCompare.
    destruct (String_as_OT.cmp a b) eqn:E.
    - apply String_as_OT.cmp_eq in E. split; [auto | lia].
    - apply String_as_OT.cmp_lt in E. split; [auto | lia].
    - split; [lia |]. intros [L | ->].
      + apply String_as_OT.cmp_lt in L. congruence.
      + rewrite (proj2 (String_as_OT.cmp_eq b b) eq_refl) in E. discriminate. }
  constructor.
  - intros a b. rewrite !Hle.
    destruct (String_as_OT.cmp a b) eqn:E.
    + apply String_as_OT.cmp_eq in E. auto.
    + apply String_as_OT.cmp_lt in E. auto.
    + rewrite String_as_OT.cmp_antisym in E.
      destruct (String_as_OT.cmp b a) eqn:E'; try discriminate.
      apply String_as_OT.cmp_lt in E'. auto.
  - intros a b c. rewrite !Hle. intros [L1 | ->] [L2 | ->]; auto.
    left. eapply String_as_OT.lt_trans; eauto.
  - intros a b. rewrite !Hle. intros [L1 | ->] [L2 | E]; auto.
    exfalso. apply (String_as_OT.lt_not_eq _ _ (String_as_OT.lt_trans _ _ _ L1 L2)).
    reflexivity.
Qed.

(** A stand-in digest: the examples give every finding its key. *)
Definition digest (s : string) : string := s.
Definition show_number (n : number) : string :=
  match n with Fin q => Z_toString (Qfloor q) | _ => "NaN" end.

Definition rank : list Finding -> list RankedFinding :=
  rankFindings digest show_number Reference.localeCompare.

Definition sample (id_ : string) (role_ : ReviewRole) (sev : Severity)
  (conf : number) (key : string) : Finding :=
  {| id := id_; repo := "acme/api"; prNumber := num 42; role := role_;
     severity := sev; confidence := conf; file := "src/index.ts";
     startLine := num 10; endLine := num 10;
     title := "Potential null dereference"; issueKey := "null-deref";
     evidence := []; dedupeKey := key |}.

Definition first_finding : Finding :=
  sample "f-1" correctness medium (Fin (qfrac 6 10)) "k1".
Definition second_finding : Finding :=
  sample "f-2" security high (Fin (qfrac 9 10)) "k1".
Definition third_finding : Finding :=
  sample "f-3" security high (Fin (qfrac 9 10)) "k2".

(** Two findings with one key, in the two orders: the merged record keeps
    the id and the role of whichever came first. *)
Lemma rankFindings_order_dependent :
  Permutation [first_finding; second_finding] [second_finding; first_finding] /\
  map (fun r : RankedFinding => (id r, role r, supportingRoles r))
    (rank [first_finding; second_finding])
  = [("f-1", correctness, [correctness; security])] /\
  map (fun r : RankedFinding => (id r, role r, supportingRoles r))
    (rank [second_finding; first_finding])
  = [("f-2", security, [security; correctness])] /\
  rank [first_finding; second_finding] <> rank [second_finding; first_finding].
Proof.
  split; [apply perm_swap |].
  split; [vm_compute; reflexivity |].
  split; [vm_compute; reflexivity |].
  intro H.
  apply (f_equal (map (fun r : RankedFinding => id r))) in H.
  vm_compute in H. discriminate.
Qed.

(** The scenarios of the specification: two personas on one key, and a
    critical finding against a confident medium one. *)
Lemma two_personas_one_record :
  map (fun r : RankedFinding => (severity r, supportingRoles r))
    (rank [first_finding; second_finding])
  = [(high, [correctness; security])] /\
  map (fun r : RankedFinding =>
         (num_eqb (score r) (Fin (qfrac 478 10)),
          num_eqb (confidence r) (Fin (qfrac 9 10))))
    (rank [first_finding; second_finding])
  = [(true, true)].
Proof. split; vm_compute; reflexivity. Qed.

Lemma critical_ranks_first :
  map (fun r : RankedFinding => id r)
    (rank [ sample "medium-1" correctness medium (Fin (qfrac 95 100)) "style-nit";
            sample "critical-1" correctness critical (Fin (qfrac 55 100)) "sql-injection" ])
  = ["critical-1"; "medium-1"].
Proof. vm_compute. reflexivity. Qed.

End FindingsExamples.

(** ** diff.ts *)

Module DiffFacts.

Import Diff.

Definition newline : string := String LF "".

(** The kinds of line the loop tells apart. *)
Definition marker (line : string) : bool :=
  startsWith line "+++" || startsWith line "---".
Definition added (line : string) : bool :=
  startsWith line "+" && negb (marker line).
Definition removed (line : string) : bool :=
  startsWith line "-" && negb (marker line).
Definition change (line : string) : bool :=
  startsWith line "+" || startsWith line "-".

(** A new file header, a new hunk header or an unchanged context line. *)
Definition trigger (line : string) : Prop :=
  match_file_header line <> None \/ match_hunk_header line <> None
  \/ startsWith line " " = true.

(** What a flush of the block with the given file, anchor and body lines
    adds to the suggestions. *)
Definition emitted (file_ : option string) (anchor : Z) (lines : list string)
  : list GithubSuggestion :=
  match file_, lines with
  | Some f, _ :: _ =>
      if is_empty f then []
      else [ {| filePath := f; startLine := anchor; endLine := anchor;
                body := join newline lines |} ]
  | _, _ => []
  end.

Lemma change_not_header (line : string) :
  change line = true ->
  match_file_header line = None /\ match_hunk_header line = None.
Proof.
  unfold change, startsWith. destruct line as [| c rest]; [discriminate |].
  cbn [String.prefix]. intro H.
  assert (Hc : c = "+"%char \/ c = "-"%char).
  { apply orb_true_iff in H. destruct H as [H | H];
      [left | right];
      destruct (Ascii.ascii_dec _ c) as [E | E]; try discriminate; auto. }
  destruct Hc as [-> | ->]; split; reflexivity.
Qed.

Lemma space_not_change (line : string) :
  startsWith line " " = true ->
  marker line = false /\ startsWith line "+" = false /\ startsWith line "-" = false.
Proof.
  unfold marker, startsWith. destruct line as [| c rest]; [discriminate |].
  cbn [String.prefix].
  destruct (Ascii.ascii_dec _ c) as [E | E]; [| discriminate]. subst c.
  intros _. repeat split; reflexivity.
Qed.

Lemma step_change (st : State) (line : string) :
  change line = true ->
  step st line
  = if marker line then st
    else if startsWith line "+" then
           set_newLine (push_body (open_pending st) (slice_from 1 line))
             (newLine st + 1)
         else open_pending st.
Proof.
  intro H. unfold step, marker.
  destruct (change_not_header line H) as [-> ->].
  destruct (startsWith line "+++" || startsWith line "---"); [reflexivity |].
  destruct (startsWith line "+") eqn:Ep.
  - f_equal. unfold open_pending. destruct (pendingStart st); reflexivity.
  - unfold change in H. rewrite Ep in H. cbn in H. rewrite H. reflexivity.
Qed.

Lemma step_trigger (st : State) (line : string) :
  trigger line ->
  suggestions (step st line) = suggestions (flush st) /\
  currentFile (step st line)
  = match match_file_header line with
    | Some (_, f) => Some f
    | None => currentFile st
    end /\
  pendingStart (step st line) = None /\ pendingBody (step st line) = [].
Proof.
  assert (Hf : forall s, pendingStart (flush s) = None /\ pendingBody (flush s) = []
                         /\ currentFile (flush s) = currentFile s).
  { intro s. unfold flush.
    destruct (currentFile s) as [f |] eqn:E, (pendingStart s), (pendingBody s);
      try destruct (is_empty f); cbn; rewrite ?E; repeat split; reflexivity. }
  intro T. unfold step.
  destruct (match_file_header line) as [[g1 f] |] eqn:Efile.
  - cbn. destruct (Hf st) as [-> [-> _]]. auto.
  - destruct (match_hunk_header line) as [n |] eqn:Ehunk.
    + cbn. destruct (Hf st) as [-> [-> ->]]. auto.
    + destruct T as [T | [T | T]]; try congruence.
      destruct (space_not_change line T) as [Hm [Hp Hr]].
      unfold marker in Hm. rewrite Hm, Hp, Hr, T. cbn.
      destruct (Hf st) as [-> [-> ->]]. auto.
Qed.

(** A run of change lines leaves the suggestions alone, collects the text
    of the added lines and fixes the anchor at the first line that is not a
    marker. *)
Lemma run_block (block : list string) (st : State) :
  Forall (fun l => change l = true) block ->
  let st' := run st block in
  suggestions st' = suggestions st /\
  currentFile st' = currentFile st /\
  pendingBody st' = (pendingBody st ++ map (slice_from 1) (filter added block))%list /\
  (forall p, pendingStart st = Some p -> pendingStart st' = Some p) /\
  (pendingStart st = None ->
   pendingStart st' = None /\ filter added block = []
   \/ pendingStart st' = Some (Z.max 1 (newLine st - 1))).
Proof.
  revert st. induction block as [| line rest IH]; intros st HF; cbn zeta.
  - cbn. rewrite app_nil_r. repeat split; auto.
  - inversion HF as [| ? ? Hline Hrest]. subst.
    unfold run. cbn [fold_left]. fold (run (step st line) rest).
    specialize (IH (step st line) Hrest). cbn zeta in IH.
    destruct IH as [Hs [Hc [Hb [Hsome Hnone]]]].
    rewrite (step_change st line Hline) in *.
    assert (Ho : suggestions (open_pending st) = suggestions st /\
                 currentFile (open_pending st) = currentFile st /\
                 pendingBody (open_pending st) = pendingBody st /\
                 newLine (open_pending st) = newLine st /\
                 pendingStart (open_pending st)
                 = Some (match pendingStart st with
                         | Some p => p
                         | None => Z.max 1 (newLine st - 1)
                         end)).
    { unfold open_pending. destruct (pendingStart st) eqn:E; cbn; rewrite ?E; auto. }
    destruct Ho as [Ho1 [Ho2 [Ho3 [Ho4 Ho5]]]].
    assert (Ea : added line = startsWith line "+" && negb (marker line))
      by reflexivity.
    cbn [filter]. rewrite Ea. clear Ea.
    destruct (marker line) eqn:Em.
    + rewrite andb_false_r. auto 6.
    + rewrite andb_true_r. destruct (startsWith line "+") eqn:Ep.
      * cbn [set_newLine push_body suggestions currentFile pendingBody pendingStart] in *.
        rewrite Hs, Hc, Hb, Ho1, Ho2, Ho3. cbn [map]. rewrite <- app_assoc.
        repeat split; auto.
        -- intros p Hp. apply Hsome. rewrite Ho5, Hp. reflexivity.
        -- intro Hn. right. apply Hsome. rewrite Ho5, Hn. reflexivity.
      * rewrite Hs, Hc, Hb, Ho1, Ho2, Ho3.
        repeat split; auto.
        -- intros p Hp. apply Hsome. rewrite Ho5, Hp. reflexivity.
        -- intro Hn. right. apply Hsome. rewrite Ho5, Hn. reflexivity.
Qed.

Lemma run_app (st : State) (a b : list string) : run st (a ++ b) = run (run st a) b.
Proof. apply fold_left_app. Qed.

(** One block: from a state with nothing pending, a run of consecutive added
    and removed lines followed by a file header, a hunk header or a context
    line adds at most one suggestion: it is anchored at the line before the first
    affected line, floored at 1, its body is the text of the '+' lines
    without the marker, joined by newlines, and it is emitted when the file
    is known and the body has a line; afterwards nothing is pending. *)
Theorem suggestion_blocks (st : State) (block : list string) (t : string) :
  pendingStart st = None -> pendingBody st = [] ->
  Forall (fun l => startsWith l "+" = true \/ startsWith l "-" = true) block ->
  trigger t ->
  let after := run st (block ++ [t]) in
  suggestions after
  = (suggestions st
     ++ emitted (currentFile st) (Z.max 1 (newLine st - 1))
          (map (slice_from 1) (filter added block)))%list /\
  pendingStart after = None /\ pendingBody after = [].
Proof.
  intros Hstart Hbody Hblock Ht. cbn zeta.
  rewrite run_app. cbn [run fold_left]. fold (run st block).
  assert (HF : Forall (fun l => change l = true) block).
  { eapply Forall_impl; [| exact Hblock]. cbn. intros l [H | H];
      unfold change; rewrite H; auto using orb_true_r. }
  destruct (run_block block st HF) as [Hs [Hc [Hb [_ Hnone]]]].
  destruct (step_trigger (run st block) t Ht) as [-> [_ [-> ->]]].
  split; [| auto].
  unfold flush. rewrite Hc, Hb, Hbody. cbn [app].
  destruct (Hnone Hstart) as [[Hp Hf] | Hp]; rewrite Hp.
  - rewrite Hf. cbn [map]. unfold emitted.
    destruct (currentFile st); cbn; rewrite Hs, ?app_nil_r; reflexivity.
  - unfold emitted. destruct (currentFile st) as [f |];
      [| cbn; rewrite Hs, app_nil_r; reflexivity].
    destruct (map (slice_from 1) (filter added block));
      [cbn; rewrite Hs, app_nil_r; reflexivity |].
    destruct (is_empty f); cbn; rewrite Hs, ?app_nil_r; reflexivity.
Qed.

End DiffFacts.

Module DiffShape.

Import Diff DiffFacts.

(** A '+' line of the input. *)
Definition plus_line (lines : list string) (l : string) : Prop :=
  In l lines /\ startsWith l "+" = true.

(** A single-line anchor at line 1 or later, a known file, and a body that
    joins the text of at least one '+' line of the input. *)
Definition well_formed (lines : list string) (s : GithubSuggestion) : Prop :=
  endLine s = startLine s /\ 1 <= startLine s /\ filePath s <> "" /\
  exists ls, ls <> [] /\ Forall (plus_line lines) ls /\
             body s = join newline (map (slice_from 1) ls).

Record invariant (lines : list string) (st : State) : Prop := {
  inv_suggestions : Forall (well_formed lines) (suggestions st);
  inv_start : forall p, pendingStart st = Some p -> 1 <= p;
  inv_body : exists ls, Forall (plus_line lines) ls /\
                        pendingBody st = map (slice_from 1) ls
}.

Lemma invariant_init (lines : list string) : invariant lines init.
Proof.
  constructor; cbn.
  - constructor.
  - discriminate.
  - exists []. split; [constructor | reflexivity].
Qed.

Lemma invariant_reset (lines : list string) (st : State) (sugg : list GithubSuggestion) :
  Forall (well_formed lines) sugg -> invariant lines (reset_pending st sugg).
Proof.
  intro H. constructor; cbn.
  - exact H.
  - discriminate.
  - exists []. split; [constructor | reflexivity].
Qed.

Lemma invariant_flush (lines : list string) (st : State) :
  invariant lines st -> invariant lines (flush st).
Proof.
  intros [Hs Hp [ls [Hls Hb]]]. unfold flush.
  destruct (currentFile st) as [f |]; [| apply invariant_reset, Hs].
  destruct (pendingStart st) as [p |] eqn:Ep; [| apply invariant_reset, Hs].
  destruct (pendingBody st) as [| b bs] eqn:Eb; [apply invariant_reset, Hs |].
  destruct (is_empty f) eqn:Ef; [apply invariant_reset, Hs |].
  apply invariant_reset. apply Forall_app. split; [exact Hs |].
  constructor; [| constructor].
  repeat split; cbn [body filePath startLine endLine].
  - apply Hp. reflexivity.
  - intros ->. discriminate.
  - exists ls. repeat split; [| exact Hls | rewrite Hb; reflexivity].
    intros ->. discriminate.
Qed.

Lemma invariant_fields (lines : list string) (st : State) (f : option string) (n : Z) :
  invariant lines st ->
  invariant lines
    {| suggestions := suggestions st; currentFile := f; newLine := n;
       pendingStart := pendingStart st; pendingBody := pendingBody st |}.
Proof. intros [Hs Hp Hb]. constructor; assumption. Qed.

Lemma invariant_open (lines : list string) (st : State) :
  invariant lines st -> invariant lines (open_pending st).
Proof.
  intro Hinv. pose proof Hinv as [Hs Hp Hb]. unfold open_pending.
  destruct (pendingStart st) eqn:E.
  - exact Hinv.
  - constructor; cbn; auto.
    intros p Hq. inversion Hq. subst p. lia.
Qed.

Lemma invariant_push (lines : list string) (st : State) (line : string) :
  plus_line lines line -> invariant lines st ->
  invariant lines (push_body st (slice_from 1 line)).
Proof.
  intros Hl [Hs Hp [ls [Hls Hb]]]. constructor; cbn; auto.
  exists (ls ++ [line])%list. split.
  - apply Forall_app. split; [exact Hls | constructor; [exact Hl | constructor]].
  - rewrite Hb, map_app. reflexivity.
Qed.

Lemma invariant_step (lines : list string) (st : State) (line : string) :
  In line lines -> invariant lines st -> invariant lines (step st line).
Proof.
  intros Hin Hinv. unfold step.
  destruct (match_file_header line) as [[g1 f] |].
  { apply (invariant_fields lines (flush st)), invariant_flush, Hinv. }
  destruct (match_hunk_header line) as [n |].
  { apply (invariant_fields lines (flush st)), invariant_flush, Hinv. }
  destruct (startsWith line "+++" || startsWith line "---"); [exact Hinv |].
  destruct (startsWith line "+") eqn:Ep.
  { apply (invariant_fields lines (push_body (open_pending st) (slice_from 1 line))).
    apply invariant_push; [split; assumption | apply invariant_open, Hinv]. }
  destruct (startsWith line "-"); [apply invariant_open, Hinv |].
  destruct (startsWith line " ").
  - apply (invariant_fields lines (flush st)), invariant_flush, Hinv.
  - apply invariant_flush, Hinv.
Qed.

Lemma invariant_run (lines : list string) (ls : list string) (st : State) :
  incl ls lines -> invariant lines st -> invariant lines (run st ls).
Proof.
  revert st. induction ls as [| l t IH]; intros st Hincl Hinv; [exact Hinv |].
  cbn [run fold_left]. apply IH.
  - intros x Hx. apply Hincl. right. exact Hx.
  - apply invariant_step; [apply Hincl; left; reflexivity | exact Hinv].
Qed.

Lemma slice0_incl {A : Type} (l : list A) (n : Z) : incl (Array_slice0 l n) l.
Proof.
  assert (H : forall k, incl (firstn k l) l).
  { intros k x Hx. rewrite <- (firstn_skipn k l). apply in_or_app. left. exact Hx. }
  unfold Array_slice0. destruct (n <? 0); apply H.
Qed.

Lemma slice0_length {A : Type} (l : list A) (n : Z) :
  0 <= n -> Z.of_nat (List.length (Array_slice0 l n)) <= n.
Proof.
  intro Hn. unfold Array_slice0.
  destruct (Z.ltb_spec n 0); [lia |].
  pose proof (firstn_le_length (Z.to_nat n) l). lia.
Qed.

(** C10, as the code has it: every suggestion returned has [endLine] equal
    to [startLine], a [startLine] of at least 1 and a body that joins the
    text of at least one '+' line of the diff (the body is the empty string
    when the only such line is blank); for a limit that is not negative the
    list has at most that many elements, and at most 5 without a limit. *)
Theorem toGithubSuggestions_shape (diff : string) (maxSuggestions : option Z) :
  Forall (well_formed (split_char LF diff)) (toGithubSuggestions diff maxSuggestions)
  /\ (forall n, maxSuggestions = Some n -> 0 <= n ->
        Z.of_nat (List.length (toGithubSuggestions diff maxSuggestions)) <= n)
  /\ (maxSuggestions = None ->
        Z.of_nat (List.length (toGithubSuggestions diff maxSuggestions)) <= 5).
Proof.
  unfold toGithubSuggestions. split; [| split].
  - apply Forall_forall. intros s Hs. apply slice0_incl in Hs.
    pose proof (invariant_flush _ _
                  (invariant_run (split_char LF diff) (split_char LF diff) init
                     (incl_refl _) (invariant_init _))) as [H _ _].
    rewrite Forall_forall in H. apply H, Hs.
  - intros n -> Hn. apply slice0_length, Hn.
  - intros ->. apply slice0_length. lia.
Qed.

(** The test of diff.test.ts and a diff that adds one blank line. *)
Definition test_header : list string :=
  [ "diff --git a/src/index.ts b/src/index.ts";
    "index abc123..def456 100644";
    "--- a/src/index.ts";
    "+++ b/src/index.ts";
    "@@ -8,3 +8,4 @@ export function main() {";
    "   doThing();" ].

Definition test_block : list string :=
  [ "-  return false;"; "+  const safe = true;"; "+  return safe;" ].

Definition blank_line_diff : string :=
  join newline [ "diff --git a/notes.txt b/notes.txt"; "@@ -1,1 +1,2 @@"; " first"; "+" ].

Lemma suggestion_blocks_witness :
  suggestions (run (run init test_header) (test_block ++ [" }"]))
  = [ {| filePath := "src/index.ts"; startLine := 8; endLine := 8;
         body := join newline ["  const safe = true;"; "  return safe;"] |} ]
  /\ pendingStart (run (run init test_header) (test_block ++ [" }"])) = None
  /\ pendingBody (run (run init test_header) (test_block ++ [" }"])) = [].
Proof.
  apply (suggestion_blocks (run init test_header) test_block " }").
  - reflexivity.
  - reflexivity.
  - constructor; [right; reflexivity |].
    constructor; [left; reflexivity |].
    constructor; [left; reflexivity | constructor].
  - right. right. reflexivity.
Defined.

(** A returned suggestion whose body is the empty string. *)
Lemma toGithubSuggestions_empty_body :
  toGithubSuggestions blank_line_diff None
  = [ {| filePath := "notes.txt"; startLine := 1; endLine := 1; body := "" |} ].
Proof. vm_compute. reflexivity. Qed.

End DiffShape.

(** ** Splitting a text at a character *)

Module SplitFacts.

(** The pieces of a text between the occurrences of [c]. *)
Definition pieces_of (c : ascii) (text : string) (pieces : list string) : Prop :=
  text = join (String c "") pieces /\ pieces <> [] /\
  Forall (fun p => ~ In c (chars p)) pieces.

Lemma str_app (a b : list ascii) : str (a ++ b) = str a ++ str b.
Proof.
  unfold str. induction a as [| x t IH]; cbn; [reflexivity |].
  rewrite IH. reflexivity.
Qed.

Lemma chars_concat (a b : string) : chars (a ++ b) = (chars a ++ chars b)%list.
Proof.
  unfold chars. induction a as [| x t IH]; cbn; [reflexivity |].
  rewrite IH. reflexivity.
Qed.

Lemma str_of_chars (s : string) : str (chars s) = s.
Proof. apply string_of_list_ascii_of_string. Qed.

Lemma chars_of_list (l : list ascii) : chars (str l) = l.
Proof. apply list_ascii_of_string_of_list_ascii. Qed.

Lemma split_aux_nonempty (c : ascii) (cur l : list ascii) :
  split_char_aux c cur l <> [].
Proof.
  revert cur. induction l as [| x t IH]; intro cur; cbn; [discriminate |].
  destruct (Ascii.eqb x c); [discriminate | apply IH].
Qed.

Lemma join_cons (sep x : string) (l : list string) :
  l <> [] -> join sep (x :: l) = x ++ sep ++ join sep l.
Proof. destruct l; [congruence | reflexivity]. Qed.

Lemma join_split_aux (c : ascii) (cur l : list ascii) :
  join (String c "") (split_char_aux c cur l) = str (rev cur ++ l).
Proof.
  revert cur. induction l as [| x t IH]; intro cur; cbn [split_char_aux].
  - rewrite app_nil_r. reflexivity.
  - destruct (Ascii.eqb_spec x c) as [-> | Hx].
    + rewrite join_cons by apply split_aux_nonempty.
      rewrite IH. cbn [rev app]. rewrite str_app. reflexivity.
    + rewrite IH. cbn [rev]. rewrite <- app_assoc. reflexivity.
Qed.

Lemma split_aux_free (c : ascii) (cur l : list ascii) :
  ~ In c cur ->
  Forall (fun s => ~ In c (chars s)) (split_char_aux c cur l).
Proof.
  revert cur. induction l as [| x t IH]; intros cur Hc; cbn [split_char_aux].
  - constructor; [| constructor]. rewrite chars_of_list, <- in_rev. exact Hc.
  - destruct (Ascii.eqb_spec x c) as [-> | Hx].
    + constructor; [rewrite chars_of_list, <- in_rev; exact Hc |].
      apply IH. intros [].
    + apply IH. intros [E | H]; [congruence | exact (Hc H)].
Qed.

Lemma split_aux_line (c : ascii) (cur l : list ascii) :
  ~ In c l -> split_char_aux c cur l = [str (rev cur ++ l)].
Proof.
  revert cur. induction l as [| x t IH]; intros cur Hl; cbn [split_char_aux].
  - rewrite app_nil_r. reflexivity.
  - destruct (Ascii.eqb_spec x c) as [-> | Hx].
    + exfalso. apply Hl. left. reflexivity.
    + rewrite IH by (intro H; apply Hl; right; exact H).
      cbn [rev]. rewrite <- app_assoc. reflexivity.
Qed.

Lemma split_aux_app (c : ascii) (cur a b : list ascii) :
  ~ In c a ->
  split_char_aux c cur (a ++ c :: b)
  = str (rev cur ++ a) :: split_char_aux c [] b.
Proof.
  revert cur. induction a as [| x t IH]; intros cur Ha; cbn [app split_char_aux].
  - rewrite Ascii.eqb_refl, app_nil_r. reflexivity.
  - destruct (Ascii.eqb_spec x c) as [-> | Hx].
    + exfalso. apply Ha. left. reflexivity.
    + rewrite IH by (intro H; apply Ha; right; exact H).
      cbn [rev]. rewrite <- app_assoc. reflexivity.
Qed.

Lemma split_join (c : ascii) (pieces : list string) :
  pieces <> [] -> Forall (fun p => ~ In c (chars p)) pieces ->
  split_char c (join (String c "") pieces) = pieces.
Proof.
  unfold split_char.
  induction pieces as [| x t IH]; [congruence |]. intros _ HF.
  inversion HF as [| ? ? Hx Ht]. subst.
  destruct t as [| y t'].
  - cbn [join String.concat]. rewrite split_aux_line by exact Hx.
    cbn [rev app]. rewrite str_of_chars. reflexivity.
  - rewrite join_cons by discriminate.
    rewrite chars_concat.
    change (chars (String c "" ++ join (String c "") (y :: t')))
      with (c :: chars (join (String c "") (y :: t'))).
    rewrite split_aux_app by exact Hx. cbn [rev app]. rewrite str_of_chars.
    f_equal. apply IH; [discriminate | exact Ht].
Qed.

Lemma pieces_of_split (c : ascii) (text : string) :
  pieces_of c text (split_char c text).
Proof.
  unfold pieces_of, split_char. split; [| split].
  - rewrite join_split_aux. cbn [rev app]. symmetry. apply str_of_chars.
  - apply split_aux_nonempty.
  - apply split_aux_free. intros [].
Qed.

Lemma pieces_of_unique (c : ascii) (text : string) (pieces : list string) :
  pieces_of c text pieces -> pieces = split_char c text.
Proof.
  intros [-> [Hne HF]]. symmetry. apply split_join; assumption.
Qed.

End SplitFacts.

(** ** diff.ts: the blocks of a whole text *)

Module DiffBlocks.

Import Diff DiffFacts.

(** *** The walk over the lines, in the claim's words *)










(** *** The lines of a text *)



(** *** The loop against the walk *)






(** A state with nothing pending. *)
Definition clean (sugg : list GithubSuggestion) (file_ : option string) (pos : Z)
  : State :=
  {| suggestions := sugg; currentFile := file_; newLine := pos;
     pendingStart := None; pendingBody := [] |}.

Definition pending (sugg : list GithubSuggestion) (file_ : option string) (pos : Z)
  (anchor : Z) (texts : list string) : State :=
  {| suggestions := sugg; currentFile := file_; newLine := pos;
     pendingStart := Some anchor; pendingBody := texts |}.



Lemma flush_is_clean (st : State) :
  exists sugg, flush st = clean sugg (currentFile st) (newLine st).
Proof.
  unfold flush, reset_pending, clean.
  destruct (currentFile st) as [f |], (pendingStart st), (pendingBody st);
    try destruct (is_empty f); eexists; reflexivity.
Qed.


Lemma flush_fields (st : State) :
  currentFile (flush st) = currentFile st /\ newLine (flush st) = newLine st.
Proof. destruct (flush_is_clean st) as [sugg ->]. split; reflexivity. Qed.














(** *** On concrete texts *)





End DiffBlocks.

(** ** White space, stated on the code units *)

Module StringSpec.

(** White space among the code units below 256. *)
Definition white (c : ascii) : Prop :=
  In (nat_of_ascii c) [9; 10; 11; 12; 13; 32; 160]%nat.

Definition white_b (c : ascii) : bool :=
  existsb (Nat.eqb (nat_of_ascii c)) [9; 10; 11; 12; 13; 32; 160]%nat.

Lemma white_b_spec (c : ascii) : white_b c = true <-> white c.
Proof.
  unfold white_b, white. rewrite existsb_exists. split.
  - intros [n [Hn E]]. apply Nat.eqb_eq in E. subst. exact Hn.
  - intro H. exists (nat_of_ascii c). split; [exact H | apply Nat.eqb_refl].
Qed.

Lemma white_b_is_space (c : ascii) : white_b c = is_space c.
Proof.
  destruct c as [[] [] [] [] [] [] [] []]; vm_compute; reflexivity.
Qed.

Lemma is_space_white (c : ascii) : is_space c = true <-> white c.
Proof. rewrite <- white_b_is_space. apply white_b_spec. Qed.

End StringSpec.

(** ** chatops.ts *)

Module ChatOpsFacts.

Import ChatOps StringSpec.

Definition newline : string := String LF "".

(** The string has a character that is not white space. *)
Definition visible (s : string) : Prop :=
  exists c, In c (chars s) /\ ~ white c.

Lemma visible_existsb (s : string) :
  visible s -> existsb (fun c => negb (is_space c)) (chars s) = true.
Proof.
  intros [c [Hc Hw]]. apply existsb_exists. exists c. split; [exact Hc |].
  destruct (is_space c) eqn:E; [| reflexivity].
  exfalso. apply Hw, is_space_white, E.
Qed.

Lemma chars_app (a b : string) : chars (a ++ b) = (chars a ++ chars b)%list.
Proof.
  unfold chars. induction a as [| c a IH]; cbn; [reflexivity |].
  rewrite IH. reflexivity.
Qed.

Lemma chars_str (l : list ascii) : chars (str l) = l.
Proof. apply list_ascii_of_string_of_list_ascii. Qed.

Lemma drop_while_visible (l1 l2 : list ascii) :
  existsb (fun c => negb (is_space c)) l1 = true ->
  drop_while is_space (l1 ++ l2) = (drop_while is_space l1 ++ l2)%list.
Proof.
  induction l1 as [| c t IH]; cbn [existsb app drop_while]; [discriminate |].
  destruct (is_space c); cbn [negb orb]; [exact IH | reflexivity].
Qed.

Lemma drop_while_keeps_visible (l : list ascii) :
  existsb (fun c => negb (is_space c)) l = true ->
  existsb (fun c => negb (is_space c)) (drop_while is_space l) = true.
Proof.
  induction l as [| c t IH]; cbn [existsb drop_while]; [discriminate |].
  destruct (is_space c) eqn:E; cbn [negb orb]; [exact IH |].
  intros _. cbn [existsb]. rewrite E. reflexivity.
Qed.

Lemma existsb_rev {A : Type} (p : A -> bool) (l : list A) :
  existsb p (rev l) = existsb p l.
Proof.
  induction l as [| x t IH]; [reflexivity |].
  cbn [rev existsb]. rewrite existsb_app, IH. cbn [existsb].
  rewrite orb_false_r. apply orb_comm.
Qed.

(** A newline between two visible characters survives [trim]. *)
Lemma trim_keeps_inner (a b : list ascii) (c : ascii) :
  existsb (fun c => negb (is_space c)) a = true ->
  existsb (fun c => negb (is_space c)) b = true ->
  exists a' b', trim_chars (a ++ c :: b) = (a' ++ c :: b')%list.
Proof.
  intros Ha Hb. unfold trim_chars.
  rewrite (drop_while_visible a (c :: b) Ha).
  rewrite rev_app_distr. cbn [rev]. rewrite <- app_assoc. cbn [app].
  rewrite drop_while_visible by (rewrite existsb_rev; exact Hb).
  rewrite rev_app_distr. cbn [rev]. rewrite rev_involutive, <- app_assoc.
  eexists _, _. reflexivity.
Qed.

Lemma includes_char (x y : list ascii) (c : ascii) :
  includes (str (x ++ c :: y)) (String c "") = true.
Proof.
  induction x as [| d t IH]; cbn [app str string_of_list_ascii includes].
  - cbn [String.prefix]. destruct (Ascii.ascii_dec c c); [| congruence].
    destruct (string_of_list_ascii y); reflexivity.
  - fold (str (t ++ c :: y)). rewrite IH. apply orb_true_r.
Qed.

Lemma embedded_newline_rejected (a b : string) :
  visible a -> visible b -> parseChatOpsCommand (a ++ newline ++ b) = None.
Proof.
  intros Ha Hb. apply visible_existsb in Ha, Hb.
  unfold parseChatOpsCommand, trim.
  rewrite !chars_app. cbn [chars list_ascii_of_string newline app].
  fold (chars b).
  destruct (trim_keeps_inner (chars a) (chars b) LF Ha Hb) as [a' [b' ->]].
  rewrite (includes_char a' b' LF).
  destruct (negb (startsWith (str (a' ++ LF :: b')) "/codex ")); reflexivity.
Qed.

(** C8: "/codex rerun" is a rerun of scope all, "/codex patch finding_42"
    is a patch of finding_42, and every body with a newline between two
    visible characters, such as "/codex stop" + newline + "rm -rf /", is
    rejected.  A character is visible when it is not white space, that is
    none of TAB, LF, VT, FF, CR, SPACE and NO-BREAK SPACE. *)
Theorem parseChatOpsCommand_scenarios :
  parseChatOpsCommand "/codex rerun" = Some (Rerun scope_all) /\
  parseChatOpsCommand "/codex patch finding_42" = Some (Patch "finding_42") /\
  parseChatOpsCommand ("/codex stop" ++ newline ++ "rm -rf /") = None /\
  (forall a b : string,
      visible a -> visible b -> parseChatOpsCommand (a ++ newline ++ b) = None).
Proof.
  split; [vm_compute; reflexivity |].
  split; [vm_compute; reflexivity |].
  split; [vm_compute; reflexivity |].
  exact embedded_newline_rejected.
Qed.

(** A newline at the end of the body is trimmed away and is not embedded. *)
Lemma trailing_newline_trimmed :
  parseChatOpsCommand ("/codex stop" ++ newline) = Some Stop.
Proof. vm_compute. reflexivity. Qed.

(** So is a newline followed by white space only, here a NO-BREAK SPACE. *)
Lemma trailing_no_break_space_trimmed :
  parseChatOpsCommand ("/codex stop" ++ newline ++ String (ascii_of_nat 160) "")
  = Some Stop.
Proof. vm_compute. reflexivity. Qed.

Lemma parseChatOpsCommand_scenarios_witness :
  parseChatOpsCommand ("/codex rerun" ++ newline ++ "/codex stop") = None.
Proof.
  apply (proj2 (proj2 (proj2 parseChatOpsCommand_scenarios)));
    exists "/"%char; (split; [left; reflexivity |]);
    vm_compute; intuition discriminate.
Defined.

End ChatOpsFacts.

(** ** jsonrpc.ts *)

Module JsonRpcFacts.

Import JsonRpc.

(** C6, as the code has it: for a request whose params are present and are
    a JSON value (one that [JSON.stringify] and [JSON.parse] give back
    unchanged), parsing the encoded request succeeds and the message carries
    the method and the params.  The first hypothesis is the contract of the
    two builtins on the request object. *)
Theorem request_round_trip
  (JSON_stringify : json -> string) (JSON_parse : string -> option json)
  (id : number) (method : string) (params : json) :
  JSON_parse (JSON_stringify (request_object id method (Some params)))
  = Some (json_image (request_object id method (Some params))) ->
  json_image params = params ->
  exists message,
    parseJsonRpcMessage JSON_parse
      (encodeJsonRpcRequest JSON_stringify id method (Some params))
    = Returned message /\
    prop message "method" = Some (JStr method) /\
    prop message "params" = Some params.
Proof.
  intros Hcodec Hparams.
  unfold parseJsonRpcMessage, encodeJsonRpcRequest. rewrite Hcodec.
  cbn [request_object defined_props json_image map fst snd].
  rewrite Hparams.
  destruct (is_finite id); eexists; repeat split; reflexivity.
Qed.

Definition sample_params : json := JObj [("threadId", JStr "t1")].

Lemma request_round_trip_witness :
  exists message,
    parseJsonRpcMessage Reference.JSON_parse
      (encodeJsonRpcRequest Reference.JSON_stringify (num 7) "turn/start"
         (Some sample_params))
    = Returned message /\
    prop message "method" = Some (JStr "turn/start") /\
    prop message "params" = Some sample_params.
Proof.
  apply (request_round_trip Reference.JSON_stringify Reference.JSON_parse
           (num 7) "turn/start" sample_params).
  - vm_compute. reflexivity.
  - reflexivity.
Defined.

(** A request without params: the encoded text has no "params" member and
    the parser refuses it. *)
Lemma request_without_params_rejected :
  parseJsonRpcMessage Reference.JSON_parse
    (encodeJsonRpcRequest Reference.JSON_stringify (num 1) "initialize" None)
  = Thrown "Invalid JSON-RPC message shape".
Proof. vm_compute. reflexivity. Qed.

End JsonRpcFacts.

(** ** client.ts *)

Module ClientFacts.

Import Client.

Definition exit_reason (code : option Z) (signal : option string) : string :=
  "codex app-server exited (code=" ++ or_null (option_map Z_toString code)
    ++ ", signal=" ++ or_null signal ++ ")".

Definition waiter_reason (key : string) : string :=
  "Turn waiter canceled (" ++ key ++ ")".

Lemma failAllPending_spec (reason : string) (st : State) :
  let st' := fst (failAllPending reason st) in
  let effects := snd (failAllPending reason st) in
  pendingResponses st' = [] /\ turnWaiters st' = [] /\ child st' = child st /\
  (forall id p, In (id, p) (pendingResponses st) -> In (RejectRequest id reason) effects) /\
  (forall key w, In (key, w) (turnWaiters st) ->
     In (ClearTimeout (timer w)) effects /\ In (RejectTurn key (waiter_reason key)) effects) /\
  (forall bin args, ~ In (Spawn bin args) effects).
Proof.
  cbn zeta. unfold failAllPending. cbn [fst snd with_tables pendingResponses turnWaiters child].
  repeat split.
  - intros id p Hin. apply in_or_app. left.
    apply in_map_iff. exists (id, p). auto.
  - apply in_or_app. right. apply in_flat_map. exists (key, w).
    split; [assumption | left; reflexivity].
  - apply in_or_app. right. apply in_flat_map. exists (key, w).
    split; [assumption | right; right; left; reflexivity].
  - intros bin args Hin. apply in_app_or in Hin. destruct Hin as [Hin | Hin].
    + apply in_map_iff in Hin. destruct Hin as [? [E _]]. discriminate.
    + apply in_flat_map in Hin. destruct Hin as [? [_ [E | [E | [E | []]]]]]; discriminate.
Qed.

(** C7: when the subprocess exits, with any code or signal and so with a
    nonzero code or a signal, the exit listener rejects every pending
    request with the exit message and every turn waiter with its
    cancellation message (clearing its timer), empties both tables, and
    spawns nothing; the child handle stays, so that a later [start] spawns
    nothing either. *)
Theorem exit_fails_all_pending (code : option Z) (signal : option string) (st : State) :
  let st' := fst (on_exit code signal st) in
  let effects := snd (on_exit code signal st) in
  pendingResponses st' = [] /\ turnWaiters st' = [] /\
  (forall id p, In (id, p) (pendingResponses st) ->
     In (RejectRequest id (exit_reason code signal)) effects) /\
  (forall key w, In (key, w) (turnWaiters st) ->
     In (ClearTimeout (timer w)) effects /\
     In (RejectTurn key (waiter_reason key)) effects) /\
  (forall bin args, ~ In (Spawn bin args) effects) /\
  child st' = child st /\
  (child st <> None -> start st' = (st', [])).
Proof.
  cbn zeta. unfold on_exit. fold (exit_reason code signal).
  pose proof (failAllPending_spec (exit_reason code signal) st) as H.
  cbn zeta in H.
  destruct (failAllPending (exit_reason code signal) st) as [st' effects].
  cbn [fst snd] in *.
  destruct H as [Hp [Hw [Hc [Hrej [Hturn Hspawn]]]]].
  repeat split; auto.
  - intros id p Hin. apply in_or_app. left. eapply Hrej, Hin.
  - apply in_or_app. left. eapply Hturn; eassumption.
  - apply in_or_app. left. eapply Hturn; eassumption.
  - intros bin args Hin. apply in_app_or in Hin. destruct Hin as [Hin | [E | []]].
    + exact (Hspawn _ _ Hin).
    + discriminate.
  - intro Hchild. unfold start. rewrite Hc.
    destruct (child st); [reflexivity | congruence].
Qed.

End ClientFacts.

(** ** orchestrator.ts: explain_finding *)

Module ExplainFacts.

Import Orchestrator.

Section Jobs.

Variable World : Type.
Variable store : RunStore World.
Variable github : GitHubService World.
Variable String_of : json -> string.
Variable runPullRequest : Z -> M World unit.
Variable cancelRun : Z -> option string -> M World unit.
Variable renderPatchComment : string -> string -> list Diff.GithubSuggestion -> string.

Local Abbreviation handle :=
  (handleJob World store github String_of runPullRequest cancelRun renderPatchComment).

(** C5, as the code has it.  For an explain_finding job: when the run
    exists and the finding is missing, the job is exactly the posting of the
    not-found comment on the run's pull request; when the run itself is
    missing, the job returns without posting anything; and the job throws
    only what one of its three collaborator calls throws. *)
Theorem explain_finding_not_found (runId : Z) (findingId : string) (w : World) :
  (forall run w1 w2,
      getRunWithRepo store runId w = (Returned (Some run), w1) ->
      getFinding store runId findingId w1 = (Returned None, w2) ->
      handle (explain_finding runId findingId) w
      = createIssueComment github (context_of run) (run_prNumber run)
          (not_found_comment runId findingId) w2) /\
  (forall w1,
      getRunWithRepo store runId w = (Returned None, w1) ->
      handle (explain_finding runId findingId) w = (Returned tt, w1)) /\
  (forall e w',
      handle (explain_finding runId findingId) w = (Thrown e, w') ->
      getRunWithRepo store runId w = (Thrown e, w') \/
      exists run w1,
        getRunWithRepo store runId w = (Returned (Some run), w1) /\
        (getFinding store runId findingId w1 = (Thrown e, w') \/
         exists finding w2 body,
           getFinding store runId findingId w1 = (Returned finding, w2) /\
           createIssueComment github (context_of run) (run_prNumber run) body w2
           = (Thrown e, w'))).
Proof.
  cbn [handleJob]. unfold explainFinding, bind, ret.
  split; [| split].
  - intros run w1 w2 Hrun Hfinding. rewrite Hrun, Hfinding. reflexivity.
  - intros w1 Hrun. rewrite Hrun. reflexivity.
  - intros e w'.
    destruct (getRunWithRepo store runId w) as [[[run |] | e0] w1] eqn:Hrun.
    + destruct (getFinding store runId findingId w1) as [[[finding |] | e1] w2] eqn:Hf.
      * intro H. right. exists run, w1. split; [reflexivity |]. right.
        exists (Some finding), w2. eexists. split; [exact Hf | exact H].
      * intro H. right. exists run, w1. split; [reflexivity |]. right.
        exists None, w2. eexists. split; [exact Hf | exact H].
      * intro H. right. exists run, w1. split; [reflexivity |]. left.
        rewrite Hf. inversion H. reflexivity.
    + discriminate.
    + intro H. left. inversion H. reflexivity.
Qed.

End Jobs.

(** A run with no findings, and a world with no run at all. *)
Definition sample_run : RunWithRepo :=
  {| run_id := 7;
     run_repo := {| owner := "acme"; name := "api"; installationId := 99 |};
     run_prNumber := 42 |}.

Definition world_with_run : Reference.World :=
  {| Reference.runs := [sample_run]; Reference.findings := [];
     Reference.patches := []; Reference.comments := [] |}.

Definition empty_world : Reference.World :=
  {| Reference.runs := []; Reference.findings := [];
     Reference.patches := []; Reference.comments := [] |}.

Definition handle_reference : QueueJobPayload -> M Reference.World unit :=
  handleJob Reference.World Reference.store Reference.github
    (fun _ => "") (fun _ => ret tt)
    (fun _ _ => ret tt) (fun _ _ _ => "").

Lemma explain_finding_not_found_witness :
  handle_reference (explain_finding 7 "finding_42") world_with_run
  = (Returned tt,
     {| Reference.runs := [sample_run]; Reference.findings := [];
        Reference.patches := [];
        Reference.comments :=
          [ ({| ctx_owner := "acme"; ctx_repo := "api"; ctx_installationId := 99 |},
             42, "No finding found for id `finding_42` in run 7.") ] |}).
Proof.
  apply (proj1 (explain_finding_not_found Reference.World Reference.store
                  Reference.github (fun _ => "") (fun _ => ret tt)
                  (fun _ _ => ret tt) (fun _ _ _ => "")
                  7 "finding_42" world_with_run)
           sample_run world_with_run world_with_run);
    reflexivity.
Defined.

(** An explain_finding job for a run that does not exist: nothing is
    posted. *)
Lemma explain_missing_run_posts_nothing :
  Reference.runs empty_world = [] /\
  handle_reference (explain_finding 7 "finding_42") empty_world
  = (Returned tt, empty_world) /\
  Reference.comments
    (snd (handle_reference (explain_finding 7 "finding_42") empty_world)) = [].
Proof. repeat split. Qed.

End ExplainFacts.

(** ** orchestrator.ts: normalised findings *)

Module NormalizeFacts.

Import Findings Orchestrator NumberFacts FindingsFacts DedupeFacts StringSpec.

(** No NaN anywhere in the value: what [JSON.parse] returns. *)
Fixpoint nan_free (v : json) : bool :=
  match v with
  | JNum n => negb (Number_isNaN n)
  | JArr items => forallb nan_free items
  | JObj fields => forallb (fun kv => nan_free (snd kv)) fields
  | _ => true
  end.

(** The trimmed text of a string property; empty when the property is
    missing or is not a string. *)
Definition text (c : json) (k : string) : string :=
  match prop c k with Some (JStr s) => trim s | _ => "" end.






Lemma is_empty_false (s : string) : is_empty s = false <-> s <> "".
Proof. destruct s; cbn; split; congruence. Qed.


Lemma Qfloor_qz (z : Z) : Qfloor (qz z) = z.
Proof.
  unfold qz. cbn [this Q2Qc]. rewrite (Qfloor_comp _ _ (Qred_correct _)).
  apply Qfloor_Z.
Qed.



Lemma max_either (a b : number) :
  a <> NaN -> b <> NaN -> Math_max a b = a \/ Math_max a b = b.
Proof.
  destruct a, b; cbn; auto; try congruence.
  intros _ _. destruct (Qcmax_cases q q0) as [[-> _] | [-> _]]; auto.
Qed.


Lemma floor_not_nan (n : number) : n <> NaN -> Math_floor n <> NaN.
Proof. destruct n; cbn [Math_floor]; unfold num; congruence. Qed.


Lemma max_not_nan (a b : number) : a <> NaN -> b <> NaN -> Math_max a b <> NaN.
Proof.
  intros Ha Hb. destruct (max_either a b Ha Hb) as [-> | ->]; assumption.
Qed.



Lemma nan_free_prop (c : json) (k : string) (n : number) :
  nan_free c = true -> prop c k = Some (JNum n) -> n <> NaN.
Proof.
  destruct c as [| ? | ? | ? | ? | fields]; cbn [prop]; try discriminate.
  cbn [nan_free]. induction fields as [| [k' v] t IH]; cbn [obj_get forallb snd];
    [discriminate |].
  intro H. apply andb_true_iff in H. destruct H as [Hv Ht].
  destruct (String.eqb k' k).
  - intro E. inversion E. subst v. cbn in Hv. intros ->. discriminate.
  - apply IH, Ht.
Qed.







(** *** The claim's words, stated without the code *)

Definition blank (s : string) : Prop := Forall white (chars s).

(** [t] is [s] without the white space at its two ends. *)
Definition trimmed_of (s t : string) : Prop :=
  exists a b,
    chars s = (a ++ chars t ++ b)%list /\ Forall white a /\ Forall white b /\
    (forall c u, chars t = c :: u -> ~ white c) /\
    (forall u c, chars t = (u ++ [c])%list -> ~ white c).

Definition string_at (c : json) (k : string) : option string :=
  match prop c k with Some (JStr s) => Some s | _ => None end.

Definition number_at (c : json) (k : string) : option number :=
  match prop c k with Some (JNum n) => Some n | _ => None end.



(** The order of the numbers with the two infinities. *)
Definition ext_le (a b : number) : Prop :=
  match a, b with
  | NaN, _ | _, NaN => False
  | NegInf, _ => True
  | _, PosInf => True
  | Fin x, Fin y => (x <= y)%Qc
  | _, _ => False
  end.

(** [f] is [n] rounded down to a whole number. *)
Definition is_floor (n f : number) : Prop :=
  match n with
  | Fin q => exists z : Z,
      f = Fin (Q2Qc (inject_Z z)) /\
      (inject_Z z <= q)%Q /\ (q < inject_Z (z + 1))%Q
  | other => f = other
  end.

(** [m] is the larger of [a] and [b]. *)
Definition is_max (a b m : number) : Prop :=
  (m = a \/ m = b) /\ ext_le a m /\ ext_le b m.

(** The finding [r] is what the claim makes of the candidate [c]. *)
Record normalized_from (c : json) (r : NormalizedFinding) : Prop := {
  nf_title : exists s, string_at c "title" = Some s /\ trimmed_of s (n_title r);
  nf_file : exists s, string_at c "file" = Some s /\ trimmed_of s (n_file r);
  nf_issueKey :
    match string_at c "issueKey" with
    | Some s => trimmed_of s (n_issueKey r)
    | None => chars (n_issueKey r) = firstn 64 (chars (n_title r))
    end;
  nf_confidence :
    exists q, n_confidence r = Fin q /\
      clamp_of (match number_at c "confidence" with
                | Some n => n | None => Fin 0%Qc end) q;
  nf_startLine :
    match number_at c "startLine" with
    | Some n => exists f, is_floor n f /\ is_max (Fin 1%Qc) f (n_startLine r)
    | None => n_startLine r = Fin 1%Qc
    end;
  nf_endLine :
    match number_at c "endLine" with
    | Some n => exists f, is_floor n f /\ is_max (n_startLine r) f (n_endLine r)
    | None => n_endLine r = n_startLine r
    end
}.

(** *** The code against these words *)

Lemma drop_while_split (l : list ascii) :
  exists a, l = (a ++ drop_while is_space l)%list /\ Forall white a /\
            (forall c u, drop_while is_space l = c :: u -> ~ white c).
Proof.
  induction l as [| x t IH]; cbn [drop_while].
  - exists []. repeat split; [constructor | discriminate].
  - destruct (is_space x) eqn:E.
    + destruct IH as [a [Ea [Wa Ha]]]. exists (x :: a).
      split; [cbn; congruence |]. split; [| exact Ha].
      constructor; [apply is_space_white, E | exact Wa].
    + exists []. split; [reflexivity |]. split; [constructor |].
      intros c u H. inversion H. subst. rewrite <- is_space_white. congruence.
Qed.

Lemma trim_chars_split (l : list ascii) :
  exists a b,
    l = (a ++ trim_chars l ++ b)%list /\ Forall white a /\ Forall white b /\
    (forall c u, trim_chars l = c :: u -> ~ white c) /\
    (forall u c, trim_chars l = (u ++ [c])%list -> ~ white c).
Proof.
  unfold trim_chars.
  destruct (drop_while_split l) as [a [Ea [Wa Ha]]].
  set (m := drop_while is_space l) in *.
  destruct (drop_while_split (rev m)) as [b [Eb [Wb Hb]]].
  set (m' := drop_while is_space (rev m)) in *.
  assert (Em : m = (rev m' ++ rev b)%list).
  { rewrite <- rev_app_distr, <- Eb, rev_involutive. reflexivity. }
  exists a, (rev b). split; [rewrite <- Em; exact Ea |].
  split; [exact Wa |]. split; [apply Forall_rev, Wb |]. split.
  - intros c u H. apply (Ha c (u ++ rev b)%list). rewrite Em, H. reflexivity.
  - intros u c H. apply (Hb c (rev u)).
    rewrite <- (rev_involutive m'), H, rev_app_distr. reflexivity.
Qed.

Lemma trimmed_of_trim (s : string) : trimmed_of s (trim s).
Proof.
  unfold trimmed_of, trim. rewrite ChatOpsFacts.chars_str.
  apply trim_chars_split.
Qed.



Lemma chars_slice_to (n : nat) (s : string) :
  chars (slice_to n s) = firstn n (chars s).
Proof.
  revert s. induction n as [| n IH]; intros [| c t]; cbn; try reflexivity.
  f_equal. apply IH.
Qed.

Lemma floor_is_floor (n : number) : is_floor n (Math_floor n).
Proof.
  destruct n as [| | q |]; cbn; try reflexivity.
  exists (Qfloor q). split; [reflexivity |].
  split; [apply Qfloor_le | apply Qlt_floor].
Qed.

Lemma ext_le_refl (a : number) : a <> NaN -> ext_le a a.
Proof. destruct a; cbn; try congruence; auto. intros _. apply Qcle_refl. Qed.

Lemma max_is_max (a b : number) :
  a <> NaN -> b <> NaN -> is_max a b (Math_max a b).
Proof.
  destruct a as [| | x |], b as [| | y |]; intros Ha Hb; try congruence;
    unfold is_max; cbn [Math_max ext_le]; try (repeat split; auto; fail).
  - repeat split; auto. apply Qcle_refl.
  - repeat split; auto. apply Qcle_refl.
  - destruct (Qcmax_cases x y) as [[-> L] | [-> L]];
      repeat split; auto; apply Qcle_refl.
Qed.

Lemma clamp01_clamp_of (v : number) :
  exists q, clamp01 v = Fin q /\ clamp_of v q.
Proof.
  exists (ScoreSpec.clamp01 v). split; [| apply clamp_of_clamp01].
  rewrite clamp01_clampConfidence. apply clampConfidence_spec.
Qed.


Lemma normalized (c : json) (r : NormalizedFinding) :
  nan_free c = true -> toNormalizedFinding c = Some r -> normalized_from c r.
Proof.
  intros Hc. unfold toNormalizedFinding.
  destruct c as [| ? | ? | ? | items | fields]; try discriminate.
  cbv beta match delta [prop].
  destruct (is_empty _ || is_empty _ || is_empty _) eqn:E; [discriminate |].
  apply orb_false_iff in E. destruct E as [E E3].
  apply orb_false_iff in E. destruct E as [E1 E2].
  apply is_empty_false in E1, E2.
  intro H.
  apply (f_equal (fun o => match o with Some x => x | None => r end)) in H.
  cbv beta match in H. subst r.
  assert (H1 : Fin 1%Qc <> NaN) by discriminate.
  assert (Hnan : forall k n, obj_get fields k = Some (JNum n) -> Math_floor n <> NaN).
  { intros k n En. apply floor_not_nan, (nan_free_prop (JObj fields) k n Hc En). }
  assert (Hstart : match obj_get fields "startLine" with
                   | Some (JNum n) => Math_max (num 1) (Math_floor n)
                   | _ => num 1
                   end <> NaN).
  { destruct (obj_get fields "startLine") as [[| ? | n | ? | ? | ?] |] eqn:En;
      try exact H1.
    apply max_not_nan; [exact H1 | apply (Hnan _ _ En)]. }
  constructor; unfold string_at, number_at;
    cbv beta match delta
      [prop n_title n_file n_issueKey n_confidence n_startLine n_endLine].
  - destruct (obj_get fields "title") as [[| ? | ? | s | ? | ?] |]; try congruence.
    exists s. split; [reflexivity | apply trimmed_of_trim].
  - destruct (obj_get fields "file") as [[| ? | ? | s | ? | ?] |]; try congruence.
    exists s. split; [reflexivity | apply trimmed_of_trim].
  - destruct (obj_get fields "issueKey") as [[| ? | ? | s | ? | ?] |];
      cbv beta match; try apply chars_slice_to.
    apply trimmed_of_trim.
  - destruct (obj_get fields "confidence") as [[| ? | n | ? | ? | ?] |];
      cbv beta match; apply clamp01_clamp_of.
  - destruct (obj_get fields "startLine") as [[| ? | n | ? | ? | ?] |] eqn:En;
      cbv beta match; try reflexivity.
    exists (Math_floor n). split; [apply floor_is_floor |].
    apply (max_is_max (num 1)); [exact H1 | apply (Hnan _ _ En)].
  - destruct (obj_get fields "endLine") as [[| ? | n | ? | ? | ?] |] eqn:En;
      cbv beta match; try reflexivity.
    exists (Math_floor n). split; [apply floor_is_floor |].
    apply max_is_max; [exact Hstart | apply (Hnan _ _ En)].
Qed.

Section Parsing.

Variable JSON_parse : string -> option json.



End Parsing.

End NormalizeFacts.

Module NormalizeExamples.

Import Findings Orchestrator NormalizeFacts.

(** A candidate with a title and a file and no issue key. *)
Definition keyless_candidate : json :=
  JObj [ ("title", JStr "Null dereference"); ("file", JStr "src/a.ts") ].

(** An answer the way a persona gives it: prose around one JSON object. *)
Definition sample_answer : string :=
  "Here are the findings: "
  ++ Reference.JSON_stringify
       (JObj [ ("findings",
                JArr [ JObj [ ("title", JStr " Null dereference ");
                              ("file", JStr "src/a.ts");
                              ("issueKey", JStr "null-deref");
                              ("confidence", JNum (Fin (qfrac 3 2)));
                              ("startLine", JNum (num 0));
                              ("endLine", JNum (Fin (qfrac (-5) 2))) ];
                       keyless_candidate;
                       JObj [ ("title", JStr "  "); ("file", JStr "src/b.ts") ] ]) ])
  ++ " Let me know.".



Lemma sample_answer_findings :
  map (fun r => (n_title r, n_issueKey r))
    (parseNormalizedFindings Reference.JSON_parse sample_answer)
  = [ ("Null dereference", "null-deref"); ("Null dereference", "Null dereference") ].
Proof. vm_compute. reflexivity. Qed.

(** A title that is a single NO-BREAK SPACE is white space only: the
    candidate is dropped. *)
Lemma no_break_space_title_dropped :
  toNormalizedFinding
    (JObj [ ("title", JStr (String (ascii_of_nat 160) ""));
            ("file", JStr "src/a.ts"); ("issueKey", JStr "k") ])
  = None.
Proof. vm_compute. reflexivity. Qed.

End NormalizeExamples.

(* ================================================================== *)
(** * Further properties                                                *)
(* ================================================================== *)

(** ** Strings *)

Module StringFacts.

Lemma str_chars (s : string) : str (chars s) = s.
Proof. apply string_of_list_ascii_of_string. Qed.

Lemma chars_of_str (l : list ascii) : chars (str l) = l.
Proof. apply list_ascii_of_string_of_list_ascii. Qed.

Lemma chars_append (a b : string) : chars (a ++ b) = (chars a ++ chars b)%list.
Proof.
  unfold chars. induction a as [| c a IH]; cbn; [reflexivity |].
  rewrite IH. reflexivity.
Qed.

Lemma length_chars (s : string) : List.length (chars s) = String.length s.
Proof. induction s as [| c s IH]; cbn; [reflexivity | rewrite <- IH; reflexivity]. Qed.

(** The list does not begin with white space. *)
Definition starts_visible (l : list ascii) : Prop :=
  match l with [] => True | c :: _ => is_space c = false end.

(** Nothing for [trim] to remove. *)
Definition trimmed (l : list ascii) : Prop :=
  starts_visible l /\ starts_visible (rev l).

Lemma drop_while_starts_visible (l : list ascii) :
  starts_visible (drop_while is_space l).
Proof.
  induction l as [| c t IH]; cbn; [exact I |].
  destruct (is_space c) eqn:E; [exact IH | exact E].
Qed.

Lemma drop_while_fixed (l : list ascii) :
  starts_visible l -> drop_while is_space l = l.
Proof. destruct l as [| c t]; cbn; [reflexivity | intros ->; reflexivity]. Qed.

Lemma drop_while_suffix (l : list ascii) :
  exists spaces, l = (spaces ++ drop_while is_space l)%list
                 /\ forallb is_space spaces = true.
Proof.
  induction l as [| c t IH]; cbn.
  - exists []. split; reflexivity.
  - destruct (is_space c) eqn:E.
    + destruct IH as [sp [H1 H2]]. exists (c :: sp). cbn. rewrite E, <- H1. auto.
    + exists []. split; reflexivity.
Qed.

Lemma trim_chars_fixed (l : list ascii) : trimmed l -> trim_chars l = l.
Proof.
  intros [H1 H2]. unfold trim_chars.
  rewrite (drop_while_fixed l H1), (drop_while_fixed (rev l) H2).
  apply rev_involutive.
Qed.

Lemma starts_visible_app (a b : list ascii) :
  a <> [] -> starts_visible a -> starts_visible (a ++ b).
Proof. destruct a; cbn; [congruence | auto]. Qed.

Lemma trim_chars_trimmed (l : list ascii) : trimmed (trim_chars l).
Proof.
  unfold trim_chars, trimmed. rewrite rev_involutive.
  split; [| apply drop_while_starts_visible].
  pose proof (drop_while_starts_visible l) as Hv.
  set (a := drop_while is_space l) in *.
  destruct (drop_while_suffix (rev a)) as [sp [H1 H2]].
  set (b := drop_while is_space (rev a)) in *.
  assert (Ha : a = (rev b ++ rev sp)%list).
  { rewrite <- rev_app_distr, <- H1. symmetry. apply rev_involutive. }
  destruct (rev b) as [| c t] eqn:Eb; [exact I |].
  rewrite Ha in Hv. exact Hv.
Qed.

Lemma trim_chars_idempotent (l : list ascii) :
  trim_chars (trim_chars l) = trim_chars l.
Proof. apply trim_chars_fixed, trim_chars_trimmed. Qed.

Lemma trim_idempotent (s : string) : trim (trim s) = trim s.
Proof. unfold trim. rewrite chars_of_str, trim_chars_idempotent. reflexivity. Qed.

Lemma lower_space (c : ascii) : is_space (lower_char c) = is_space c.
Proof.
  destruct c as [[] [] [] [] [] [] [] []]; reflexivity.
Qed.

Lemma lower_idempotent (c : ascii) : lower_char (lower_char c) = lower_char c.
Proof.
  destruct c as [[] [] [] [] [] [] [] []]; reflexivity.
Qed.

Lemma drop_while_lower (l : list ascii) :
  drop_while is_space (map lower_char l) = map lower_char (drop_while is_space l).
Proof.
  induction l as [| c t IH]; cbn; [reflexivity |].
  rewrite lower_space. destruct (is_space c); [exact IH | reflexivity].
Qed.

Lemma trim_chars_lower (l : list ascii) :
  trim_chars (map lower_char l) = map lower_char (trim_chars l).
Proof.
  unfold trim_chars.
  rewrite drop_while_lower, <- map_rev, drop_while_lower, <- map_rev. reflexivity.
Qed.

Lemma toLowerCase_idempotent (s : string) : toLowerCase (toLowerCase s) = toLowerCase s.
Proof.
  unfold toLowerCase. rewrite chars_of_str, map_map. f_equal.
  apply map_ext. intro c. apply lower_idempotent.
Qed.

Lemma trim_toLowerCase (s : string) : trim (toLowerCase s) = toLowerCase (trim s).
Proof.
  unfold trim, toLowerCase. rewrite !chars_of_str, trim_chars_lower. reflexivity.
Qed.

(** The normal form of a file name or of an allowlist entry. *)
Lemma lower_trim_fixed (s : string) :
  toLowerCase (trim (toLowerCase (trim s))) = toLowerCase (trim s).
Proof.
  rewrite trim_toLowerCase, trim_idempotent. apply toLowerCase_idempotent.
Qed.

End StringFacts.

(** ** findings.ts: the dedupe key *)

Module DedupeKeyFacts.

Import Findings StringFacts NumberFacts.

Lemma collapse_idempotent (l : list ascii) (b : bool) :
  collapse_ws_chars b (collapse_ws_chars b l) = collapse_ws_chars b l.
Proof.
  revert b. induction l as [| x t IH]; intro b; [reflexivity |].
  cbn [collapse_ws_chars]. destruct (is_space x) eqn:E.
  - destruct b; [apply IH |].
    cbn [collapse_ws_chars]. change (is_space " "%char) with true. cbv iota.
    rewrite IH. reflexivity.
  - cbn [collapse_ws_chars]. rewrite E, IH. reflexivity.
Qed.

Lemma collapse_lower (l : list ascii) (b : bool) :
  map lower_char (collapse_ws_chars b l) = collapse_ws_chars b (map lower_char l).
Proof.
  revert b. induction l as [| x t IH]; intro b; [reflexivity |].
  cbn [collapse_ws_chars map]. rewrite lower_space.
  destruct (is_space x); [destruct b |]; cbn [map]; rewrite ?IH; reflexivity.
Qed.

Lemma collapse_snoc (l : list ascii) (c : ascii) (b : bool) :
  is_space c = false ->
  collapse_ws_chars b (l ++ [c]) = (collapse_ws_chars b l ++ [c])%list.
Proof.
  intro Hc. revert b. induction l as [| x t IH]; intro b; cbn [app collapse_ws_chars].
  - rewrite Hc. reflexivity.
  - destruct (is_space x); [destruct b |]; cbn [app]; rewrite ?IH; reflexivity.
Qed.

Lemma collapse_trimmed (l : list ascii) :
  trimmed l -> trimmed (collapse_ws_chars false l).
Proof.
  intros [H1 H2]. split.
  - destruct l as [| c t]; [exact I |]. cbn in H1. cbn [collapse_ws_chars].
    rewrite H1. exact H1.
  - destruct (rev l) as [| c r] eqn:E.
    + apply (f_equal (@rev ascii)) in E. rewrite rev_involutive in E. subst l. exact I.
    + apply (f_equal (@rev ascii)) in E. rewrite rev_involutive in E. cbn in E.
      subst l. cbn in H2. rewrite (collapse_snoc _ c false H2), rev_app_distr.
      exact H2.
Qed.

(** The normal form of an issue key: trimmed, lower case, single spaces. *)
Definition normal_issueKey (k : string) : string :=
  collapse_ws (toLowerCase (trim k)).

Lemma normal_issueKey_fixed (k : string) :
  normal_issueKey (normal_issueKey k) = normal_issueKey k.
Proof.
  unfold normal_issueKey, collapse_ws, toLowerCase, trim.
  rewrite !chars_of_str.
  set (y := map lower_char (trim_chars (chars k))).
  assert (Hy : trimmed y).
  { subst y. rewrite <- trim_chars_lower. apply trim_chars_trimmed. }
  assert (Hl : map lower_char y = y).
  { subst y. rewrite map_map. apply map_ext. intro c. apply lower_idempotent. }
  rewrite (trim_chars_fixed _ (collapse_trimmed y Hy)).
  rewrite collapse_lower, Hl, collapse_idempotent. reflexivity.
Qed.

Lemma Qcmax_same (x : Qc) : Qcmax x x = x.
Proof. unfold Qcmax. destruct (Qcltb x x); reflexivity. Qed.

Lemma max_one_idempotent (n : number) :
  Math_max (num 1) (Math_max (num 1) n) = Math_max (num 1) n.
Proof.
  destruct n as [| | q |]; unfold num; cbn [Math_max]; try reflexivity.
  f_equal. destruct (Qcmax_cases (qz 1) q) as [[E L] | [E L]]; rewrite E.
  - exact E.
  - apply Qcmax_same.
Qed.

Lemma slice_to_length (n : nat) (s : string) : (String.length (slice_to n s) <= n)%nat.
Proof.
  revert s. induction n as [| n IH]; intro s; [cbn; lia |].
  destruct s as [| c s]; cbn; [lia |]. specialize (IH s). lia.
Qed.

Section Runtime.

Variable sha256_hex : string -> string.
Variable Number_toString : number -> string.

Local Abbreviation buildDedupeKey := (Findings.buildDedupeKey sha256_hex Number_toString).

(** X1: The dedupe key has at most 16 characters, and it is the key of the
    normalised location: lower-casing and trimming the file, raising the
    lines to at least 1, and trimming, lower-casing and single-spacing the
    issue key beforehand changes nothing. *)
Theorem buildDedupeKey_normalises (file_ : string) (startLine_ endLine_ : number)
  (issueKey_ : string) :
  (String.length (buildDedupeKey file_ startLine_ endLine_ issueKey_) <= 16)%nat /\
  buildDedupeKey (toLowerCase (trim file_)) (Math_max (num 1) startLine_)
    (Math_max (num 1) endLine_) (normal_issueKey issueKey_)
  = buildDedupeKey file_ startLine_ endLine_ issueKey_.
Proof.
  split; [apply slice_to_length |].
  unfold Findings.buildDedupeKey.
  rewrite lower_trim_fixed, !max_one_idempotent.
  fold (normal_issueKey (normal_issueKey issueKey_)).
  rewrite normal_issueKey_fixed. reflexivity.
Qed.

End Runtime.

End DedupeKeyFacts.

(** ** findings.ts: what a merged record keeps, and the order of the output *)

Module MergeFacts.

Import Findings NumberFacts MapFacts SortFacts FindingsFacts DedupeFacts RankFacts.

(** The fields a merge never touches. *)
Definition same_identity (f g : Finding) : Prop :=
  id f = id g /\ repo f = repo g /\ prNumber f = prNumber g /\ role f = role g /\
  file f = file g /\ startLine f = startLine g /\ endLine f = endLine g /\
  issueKey f = issueKey g.

Lemma same_identity_refl (f : Finding) : same_identity f f.
Proof. repeat split. Qed.

Lemma same_identity_trans (f g h : Finding) :
  same_identity f g -> same_identity g h -> same_identity f h.
Proof.
  unfold same_identity. intros H1 H2.
  repeat match goal with H : _ /\ _ |- _ => destruct H end.
  repeat split; congruence.
Qed.

(** [t] is the first title of greatest length among [titles]. *)
Fixpoint longest_title (best : string) (titles : list string) : string :=
  match titles with
  | [] => best
  | t :: rest =>
      if (String.length t <=? String.length best)%nat then longest_title best rest
      else longest_title t rest
  end.

Lemma longest_title_spec (titles : list string) (best : string) :
  let t := longest_title best titles in
  In t (best :: titles) /\
  forall x, In x (best :: titles) -> (String.length x <= String.length t)%nat.
Proof.
  revert best. induction titles as [| u rest IH]; intro best; cbn zeta.
  - cbn. split; [auto |]. intros x [<- | []]. lia.
  - cbn [longest_title].
    destruct (Nat.leb_spec (String.length u) (String.length best)).
    + destruct (IH best) as [Hin Hmax]. split.
      * destruct Hin as [E | Hin]; [left; exact E | right; right; exact Hin].
      * intros x [<- | [<- | Hx]].
        -- apply Hmax. left. reflexivity.
        -- specialize (Hmax best (or_introl eq_refl)). lia.
        -- apply Hmax. right. exact Hx.
    + destruct (IH u) as [Hin Hmax]. split.
      * right. exact Hin.
      * intros x [<- | [<- | Hx]].
        -- specialize (Hmax u (or_introl eq_refl)). lia.
        -- apply Hmax. left. reflexivity.
        -- apply Hmax. right. exact Hx.
Qed.

Section Runtime.

Variable sha256_hex : string -> string.
Variable Number_toString : number -> string.
Variable localeCompare : string -> string -> Z.

Local Abbreviation key_of := (Findings.key_of sha256_hex Number_toString).
Local Abbreviation group_step := (Findings.group_step sha256_hex Number_toString).
Local Abbreviation dedupeFindings := (Findings.dedupeFindings sha256_hex Number_toString).
Local Abbreviation rankFindings :=
  (Findings.rankFindings sha256_hex Number_toString localeCompare).
Local Abbreviation topFindings :=
  (Findings.topFindings sha256_hex Number_toString localeCompare).
Local Abbreviation group := (DedupeFacts.group sha256_hex Number_toString).
Local Abbreviation absorb := (DedupeFacts.absorb).

(** Every record of the output is the scored fold of its group. *)
Lemma ranked_from_group (l : list Finding) (r : RankedFinding) :
  In r (rankFindings l) ->
  exists r0 first rest,
    r = with_score r0 /\
    group l (dedupeKey r) = first :: rest /\
    fold_left (absorb (dedupeKey r)) rest
      (Some (seed first (dedupeKey r) (clamped first))) = Some r0 /\
    merged_from (dedupeKey r) (first :: rest) r0.
Proof.
  intro Hr. unfold Findings.rankFindings in Hr.
  apply (Permutation_in _ (Array_sort_perm _ _)) in Hr.
  unfold Findings.dedupeFindings, map_values in Hr.
  rewrite map_map in Hr. apply in_map_iff in Hr.
  destruct Hr as [[k r0] [<- Hin]]. cbn [snd].
  destruct (grouped_entries sha256_hex Number_toString localeCompare l) as [Hnd [_ Hent]].
  pose proof (Hent k r0 Hin) as Hm.
  pose proof (in_map_get _ _ _ Hnd Hin) as Hget.
  rewrite map_get_fold in Hget. cbn [map_get] in Hget.
  change (dedupeKey (with_score r0)) with (dedupeKey r0).
  rewrite (mf_key _ _ _ Hm).
  destruct (group l k) as [| first rest] eqn:Eg; [discriminate |].
  exists r0, first, rest.
  split; [reflexivity | split; [reflexivity | split; [exact Hget | exact Hm]]].
Qed.

Lemma absorb_identity (k : string) (rest : list Finding) (c : RankedFinding) :
  exists r, fold_left (absorb k) rest (Some c) = Some r /\
            same_identity c r /\
            title r = longest_title (title c) (map title rest).
Proof.
  revert c. induction rest as [| f t IH]; intro c; cbn [fold_left map longest_title].
  - exists c. repeat split.
  - cbn [DedupeFacts.absorb].
    destruct (IH (merge c f (clamped f))) as [r [E [Hid Ht]]].
    exists r. split; [exact E | split].
    + eapply same_identity_trans; [| exact Hid]. repeat split.
    + rewrite Ht. cbn [merge base title].
      destruct (String.length (title f) <=? String.length (title c))%nat; reflexivity.
Qed.

(** X3: A merged record keeps the id, repo, PR number, role, file, lines and
    issue key of the first input with its dedupe key, and its title is the
    first longest title among the inputs with that key. *)
Theorem merged_record_keeps_first (l : list Finding) (r : RankedFinding) :
  In r (rankFindings l) ->
  exists first rest,
    group l (dedupeKey r) = first :: rest /\
    same_identity first r /\
    title r = longest_title (title first) (map title rest) /\
    In (title r) (map title (first :: rest)) /\
    forall f, In f (first :: rest) ->
              (String.length (title f) <= String.length (title r))%nat.
Proof.
  intro Hr.
  destruct (ranked_from_group l r Hr) as [r0 [first [rest [-> [Hg [Hfold _]]]]]].
  destruct (absorb_identity (dedupeKey (with_score r0)) rest
              (seed first (dedupeKey (with_score r0)) (clamped first)))
    as [r1 [E [Hid Ht]]].
  rewrite Hfold in E. inversion E. subst r1. clear E.
  exists first, rest. split; [exact Hg |].
  change (title (with_score r0)) with (title r0).
  cbn [title seed base] in Ht.
  split; [| split; [exact Ht |]].
  - destruct Hid as [H1 [H2 [H3 [H4 [H5 [H6 [H7 H8]]]]]]]. repeat split; assumption.
  - rewrite Ht.
    destruct (longest_title_spec (map title rest) (title first)) as [Hin Hmax].
    split; [exact Hin |].
    intros f Hf. apply Hmax. apply (in_map title) in Hf. exact Hf.
Qed.

(** The distinct keys in order of first appearance. *)
Fixpoint first_keys (seen : list string) (keys : list string) : list string :=
  match keys with
  | [] => rev seen
  | k :: t =>
      if existsb (String.eqb k) seen then first_keys seen t
      else first_keys (k :: seen) t
  end.

Lemma existsb_key (k : string) (seen : list string) :
  existsb (String.eqb k) seen = true <-> In k seen.
Proof.
  rewrite existsb_exists. split.
  - intros [x [Hx E]]. apply String.eqb_eq in E. subst. exact Hx.
  - intro H. exists k. split; [exact H | apply String.eqb_refl].
Qed.

Lemma fold_keys_order (l : list Finding) (m : list (string * RankedFinding)) :
  map fst (fold_left group_step l m) = first_keys (rev (map fst m)) (map key_of l).
Proof.
  revert m. induction l as [| f t IH]; intro m; cbn [fold_left map first_keys].
  - symmetry. apply rev_involutive.
  - rewrite IH.
    assert (Hk : map fst (group_step m f)
                 = if map_has String.eqb m (key_of f) then map fst m
                   else (map fst m ++ [key_of f])%list).
    { unfold Findings.group_step.
      destruct (map_get String.eqb m (key_of f)); apply map_set_keys. }
    rewrite Hk. unfold map_has.
    destruct (map_get String.eqb m (key_of f)) eqn:E.
    + assert (Hin : In (key_of f) (rev (map fst m))).
      { apply in_rev. rewrite rev_involutive.
        apply map_get_in in E. apply (in_map fst) in E. exact E. }
      rewrite (proj2 (existsb_key _ _) Hin). reflexivity.
    + apply map_get_none in E.
      destruct (existsb (String.eqb (key_of f)) (rev (map fst m))) eqn:Ex.
      * apply existsb_key in Ex. apply in_rev in Ex. contradiction.
      * rewrite rev_app_distr. reflexivity.
Qed.

(** X2: [dedupeFindings] lists one record per key, the keys in the order in
    which they first appear in the input. *)
Theorem dedupeFindings_keeps_first_order (l : list Finding) :
  map (fun r : RankedFinding => dedupeKey r) (dedupeFindings l)
  = first_keys [] (map key_of l).
Proof.
  rewrite (dedupe_keys _ _ localeCompare). apply (fold_keys_order l []).
Qed.

Lemma nodup_roles_length (roles : list ReviewRole) :
  NoDup roles -> (List.length roles <= 3)%nat.
Proof.
  intro H.
  apply (NoDup_incl_length H (l' := [correctness; security; maintainability])).
  intros [] _; cbn; auto.
Qed.

(** X4: Every record returned carries the score of its own merged fields, and
    between one and three supporting roles, its own role among them. *)
Theorem ranked_record_consistent (l : list Finding) (r : RankedFinding) :
  In r (rankFindings l) ->
  score r = rankScore (severity r) (confidence r) (supportingRoles r) (role r) /\
  In (role r) (supportingRoles r) /\
  (1 <= List.length (supportingRoles r) <= 3)%nat.
Proof.
  intro Hr.
  destruct (ranked_from_group l r Hr) as [r0 [first [rest [-> [Hg [Hfold Hm]]]]]].
  destruct (absorb_identity (dedupeKey (with_score r0)) rest
              (seed first (dedupeKey (with_score r0)) (clamped first)))
    as [r1 [E [Hid _]]].
  rewrite Hfold in E. inversion E. subst r1. clear E.
  destruct Hm as [_ _ _ _ _ Hroles Hnd].
  split; [reflexivity |].
  change (supportingRoles (with_score r0)) with (supportingRoles r0).
  change (role (with_score r0)) with (role r0).
  assert (Hown : In (role r0) (supportingRoles r0)).
  { apply Hroles. destruct Hid as [_ [_ [_ [Hrole _]]]].
    cbn [role seed base] in Hrole. rewrite <- Hrole. left. reflexivity. }
  split; [exact Hown |]. split.
  - destruct (supportingRoles r0); [destruct Hown | cbn; lia].
  - apply nodup_roles_length, Hnd.
Qed.

End Runtime.

End MergeFacts.

(** ** findings.ts: the ranking is sorted, and [topFindings] takes its head *)

Module RankOrderFacts.

Import Findings NumberFacts MapFacts SortFacts FindingsFacts DedupeFacts RankFacts.

(** [a < b] between finite numbers. *)
Definition num_lt (a b : number) : Prop :=
  exists x y, a = Fin x /\ b = Fin y /\ (x < y)%Qc.

Section Runtime.

Variable sha256_hex : string -> string.
Variable Number_toString : number -> string.
Variable localeCompare : string -> string -> Z.

Local Abbreviation key_of := (Findings.key_of sha256_hex Number_toString).
Local Abbreviation group_step := (Findings.group_step sha256_hex Number_toString).
Local Abbreviation dedupeFindings := (Findings.dedupeFindings sha256_hex Number_toString).
Local Abbreviation rankFindings :=
  (Findings.rankFindings sha256_hex Number_toString localeCompare).
Local Abbreviation topFindings :=
  (Findings.topFindings sha256_hex Number_toString localeCompare).
Local Abbreviation before := (SortFacts.before (rank_compare localeCompare)).

(** Higher score first; on equal scores higher confidence first; on equal
    confidence the id that collates first. *)
Definition ranked_before (x y : RankedFinding) : Prop :=
  num_lt (score y) (score x) \/
  (score x = score y /\
   (num_lt (confidence y) (confidence x) \/
    (confidence x = confidence y /\ localeCompare (id x) (id y) <= 0))).

(** Score and confidence are finite numbers. *)
Definition finite_keys (r : RankedFinding) : Prop :=
  exists s c, score r = Fin s /\ confidence r = Fin c.

Lemma deduped_finite (l : list Finding) (r : RankedFinding) :
  In r (dedupeFindings l) -> finite_keys r.
Proof.
  intro Hr. unfold Findings.dedupeFindings, map_values in Hr.
  rewrite map_map in Hr. apply in_map_iff in Hr.
  destruct Hr as [[k r0] [<- Hin]]. cbn [snd].
  destruct (grouped_entries sha256_hex Number_toString localeCompare l) as [_ [_ Hent]].
  pose proof (mf_conf_in _ _ _ (Hent k r0 Hin)) as Hc.
  apply in_map_iff in Hc. destruct Hc as [f [Ef _]].
  rewrite clamped_fin in Ef.
  destruct (rankScore_finite (severity r0) (confidence r0)
              (supportingRoles r0) (role r0)) as [s Es].
  exists s, (ScoreSpec.clamp01 (confidence f)). split.
  - exact Es.
  - symmetry. exact Ef.
Qed.

Lemma before_finite (x y : RankedFinding) :
  finite_keys x -> finite_keys y -> (before x y <-> ranked_before x y).
Proof.
  intros [sx [cx [Esx Ecx]]] [sy [cy [Esy Ecy]]].
  unfold SortFacts.before, rank_compare, ranked_before, num_lt.
  rewrite Esx, Ecx, Esy, Ecy.
  assert (Hlt : forall a b : Qc,
            (exists p q, Fin a = Fin p /\ Fin b = Fin q /\ (p < q)%Qc) <-> (a < b)%Qc).
  { intros a b. split.
    - intros [p [q [Ea [Eb L]]]]. inversion Ea. inversion Eb. subst. exact L.
    - intro L. exists a, b. auto. }
  assert (Heq : forall a b : Qc, Fin a = Fin b <-> a = b).
  { intros a b. split; [intro E; inversion E; reflexivity | intros ->; reflexivity]. }
  rewrite !Hlt, !Heq.
  destruct (num_neqb (Fin sy) (Fin sx)) eqn:Es.
  - assert (Hne : sx <> sy).
    { intro E. rewrite E in Es.
      rewrite (proj2 (num_neqb_fin _ _) eq_refl) in Es. discriminate. }
    rewrite <- not_true_iff_false, gt_zero_diff. split.
    + intro H. left. apply Qcnot_le_lt. intro L.
      destruct (Qcle_lt_or_eq _ _ L) as [L' | E]; [exact (H L') | congruence].
    + intros [L | [E _]]; [| congruence].
      intro L'. exact (Qclt_not_le _ _ L (Qclt_le_weak _ _ L')).
  - apply num_neqb_fin in Es.
    destruct (num_neqb (Fin cy) (Fin cx)) eqn:Ec.
    + assert (Hne : cx <> cy).
      { intro E. rewrite E in Ec.
        rewrite (proj2 (num_neqb_fin _ _) eq_refl) in Ec. discriminate. }
      rewrite <- not_true_iff_false, gt_zero_diff. split.
      * intro H. right. split; [congruence |]. left. apply Qcnot_le_lt. intro L.
        destruct (Qcle_lt_or_eq _ _ L) as [L' | E]; [exact (H L') | congruence].
      * intros [L | [_ [L | [E _]]]] L'.
        -- rewrite Es in L. exact (Qclt_not_le _ _ L (Qcle_refl _)).
        -- exact (Qclt_not_le _ _ L (Qclt_le_weak _ _ L')).
        -- congruence.
    + apply num_neqb_fin in Ec.
      rewrite <- not_true_iff_false, gt_zero_num. split.
      * intro H. right. split; [congruence |]. right. split; [congruence | lia].
      * intros [L | [_ [L | [_ L]]]].
        -- rewrite Es in L. exfalso. exact (Qclt_not_le _ _ L (Qcle_refl _)).
        -- rewrite Ec in L. exfalso. exact (Qclt_not_le _ _ L (Qcle_refl _)).
        -- lia.
Qed.

(** The sort needs no more of the comparator than totality and
    transitivity on the elements sorted. *)
Lemma sort_insert_ordered {A : Type} (cmp : A -> A -> number)
  (dom : list A) (x : A) (l : list A) :
  (forall a b, In a dom -> In b dom ->
     SortFacts.before cmp a b \/ SortFacts.before cmp b a) ->
  (forall a b c, In a dom -> In b dom -> In c dom ->
     SortFacts.before cmp a b -> SortFacts.before cmp b c -> SortFacts.before cmp a c) ->
  In x dom -> incl l dom ->
  StronglySorted (SortFacts.before cmp) l ->
  StronglySorted (SortFacts.before cmp) (sort_insert cmp x l).
Proof.
  intros Htot Htr Hx Hl Hs. induction Hs as [| y t Hs IH Hy]; cbn [sort_insert].
  - repeat constructor.
  - assert (Hyd : In y dom) by (apply Hl; left; reflexivity).
    assert (Htd : incl t dom) by (intros z Hz; apply Hl; right; exact Hz).
    destruct (num_gtb (cmp x y) (num 0)) eqn:E.
    + constructor; [apply IH, Htd |].
      apply Forall_forall. intros z Hz.
      apply (Permutation_in _ (sort_insert_perm cmp x t)) in Hz.
      destruct Hz as [<- | Hz].
      * destruct (Htot x y Hx Hyd) as [B | B]; [| exact B].
        unfold SortFacts.before in B. congruence.
      * rewrite Forall_forall in Hy. apply Hy, Hz.
    + constructor; [constructor; assumption |].
      constructor; [exact E |].
      apply Forall_forall. intros z Hz.
      rewrite Forall_forall in Hy.
      apply (Htr x y z); auto.
Qed.

Lemma Array_sort_ordered {A : Type} (cmp : A -> A -> number) (dom l : list A) :
  (forall a b, In a dom -> In b dom ->
     SortFacts.before cmp a b \/ SortFacts.before cmp b a) ->
  (forall a b c, In a dom -> In b dom -> In c dom ->
     SortFacts.before cmp a b -> SortFacts.before cmp b c -> SortFacts.before cmp a c) ->
  incl l dom -> StronglySorted (SortFacts.before cmp) (Array_sort cmp l).
Proof.
  intros Htot Htr. induction l as [| x t IH]; intro Hl;
    cbn [Array_sort fold_right]; [constructor |].
  fold (Array_sort cmp t).
  apply (sort_insert_ordered cmp dom); auto.
  - apply Hl. left. reflexivity.
  - intros z Hz. apply (Permutation_in _ (Array_sort_perm cmp t)) in Hz.
    apply Hl. right. exact Hz.
  - apply IH. intros z Hz. apply Hl. right. exact Hz.
Qed.

Hypothesis collation_total : forall a b,
  localeCompare a b <= 0 \/ localeCompare b a <= 0.
Hypothesis collation_trans : forall a b c,
  localeCompare a b <= 0 -> localeCompare b c <= 0 -> localeCompare a c <= 0.

Lemma num_lt_fin (a b : Qc) : num_lt (Fin a) (Fin b) <-> (a < b)%Qc.
Proof.
  split.
  - intros [p [q [Ea [Eb L]]]]. inversion Ea. inversion Eb. subst. exact L.
  - intro L. exists a, b. auto.
Qed.

Lemma ranked_before_total (x y : RankedFinding) :
  finite_keys x -> finite_keys y -> ranked_before x y \/ ranked_before y x.
Proof.
  intros [sx [cx [Esx Ecx]]] [sy [cy [Esy Ecy]]].
  unfold ranked_before. rewrite Esx, Ecx, Esy, Ecy, !num_lt_fin.
  destruct (Qc_trichotomy sx sy) as [L | [E | L]]; auto. subst sy.
  destruct (Qc_trichotomy cx cy) as [L | [E' | L]]; auto. subst cy.
  destruct (collation_total (id x) (id y)); auto 6.
Qed.

Lemma ranked_before_trans (x y z : RankedFinding) :
  finite_keys x -> finite_keys y -> finite_keys z ->
  ranked_before x y -> ranked_before y z -> ranked_before x z.
Proof.
  intros [sx [cx [Esx Ecx]]] [sy [cy [Esy Ecy]]] [sz [cz [Esz Ecz]]].
  unfold ranked_before. rewrite Esx, Ecx, Esy, Ecy, Esz, Ecz, !num_lt_fin.
  intros [L1 | [E1 R1]] [L2 | [E2 R2]].
  - left. eapply Qclt_trans; eauto.
  - left. inversion E2. subst. exact L1.
  - left. inversion E1. subst. exact L2.
  - right. split; [congruence |].
    destruct R1 as [L1 | [E1' I1]], R2 as [L2 | [E2' I2]].
    + left. eapply Qclt_trans; eauto.
    + left. inversion E2'. subst. exact L1.
    + left. inversion E1'. subst. exact L2.
    + right. split; [congruence |]. eapply collation_trans; eauto.
Qed.

Lemma ranking_sorted (l : list Finding) :
  StronglySorted ranked_before (rankFindings l).
Proof.
  unfold Findings.rankFindings. cbn zeta.
  assert (Hfin : forall r, In r (Array_sort (rank_compare localeCompare) (dedupeFindings l))
                           -> finite_keys r).
  { intros r Hr. apply (Permutation_in _ (Array_sort_perm _ _)) in Hr.
    apply (deduped_finite l), Hr. }
  assert (Hs : StronglySorted before
                 (Array_sort (rank_compare localeCompare) (dedupeFindings l))).
  { apply (Array_sort_ordered _ (dedupeFindings l)).
    - intros a b Ha Hb.
      rewrite !before_finite by (eapply deduped_finite; eassumption).
      apply ranked_before_total; eapply deduped_finite; eassumption.
    - intros a b c Ha Hb Hc.
      rewrite !before_finite by (eapply deduped_finite; eassumption).
      apply ranked_before_trans; eapply deduped_finite; eassumption.
    - apply incl_refl. }
  revert Hfin Hs.
  generalize (Array_sort (rank_compare localeCompare) (dedupeFindings l)).
  intros out Hfin Hs. induction Hs as [| x t Hs IH Hx]; constructor.
  - apply IH. intros r Hr. apply Hfin. right. exact Hr.
  - rewrite Forall_forall in *. intros y Hy.
    apply before_finite; [apply Hfin; left; reflexivity | apply Hfin; right; exact Hy |].
    apply Hx, Hy.
Qed.

(** X5: [rankFindings] only reorders the records of [dedupeFindings], and in
    its output every record stands before all records after it: higher
    score first, then higher confidence, then the id that collates first
    (for a [localeCompare] that is total and transitive). *)
Theorem rankFindings_sorted (l : list Finding) :
  Permutation (rankFindings l) (dedupeFindings l) /\
  StronglySorted ranked_before (rankFindings l).
Proof.
  split; [apply Array_sort_perm | apply ranking_sorted].
Qed.

Lemma sorted_split {A : Type} (R : A -> A -> Prop) (l1 l2 : list A) :
  StronglySorted R (l1 ++ l2) -> forall x y, In x l1 -> In y l2 -> R x y.
Proof.
  induction l1 as [| a t IH]; cbn; intros Hs x y Hx Hy; [destruct Hx |].
  inversion Hs as [| ? ? Hs' Ha]. subst.
  destruct Hx as [<- | Hx].
  - rewrite Forall_forall in Ha. apply Ha, in_or_app. right. exact Hy.
  - apply IH; assumption.
Qed.

(** X6: For a limit that is not negative, [topFindings] returns the first
    [limit] records of the ranking (all of them when there are fewer), and
    every record it returns ranks before every record it leaves out. *)
Theorem topFindings_takes_best (l : list Finding) (limit : Z) :
  0 <= limit ->
  exists rest,
    rankFindings l = (topFindings l limit ++ rest)%list /\
    List.length (topFindings l limit)
      = Nat.min (Z.to_nat limit) (List.length (rankFindings l)) /\
    forall x y, In x (topFindings l limit) -> In y rest -> ranked_before x y.
Proof.
  intro Hl. unfold Findings.topFindings, Array_slice0.
  destruct (Z.ltb_spec limit 0); [lia |].
  exists (skipn (Z.to_nat limit) (rankFindings l)).
  split; [symmetry; apply firstn_skipn |].
  split; [apply length_firstn |].
  apply sorted_split. rewrite firstn_skipn. apply ranking_sorted.
Qed.

End Runtime.

End RankOrderFacts.

Module MergeExamples.

Import Findings DedupeFacts RankFacts MergeFacts RankOrderFacts FindingsExamples.

(** The record kept for the key shared by the first two sample findings. *)
Definition merged_sample : RankedFinding :=
  with_score (merge (seed first_finding "k1" (clamped first_finding))
                second_finding (clamped second_finding)).

Lemma merged_sample_ranked :
  In merged_sample (rank [first_finding; second_finding; third_finding]).
Proof. vm_compute. left. reflexivity. Qed.

Lemma merged_record_keeps_first_witness :
  exists first rest,
    group digest show_number [first_finding; second_finding; third_finding]
      (dedupeKey merged_sample) = first :: rest /\
    same_identity first merged_sample /\
    title merged_sample = longest_title (title first) (map title rest) /\
    In (title merged_sample) (map title (first :: rest)) /\
    forall f, In f (first :: rest) ->
              (String.length (title f) <= String.length (title merged_sample))%nat.
Proof.
  apply (merged_record_keeps_first digest show_number Reference.localeCompare
           [first_finding; second_finding; third_finding] merged_sample).
  vm_compute. left. reflexivity.
Defined.

Lemma ranked_record_consistent_witness :
  score merged_sample
  = rankScore (severity merged_sample) (confidence merged_sample)
      (supportingRoles merged_sample) (role merged_sample) /\
  In (role merged_sample) (supportingRoles merged_sample) /\
  (1 <= List.length (supportingRoles merged_sample) <= 3)%nat.
Proof.
  apply (ranked_record_consistent digest show_number Reference.localeCompare
           [first_finding; second_finding; third_finding] merged_sample).
  vm_compute. left. reflexivity.
Defined.

Lemma rankFindings_sorted_witness :
  Permutation (rank [first_finding; second_finding; third_finding])
    (dedupeFindings digest show_number [first_finding; second_finding; third_finding]) /\
  StronglySorted (ranked_before Reference.localeCompare)
    (rank [first_finding; second_finding; third_finding]).
Proof.
  apply (rankFindings_sorted digest show_number Reference.localeCompare).
  - apply (lc_total _ reference_collation).
  - apply (lc_trans _ reference_collation).
Defined.

Lemma topFindings_takes_best_witness :
  exists rest,
    rank [first_finding; second_finding; third_finding]
    = (topFindings digest show_number Reference.localeCompare
         [first_finding; second_finding; third_finding] 1 ++ rest)%list /\
    List.length (topFindings digest show_number Reference.localeCompare
                   [first_finding; second_finding; third_finding] 1)
      = Nat.min (Z.to_nat 1) (List.length (rank [first_finding; second_finding; third_finding])) /\
    forall x y,
      In x (topFindings digest show_number Reference.localeCompare
              [first_finding; second_finding; third_finding] 1) ->
      In y rest -> ranked_before Reference.localeCompare x y.
Proof.
  apply (topFindings_takes_best digest show_number Reference.localeCompare).
  - apply (lc_total _ reference_collation).
  - apply (lc_trans _ reference_collation).
  - lia.
Defined.

End MergeExamples.

(** ** findings.ts: the ranking of permuted inputs *)

Module RankPermutation.

Import Findings NumberFacts MapFacts SortFacts FindingsFacts DedupeFacts RankFacts.
Import RankOrderFacts.

(** What [Array.prototype.sort] asks of a comparison: the sign of
    [lc a b] is the opposite of the sign of [lc b a], and "not after" is
    transitive.  Two strings may compare as equal without being equal. *)
Record consistent_comparison (lc : string -> string -> Z) : Prop := {
  cc_sign : forall a b, 0 < lc a b <-> lc b a < 0;
  cc_trans : forall a b c, lc a b <= 0 -> lc b c <= 0 -> lc a c <= 0
}.

Lemma cc_total (lc : string -> string -> Z) :
  consistent_comparison lc -> forall a b, lc a b <= 0 \/ lc b a <= 0.
Proof.
  intros H a b. destruct (Z_le_gt_dec (lc a b) 0) as [L | G]; [left; exact L |].
  right. apply Z.lt_le_incl, (cc_sign lc H). lia.
Qed.

Lemma cc_tie (lc : string -> string -> Z) :
  consistent_comparison lc ->
  forall a b, lc a b <= 0 -> lc b a <= 0 -> lc a b = 0.
Proof.
  intros H a b L1 L2.
  destruct (Z.eq_dec (lc a b) 0) as [E | N]; [exact E |].
  assert (L : lc a b < 0) by lia.
  apply (cc_sign lc H) in L. lia.
Qed.

Section Runtime.

Variable sha256_hex : string -> string.
Variable Number_toString : number -> string.
Variable localeCompare : string -> string -> Z.

Local Abbreviation key_of := (Findings.key_of sha256_hex Number_toString).
Local Abbreviation group_step := (Findings.group_step sha256_hex Number_toString).
Local Abbreviation dedupeFindings := (Findings.dedupeFindings sha256_hex Number_toString).
Local Abbreviation rankFindings :=
  (Findings.rankFindings sha256_hex Number_toString localeCompare).
Local Abbreviation before := (SortFacts.before (rank_compare localeCompare)).
Local Abbreviation group := (DedupeFacts.group sha256_hex Number_toString).
Local Abbreviation ranked_before := (RankOrderFacts.ranked_before localeCompare).

(** No two merged records tie: records of different keys with the same
    score and the same confidence have ids that [localeCompare] tells
    apart. *)
Definition tie_free (records : list RankedFinding) : Prop :=
  forall r r', In r records -> In r' records ->
    dedupeKey r <> dedupeKey r' ->
    score r = score r' -> confidence r = confidence r' ->
    localeCompare (id r) (id r') <> 0.

(** The table built from two inputs with the same key groups has the same
    entries. *)
Lemma tables_permuted (l l' : list Finding) :
  (forall k, group l k = group l' k) ->
  Permutation (fold_left group_step l []) (fold_left group_step l' []).
Proof.
  intro Hg.
  assert (Hnd : forall l0, NoDup (map fst (fold_left group_step l0 []))).
  { intro l0. apply fold_keys_nodup. constructor. }
  assert (Hget : forall k, map_get String.eqb (fold_left group_step l []) k
                           = map_get String.eqb (fold_left group_step l' []) k).
  { intro k. rewrite !map_get_fold, Hg. reflexivity. }
  apply NoDup_Permutation.
  - apply (NoDup_map_inv fst), Hnd.
  - apply (NoDup_map_inv fst), Hnd.
  - intros [k r]. split; intro H.
    + apply map_get_in. rewrite <- Hget. apply in_map_get; [apply Hnd | exact H].
    + apply map_get_in. rewrite Hget. apply in_map_get; [apply Hnd | exact H].
Qed.

Lemma dedupe_permuted (l l' : list Finding) :
  (forall k, group l k = group l' k) ->
  Permutation (dedupeFindings l) (dedupeFindings l').
Proof.
  intro Hg. unfold Findings.dedupeFindings, map_values.
  apply Permutation_map, Permutation_map, tables_permuted, Hg.
Qed.

Lemma dedupe_keys_nodup (l : list Finding) :
  NoDup (map (fun r : RankedFinding => dedupeKey r) (dedupeFindings l)).
Proof.
  rewrite (dedupe_keys _ _ localeCompare). apply fold_keys_nodup. constructor.
Qed.

Lemma ranked_before_tie (x y : RankedFinding) :
  finite_keys x -> finite_keys y ->
  ranked_before x y -> ranked_before y x ->
  score x = score y /\ confidence x = confidence y /\
  localeCompare (id x) (id y) <= 0 /\ localeCompare (id y) (id x) <= 0.
Proof.
  intros [sx [cx [Esx Ecx]]] [sy [cy [Esy Ecy]]].
  unfold RankOrderFacts.ranked_before. rewrite Esx, Ecx, Esy, Ecy, !num_lt_fin.
  intros [L1 | [E1 R1]] [L2 | [E2 R2]].
  - destruct (Qclt_asym _ _ L1 L2).
  - inversion E2. subst. destruct (Qclt_irrefl _ L1).
  - inversion E1. subst. destruct (Qclt_irrefl _ L2).
  - destruct R1 as [L1 | [E1' I1]], R2 as [L2 | [E2' I2]].
    + destruct (Qclt_asym _ _ L1 L2).
    + inversion E2'. subst. destruct (Qclt_irrefl _ L1).
    + inversion E1'. subst. destruct (Qclt_irrefl _ L2).
    + auto.
Qed.

Lemma deduped_total_order (l : list Finding) :
  consistent_comparison localeCompare ->
  tie_free (dedupeFindings l) ->
  total_order_on (rank_compare localeCompare) (dedupeFindings l).
Proof.
  intros Hcc Hties.
  pose proof (deduped_finite sha256_hex Number_toString localeCompare l) as Hfin.
  constructor.
  - intros x y Hx Hy. rewrite !before_finite by auto.
    apply ranked_before_total; auto. apply cc_total, Hcc.
  - intros x y z Hx Hy Hz. rewrite !before_finite by auto.
    apply ranked_before_trans; auto. apply (cc_trans _ Hcc).
  - intros x y Hx Hy. rewrite !before_finite by auto. intros B1 B2.
    destruct (ranked_before_tie x y (Hfin x Hx) (Hfin y Hy) B1 B2)
      as [Es [Ec [I1 I2]]].
    destruct (String.eqb_spec (dedupeKey x) (dedupeKey y)) as [E | N].
    + apply (nodup_map_injective (fun r : RankedFinding => dedupeKey r)
               (dedupeFindings l)); auto.
      apply dedupe_keys_nodup.
    + exfalso. apply (Hties x y Hx Hy N Es Ec).
      apply (cc_tie _ Hcc); assumption.
Qed.

(** C2, as the code has it: [rankFindings] returns the same sequence for
    two inputs that are permutations of each other when the findings that
    share a dedupe key stand in the same relative order in both, and no two
    of the merged records tie (equal score, equal confidence and ids that
    [localeCompare] reports as equal); [localeCompare] is taken to be a
    consistent comparison. *)
Theorem rankFindings_order_independent (l l' : list Finding) :
  consistent_comparison localeCompare ->
  tie_free (dedupeFindings l) ->
  Permutation l l' ->
  (forall k, group l k = group l' k) ->
  rankFindings l = rankFindings l'.
Proof.
  intros Hcc Hties _ Hg. unfold Findings.rankFindings.
  apply Array_sort_perm_eq.
  - apply deduped_total_order; assumption.
  - apply dedupe_permuted, Hg.
Qed.

End Runtime.

End RankPermutation.

Module RankPermutationExamples.

Import Findings DedupeFacts RankFacts FindingsExamples RankPermutation.

Lemma reference_consistent : consistent_comparison Reference.localeCompare.
Proof.
  constructor.
  - intros a b. unfold Reference.localeCompare.
    rewrite (String_as_OT.cmp_antisym b a).
    destruct (String_as_OT.cmp a b); cbn; lia.
  - apply (lc_trans _ reference_collation).
Qed.

Lemma rankFindings_order_independent_witness :
  rank [first_finding; second_finding; third_finding]
  = rank [third_finding; first_finding; second_finding].
Proof.
  apply (rankFindings_order_independent digest show_number
           Reference.localeCompare).
  - exact reference_consistent.
  - intros r r' Hr Hr' Hk _ _.
    assert (Hid : forall x, In x (dedupeFindings digest show_number
                                    [first_finding; second_finding; third_finding]) ->
                            (id x = "f-1" /\ dedupeKey x = "k1")
                            \/ (id x = "f-3" /\ dedupeKey x = "k2")).
    { intros x Hx. cbv [dedupeFindings] in Hx.
      apply in_map_iff in Hx. destruct Hx as [y [<- Hy]].
      apply in_map_iff in Hy. destruct Hy as [[k z] [<- Hz]].
      vm_compute in Hz.
      destruct Hz as [E | [E | []]]; inversion E; subst z; cbn; auto. }
    destruct (Hid r Hr) as [[I K] | [I K]], (Hid r' Hr') as [[I' K'] | [I' K']];
      rewrite I, I'; try (exfalso; apply Hk; congruence);
      vm_compute; discriminate.
  - apply Permutation_sym.
    apply (Permutation_cons_append [first_finding; second_finding] third_finding).
  - intro k. cbv [group filter]. cbn [key_of is_empty dedupeKey first_finding second_finding third_finding sample].
    destruct (String.eqb_spec "k1" k), (String.eqb_spec "k2" k);
      try reflexivity; congruence.
Defined.

(** Why ties are excluded: two findings with different keys that agree in
    score, confidence and id come out in the order they went in. *)
Definition twin_finding : Finding :=
  sample "f-1" correctness medium (Fin (qfrac 6 10)) "k2".

Lemma tied_records_keep_input_order :
  map (fun r : RankedFinding => dedupeKey r) (rank [first_finding; twin_finding])
  = ["k1"; "k2"] /\
  map (fun r : RankedFinding => dedupeKey r) (rank [twin_finding; first_finding])
  = ["k2"; "k1"].
Proof. split; vm_compute; reflexivity. Qed.

End RankPermutationExamples.

(** ** chatops.ts: what is accepted, and the two parsers *)

Module ChatOpsRoundTrip.

Import ChatOps StringFacts.

Definition scope_name (sc : RerunScope) : string :=
  match sc with
  | scope_correctness => "correctness"
  | scope_security => "security"
  | scope_maintainability => "maintainability"
  | scope_all => "all"
  end.

(** The canonical text of a command. *)
Definition render (c : ChatOpsCommand) : string :=
  match c with
  | Rerun sc => "/codex rerun " ++ scope_name sc
  | Explain findingId => "/codex explain " ++ findingId
  | Patch findingId => "/codex patch " ++ findingId
  | Stop => "/codex stop"
  end.

(** The finding id of the command, if it has one, matches [idPattern]. *)
Definition valid (c : ChatOpsCommand) : Prop :=
  match c with
  | Explain findingId | Patch findingId => idPattern findingId = true
  | _ => True
  end.

(** White space only. *)
Definition blank (s : string) : Prop := forallb is_space (chars s) = true.

Lemma id_char_visible (c : ascii) : id_char c = true -> is_space c = false.
Proof. destruct c as [[] [] [] [] [] [] [] []]; cbv; congruence. Qed.

Lemma id_visible (l : list ascii) :
  forallb id_char l = true -> forallb (fun c => negb (is_space c)) l = true.
Proof.
  induction l as [| c t IH]; cbn [forallb]; [reflexivity |].
  intro H. apply andb_true_iff in H. destruct H as [Hc Ht].
  rewrite (id_char_visible c Hc), (IH Ht). reflexivity.
Qed.

Lemma drop_while_blank (p l : list ascii) :
  forallb is_space p = true -> drop_while is_space (p ++ l) = drop_while is_space l.
Proof.
  induction p as [| c t IH]; cbn [forallb app drop_while]; [reflexivity |].
  intro H. apply andb_true_iff in H. destruct H as [-> Ht]. apply IH, Ht.
Qed.

Lemma forallb_rev {A : Type} (p : A -> bool) (l : list A) :
  forallb p (rev l) = forallb p l.
Proof.
  induction l as [| x t IH]; [reflexivity |].
  cbn [rev forallb]. rewrite forallb_app, IH. cbn [forallb].
  rewrite andb_true_r. apply andb_comm.
Qed.

(** [trim] removes the white space around a text that begins and ends
    with a visible character. *)
Lemma trim_blank_around (p l q : list ascii) :
  forallb is_space p = true -> forallb is_space q = true -> trimmed l ->
  trim_chars (p ++ l ++ q) = l.
Proof.
  intros Hp Hq [H1 H2]. unfold trim_chars.
  rewrite (drop_while_blank p _ Hp).
  destruct l as [| c t].
  - cbn [app]. rewrite <- (app_nil_r q) at 1.
    rewrite (drop_while_blank q [] Hq). cbn [drop_while rev].
    reflexivity.
  - cbn [app drop_while]. cbn in H1. rewrite H1.
    change (c :: (t ++ q)%list) with ((c :: t) ++ q)%list.
    rewrite rev_app_distr.
    rewrite drop_while_blank by (rewrite forallb_rev; exact Hq).
    rewrite (drop_while_fixed _ H2). apply rev_involutive.
Qed.

Lemma split_ws_visible (l cur : list ascii) (b : bool) :
  forallb (fun c => negb (is_space c)) l = true ->
  split_ws_aux b cur l = [str (rev cur ++ l)].
Proof.
  revert cur b. induction l as [| c t IH]; intros cur b; cbn [forallb split_ws_aux].
  - rewrite app_nil_r. reflexivity.
  - intro H. apply andb_true_iff in H. destruct H as [Hc Ht].
    apply negb_true_iff in Hc. rewrite Hc, (IH _ _ Ht).
    cbn [rev]. rewrite <- app_assoc. reflexivity.
Qed.

Lemma includes_none (l : list ascii) (c : ascii) :
  forallb (fun x => negb (Ascii.eqb x c)) l = true ->
  includes (str l) (String c "") = false.
Proof.
  induction l as [| x t IH]; cbn [forallb str string_of_list_ascii includes String.prefix].
  - reflexivity.
  - intro H. apply andb_true_iff in H. destruct H as [Hx Ht].
    fold (str t). rewrite (IH Ht).
    apply negb_true_iff in Hx.
    destruct (Ascii.ascii_dec c x) as [-> | _].
    + rewrite Ascii.eqb_refl in Hx. discriminate.
    + reflexivity.
Qed.

Lemma id_char_not_LF (l : list ascii) :
  forallb id_char l = true -> forallb (fun x => negb (Ascii.eqb x LF)) l = true.
Proof.
  induction l as [| c t IH]; cbn [forallb]; [reflexivity |].
  intro H. apply andb_true_iff in H. destruct H as [Hc Ht].
  rewrite (IH Ht), andb_true_r.
  revert Hc. destruct c as [[] [] [] [] [] [] [] []]; cbv; congruence.
Qed.

Lemma last_visible (l : list ascii) :
  l <> [] -> forallb (fun c => negb (is_space c)) l = true -> starts_visible (rev l).
Proof.
  intros Hne H. rewrite <- forallb_rev in H.
  destruct (rev l) as [| c t] eqn:E.
  - exact I.
  - cbn in H. apply andb_true_iff in H. destruct H as [Hc _].
    apply negb_true_iff in Hc. exact Hc.
Qed.

Lemma word_parses (word : string) :
  idPattern word = true ->
  word <> "" /\
  forallb (fun c => negb (is_space c)) (chars word) = true /\
  forallb (fun x => negb (Ascii.eqb x LF)) (chars word) = true.
Proof.
  unfold idPattern. intro H. apply andb_true_iff in H. destruct H as [Hne Hid].
  split; [destruct word; [discriminate | congruence] |].
  split; [apply id_visible, Hid | apply id_char_not_LF, Hid].
Qed.

(** A head that ends in a space, followed by one word. *)
Lemma head_word_trimmed (head word : list ascii) :
  head <> [] -> starts_visible head -> word <> [] ->
  forallb (fun c => negb (is_space c)) word = true ->
  trimmed (head ++ word).
Proof.
  intros Hh Hv Hw Hword. split.
  - apply starts_visible_app; assumption.
  - rewrite rev_app_distr. apply starts_visible_app.
    + intro E. apply (f_equal (@rev ascii)) in E. rewrite rev_involutive in E.
      exact (Hw E).
    + apply last_visible; assumption.
Qed.

Lemma chars_nonempty (s : string) : s <> "" -> chars s <> [].
Proof. destruct s; [congruence | discriminate]. Qed.

Lemma parse_explain (findingId : string) :
  idPattern findingId = true ->
  trimmed (chars ("/codex explain " ++ findingId)) /\
  parseChatOpsCommand ("/codex explain " ++ findingId) = Some (Explain findingId).
Proof.
  intro Hid. destruct (word_parses findingId Hid) as [Hne [Hvis Hlf]].
  assert (Ht : trimmed (chars ("/codex explain " ++ findingId))).
  { rewrite chars_append. apply head_word_trimmed;
      [discriminate | reflexivity | apply chars_nonempty, Hne | exact Hvis]. }
  split; [exact Ht |].
  unfold parseChatOpsCommand, trim. rewrite (trim_chars_fixed _ Ht), str_chars.
  assert (Hinc : includes ("/codex explain " ++ findingId) (String LF "") = false).
  { rewrite <- (str_chars ("/codex explain " ++ findingId)), chars_append.
    apply includes_none. rewrite forallb_app, Hlf. reflexivity. }
  assert (Htok : split_ws ("/codex explain " ++ findingId)
                 = ["/codex"; "explain"; findingId]).
  { unfold split_ws. rewrite chars_append.
    change (split_ws_aux false [] (chars "/codex explain " ++ chars findingId))
      with ("/codex" :: "explain" :: split_ws_aux true [] (chars findingId)).
    rewrite (split_ws_visible _ _ _ Hvis). cbn [rev app]. rewrite str_chars.
    reflexivity. }
  rewrite Hinc, Htok.
  change (startsWith ("/codex explain " ++ findingId) "/codex ") with true.
  cbn [negb List.length Nat.ltb Nat.leb nth nth_error].
  change (String.eqb "explain" "stop") with false.
  change (String.eqb "explain" "rerun") with false.
  change (String.eqb "explain" "explain") with true.
  cbn [andb orb]. rewrite Hid. reflexivity.
Qed.

Lemma parse_patch (findingId : string) :
  idPattern findingId = true ->
  trimmed (chars ("/codex patch " ++ findingId)) /\
  parseChatOpsCommand ("/codex patch " ++ findingId) = Some (Patch findingId).
Proof.
  intro Hid. destruct (word_parses findingId Hid) as [Hne [Hvis Hlf]].
  assert (Ht : trimmed (chars ("/codex patch " ++ findingId))).
  { rewrite chars_append. apply head_word_trimmed;
      [discriminate | reflexivity | apply chars_nonempty, Hne | exact Hvis]. }
  split; [exact Ht |].
  unfold parseChatOpsCommand, trim. rewrite (trim_chars_fixed _ Ht), str_chars.
  assert (Hinc : includes ("/codex patch " ++ findingId) (String LF "") = false).
  { rewrite <- (str_chars ("/codex patch " ++ findingId)), chars_append.
    apply includes_none. rewrite forallb_app, Hlf. reflexivity. }
  assert (Htok : split_ws ("/codex patch " ++ findingId)
                 = ["/codex"; "patch"; findingId]).
  { unfold split_ws. rewrite chars_append.
    change (split_ws_aux false [] (chars "/codex patch " ++ chars findingId))
      with ("/codex" :: "patch" :: split_ws_aux true [] (chars findingId)).
    rewrite (split_ws_visible _ _ _ Hvis). cbn [rev app]. rewrite str_chars.
    reflexivity. }
  rewrite Hinc, Htok.
  change (startsWith ("/codex patch " ++ findingId) "/codex ") with true.
  cbn [negb List.length Nat.ltb Nat.leb nth nth_error].
  change (String.eqb "patch" "stop") with false.
  change (String.eqb "patch" "rerun") with false.
  change (String.eqb "patch" "explain") with false.
  change (String.eqb "patch" "patch") with true.
  cbn [andb orb]. rewrite Hid. reflexivity.
Qed.

Lemma render_parses (c : ChatOpsCommand) :
  valid c -> trimmed (chars (render c)) /\ parseChatOpsCommand (render c) = Some c.
Proof.
  destruct c as [sc | findingId | findingId |]; cbn [valid render].
  - intros _. destruct sc; split; vm_compute; auto.
  - apply parse_explain.
  - apply parse_patch.
  - intros _. split; vm_compute; auto.
Qed.

Lemma trim_around (pre s post : string) :
  blank pre -> blank post -> trimmed (chars s) -> trim (pre ++ s ++ post) = s.
Proof.
  intros Hp Hq Hs. unfold trim. rewrite !chars_append.
  rewrite (trim_blank_around _ _ _ Hp Hq Hs). apply str_chars.
Qed.

Lemma parse_of_trim (body : string) :
  parseChatOpsCommand body = parseChatOpsCommand (trim body).
Proof.
  unfold parseChatOpsCommand. rewrite trim_idempotent. reflexivity.
Qed.

(** X11: Round trip: the canonical text of a command whose finding id matches
    the id pattern, with any white space before and after it (newlines
    included), parses to that command. *)
Theorem parse_render_round_trip (c : ChatOpsCommand) (pre post : string) :
  valid c -> blank pre -> blank post ->
  parseChatOpsCommand (pre ++ render c ++ post) = Some c.
Proof.
  intros Hv Hp Hq. destruct (render_parses c Hv) as [Ht Hparse].
  rewrite parse_of_trim, (trim_around _ _ _ Hp Hq Ht). exact Hparse.
Qed.

Lemma parse_render_round_trip_witness :
  parseChatOpsCommand
    ("  " ++ render (Explain "finding_42") ++ String LF (String CR " "))
  = Some (Explain "finding_42").
Proof.
  apply (parse_render_round_trip (Explain "finding_42")); reflexivity.
Defined.

(** X12: Whatever is accepted is well formed: the trimmed body begins with
    "/codex " and holds no newline, the finding id of an explain or patch
    command matches the id pattern, and the command is the one its own
    canonical text parses to. *)
Theorem parse_accepts_only_valid (body : string) (c : ChatOpsCommand) :
  parseChatOpsCommand body = Some c ->
  startsWith (trim body) "/codex " = true /\
  includes (trim body) (String LF "") = false /\
  valid c /\
  parseChatOpsCommand (render c) = Some c.
Proof.
  intro H.
  assert (Hv : startsWith (trim body) "/codex " = true /\
               includes (trim body) (String LF "") = false /\ valid c).
  { revert H. unfold parseChatOpsCommand. cbv zeta.
    destruct (startsWith (trim body) "/codex "); cbn [negb]; [| discriminate].
    destruct (includes (trim body) (String LF "")); [discriminate |].
    destruct (List.length (split_ws (trim body)) <? 2)%nat; [discriminate |].
    destruct (String.eqb (nth 1 (split_ws (trim body)) "") "stop"
              && (List.length (split_ws (trim body)) =? 2)%nat).
    { intro E. inversion E. repeat split. }
    destruct (String.eqb (nth 1 (split_ws (trim body)) "") "rerun").
    { destruct (rerunScopes _); [| discriminate].
      intro E. inversion E. repeat split. }
    destruct (String.eqb (nth 1 (split_ws (trim body)) "") "explain"
              || String.eqb (nth 1 (split_ws (trim body)) "") "patch");
      [| discriminate].
    destruct (idPattern _) eqn:Eid; cbn [negb]; [| discriminate].
    destruct (String.eqb (nth 1 (split_ws (trim body)) "") "explain");
      intro E; inversion E; subst; repeat split; exact Eid. }
  destruct Hv as [H1 [H2 H3]]. repeat split; try assumption.
  apply render_parses, H3.
Qed.

Lemma parse_accepts_only_valid_witness :
  startsWith (trim " /codex patch a-1 ") "/codex " = true /\
  includes (trim " /codex patch a-1 ") (String LF "") = false /\
  valid (Patch "a-1") /\
  parseChatOpsCommand (render (Patch "a-1")) = Some (Patch "a-1").
Proof.
  apply (parse_accepts_only_valid " /codex patch a-1 " (Patch "a-1")).
  reflexivity.
Defined.

(** A NO-BREAK SPACE before the command is white space and is trimmed. *)
Lemma leading_no_break_space_accepted :
  parseChatOpsCommand (String (ascii_of_nat 160) "/codex stop") = Some Stop.
Proof. vm_compute. reflexivity. Qed.

End ChatOpsRoundTrip.

Module ChatOpsAgreement.

Import ChatOps.

(** The cloudflare worker's record for a command of the domain package. *)
Definition to_parsed (c : ChatOpsCommand) : CloudflareChatOps.ParsedCommand :=
  match c with
  | Rerun sc =>
      {| CloudflareChatOps.type := CloudflareChatOps.type_rerun;
         CloudflareChatOps.scope := Some sc;
         CloudflareChatOps.findingId := None |}
  | Explain findingId =>
      {| CloudflareChatOps.type := CloudflareChatOps.type_explain;
         CloudflareChatOps.scope := None;
         CloudflareChatOps.findingId := Some findingId |}
  | Patch findingId =>
      {| CloudflareChatOps.type := CloudflareChatOps.type_patch;
         CloudflareChatOps.scope := None;
         CloudflareChatOps.findingId := Some findingId |}
  | Stop =>
      {| CloudflareChatOps.type := CloudflareChatOps.type_stop;
         CloudflareChatOps.scope := None;
         CloudflareChatOps.findingId := None |}
  end.

(** X13: The parser of the cloudflare worker and the parser of the domain
    package accept the same comment bodies and read the same command from
    each. *)
Theorem chatops_parsers_agree (body : string) :
  CloudflareChatOps.parseChatOpsCommand body
  = option_map to_parsed (ChatOps.parseChatOpsCommand body).
Proof.
  unfold CloudflareChatOps.parseChatOpsCommand, ChatOps.parseChatOpsCommand.
  cbv zeta.
  destruct (negb (startsWith (trim body) "/codex ")); [reflexivity |].
  destruct (includes (trim body) (String LF "")); [reflexivity |].
  destruct (split_ws (trim body)) as [| t0 [| t1 [| t2 rest]]];
    cbn [List.length Nat.ltb Nat.leb nth nth_error CloudflareChatOps.token_is
         Nat.eqb andb orb option_map]; try reflexivity.
  - destruct (String.eqb t1 "stop"); cbn [andb]; [reflexivity |].
    destruct (String.eqb t1 "rerun").
    + destruct (rerunScopes (toLowerCase "all")); reflexivity.
    + destruct (String.eqb t1 "explain" || String.eqb t1 "patch"); reflexivity.
  - destruct (String.eqb t1 "stop"); cbn [andb].
    + destruct (String.eqb t1 "rerun").
      * destruct (rerunScopes (toLowerCase t2)); reflexivity.
      * unfold idPattern.
        destruct (String.eqb t1 "explain"); cbn [orb andb negb].
        -- destruct (is_empty t2), (forallb id_char (chars t2)); reflexivity.
        -- destruct (String.eqb t1 "patch"); cbn [orb andb negb]; [| reflexivity].
           destruct (is_empty t2), (forallb id_char (chars t2)); reflexivity.
    + destruct (String.eqb t1 "rerun").
      * destruct (rerunScopes (toLowerCase t2)); reflexivity.
      * unfold idPattern.
        destruct (String.eqb t1 "explain"); cbn [orb andb negb].
        -- destruct (is_empty t2), (forallb id_char (chars t2)); reflexivity.
        -- destruct (String.eqb t1 "patch"); cbn [orb andb negb]; [| reflexivity].
           destruct (is_empty t2), (forallb id_char (chars t2)); reflexivity.
Qed.

End ChatOpsAgreement.

(** ** cloudflare-worker crypto.ts: hex, constant-time equality, signatures *)

Module CryptoFacts.

Import Crypto StringFacts.

Definition hex_byte (value : Byte.byte) : string :=
  padStart 2 "0"%char (toString16 (Byte.to_N value)).

(** A lower-case hexadecimal digit. *)
Definition is_hex_digit (c : ascii) : bool :=
  is_digit c || ((97 <=? nat_of_ascii c) && (nat_of_ascii c <=? 102))%nat.

Definition digit_value (c : ascii) : N :=
  if is_digit c then N_of_ascii c - 48 else N_of_ascii c - 87.

(** The byte two hexadecimal digits stand for. *)
Definition unhex_byte (s : string) : N :=
  match s with
  | String a (String b _) => 16 * digit_value a + digit_value b
  | _ => 0
  end%N.

Definition hex_byte_ok (value : Byte.byte) : bool :=
  match hex_byte value with
  | String a (String b EmptyString) =>
      is_hex_digit a && is_hex_digit b
      && N.eqb (unhex_byte (hex_byte value)) (Byte.to_N value)
  | _ => false
  end.

Lemma hex_byte_ok_all (value : Byte.byte) : hex_byte_ok value = true.
Proof. destruct value; vm_compute; reflexivity. Qed.

Lemma hex_byte_shape (value : Byte.byte) :
  exists a b, hex_byte value = String a (String b "") /\
              is_hex_digit a = true /\ is_hex_digit b = true /\
              unhex_byte (hex_byte value) = Byte.to_N value.
Proof.
  pose proof (hex_byte_ok_all value) as H. unfold hex_byte_ok in H.
  destruct (hex_byte value) as [| a [| b [| c rest]]]; try discriminate.
  apply andb_true_iff in H. destruct H as [H Hu].
  apply andb_true_iff in H. destruct H as [Ha Hb].
  apply N.eqb_eq in Hu.
  exists a, b. auto.
Qed.

Lemma concat_empty_cons (s : string) (l : list string) :
  String.concat "" (s :: l) = s ++ String.concat "" l.
Proof.
  destruct l as [| t l]; cbn [String.concat].
  - symmetry. induction s as [| c s IH]; cbn; [reflexivity | rewrite IH; reflexivity].
  - reflexivity.
Qed.

Lemma hex_cons (value : Byte.byte) (rest : list Byte.byte) :
  hex (value :: rest) = hex_byte value ++ hex rest.
Proof. unfold hex, join. cbn [map]. apply concat_empty_cons. Qed.

Lemma byte_to_N_injective (v w : Byte.byte) : Byte.to_N v = Byte.to_N w -> v = w.
Proof.
  intro H. apply (f_equal Byte.of_N) in H. rewrite !Byte.of_to_N in H.
  inversion H. reflexivity.
Qed.

Lemma hex_two_digits_shared (input : list Byte.byte) :
  String.length (hex input) = (2 * List.length input)%nat /\
  forallb is_hex_digit (chars (hex input)) = true.
Proof.
  split.
  - induction input as [| v t IH]; [reflexivity |].
    rewrite hex_cons. destruct (hex_byte_shape v) as [a [b [-> _]]].
    cbn [append String.length List.length]. rewrite IH. lia.
  - induction input as [| v t IH]; [reflexivity |].
    rewrite hex_cons. destruct (hex_byte_shape v) as [a [b [-> [Ha [Hb _]]]]].
    cbn [append chars list_ascii_of_string forallb].
    fold (chars (hex t)). rewrite Ha, Hb, IH. reflexivity.
Qed.

(** X27: [hex] writes two lower-case hexadecimal digits per byte, and different
    byte sequences have different texts. *)
Theorem hex_two_digits_per_byte (input : list Byte.byte) :
  String.length (hex input) = (2 * List.length input)%nat /\
  forallb is_hex_digit (chars (hex input)) = true /\
  forall other, hex other = hex input -> other = input.
Proof.
  destruct (hex_two_digits_shared input) as [Hlen Hdig].
  split; [exact Hlen | split; [exact Hdig |]]. clear Hlen Hdig.
  induction input as [| v t IH]; intros other H.
  - destruct other as [| w u]; [reflexivity |].
    rewrite hex_cons in H. destruct (hex_byte_shape w) as [a [b [E _]]].
    rewrite E in H. discriminate.
  - destruct other as [| w u].
    + rewrite hex_cons in H. destruct (hex_byte_shape v) as [a [b [E _]]].
      rewrite E in H. discriminate.
    + rewrite !hex_cons in H.
      destruct (hex_byte_shape v) as [a [b [Ev [_ [_ Uv]]]]].
      destruct (hex_byte_shape w) as [c [d [Ew [_ [_ Uw]]]]].
      rewrite Ev in H, Uv. rewrite Ew in H, Uw. cbn [append] in H.
      inversion H. subst c d. f_equal.
      * apply byte_to_N_injective. rewrite <- Uv, <- Uw. reflexivity.
      * apply IH. assumption.
Qed.

Lemma charCode_injective (a b : ascii) : charCode a = charCode b -> a = b.
Proof.
  unfold charCode. intro H. apply (f_equal ascii_of_N) in H.
  rewrite !ascii_N_embedding in H. exact H.
Qed.

Lemma mismatch_zero (pairs : list (ascii * ascii)) (acc : N) :
  fold_left
    (fun mismatch pair =>
       N.lor mismatch (N.lxor (charCode (fst pair)) (charCode (snd pair))))
    pairs acc = 0%N
  <-> acc = 0%N /\ Forall (fun pair => fst pair = snd pair) pairs.
Proof.
  revert acc. induction pairs as [| [a b] t IH]; intro acc; cbn [fold_left fst snd].
  - split; [intro H; split; [exact H | constructor] | tauto].
  - rewrite IH, N.lor_eq_0_iff, N.lxor_eq_0_iff. split.
    + intros [[H0 Hab] Ht]. split; [exact H0 |].
      constructor; [apply charCode_injective, Hab | exact Ht].
    + intros [H0 Hall]. inversion Hall as [| ? ? Hab Ht]. subst.
      cbn [fst snd] in Hab. subst b. tauto.
Qed.

Lemma combine_equal (l r : list ascii) :
  List.length l = List.length r ->
  (Forall (fun pair => fst pair = snd pair) (combine l r) <-> l = r).
Proof.
  revert r. induction l as [| a t IH]; intros [| b u]; cbn [List.length combine];
    try discriminate.
  - intros _. split; [reflexivity | constructor].
  - intro H. injection H as H. split.
    + intro Hall. inversion Hall as [| ? ? Hab Ht]. subst. cbn [fst snd] in Hab.
      subst b. f_equal. apply (IH u H), Ht.
    + intro E. inversion E. subst. constructor; [reflexivity |].
      apply (IH u H). reflexivity.
Qed.

Lemma chars_injective (a b : string) : chars a = chars b -> a = b.
Proof.
  intro H. rewrite <- (str_chars a), <- (str_chars b), H. reflexivity.
Qed.

Lemma mismatch_of_equal (s : string) :
  fold_left
    (fun mismatch pair =>
       N.lor mismatch (N.lxor (charCode (fst pair)) (charCode (snd pair))))
    (combine (chars s) (chars s)) 0%N = 0%N.
Proof.
  apply mismatch_zero. split; [reflexivity |].
  apply combine_equal; reflexivity.
Qed.

Lemma timingSafeEqual_sound (left right : string) :
  timingSafeEqual left right = true -> left = right.
Proof.
  unfold timingSafeEqual.
  destruct (Nat.eqb_spec (String.length left) (String.length right)) as [Hlen | Hlen];
    cbn [negb]; [| discriminate].
  rewrite N.eqb_eq, mismatch_zero, combine_equal
    by (rewrite !length_chars; exact Hlen).
  intros [_ H]. apply chars_injective, H.
Qed.

Lemma timingSafeEqual_same (s : string) : timingSafeEqual s s = true.
Proof.
  unfold timingSafeEqual. rewrite Nat.eqb_refl. cbn [negb].
  rewrite mismatch_of_equal. reflexivity.
Qed.

(** X25: [timingSafeEqual] is equality of strings: it answers true exactly when
    the two strings have the same length and the same code unit at every
    index. *)
Theorem timingSafeEqual_is_equality (left right : string) :
  timingSafeEqual left right = true <-> left = right.
Proof.
  split.
  - apply timingSafeEqual_sound.
  - intros ->. apply timingSafeEqual_same.
Qed.

Section Subtle.

Variable hmac_sha256 : string -> string -> list Byte.byte.
Variable sha256 : string -> list Byte.byte.

(** X26: A missing or empty header is refused.  With a header and an empty
    secret the call is rejected with an error, whatever the header.  With
    a header and a secret that is not empty the call answers, and it
    answers true exactly when the header is "sha256=" followed by the
    lower-case hexadecimal HMAC of the body under the secret. *)
Theorem verifyGitHubSignature_exact (secret rawBody : string)
  (signatureHeader : option string) :
  (signatureHeader = None \/ signatureHeader = Some "" ->
   verifyGitHubSignature hmac_sha256 secret rawBody signatureHeader
   = Returned false) /\
  (forall header, signatureHeader = Some header -> header <> "" ->
     (secret = "" ->
      exists e, verifyGitHubSignature hmac_sha256 secret rawBody signatureHeader
                = Thrown e) /\
     (secret <> "" ->
      exists answer,
        verifyGitHubSignature hmac_sha256 secret rawBody signatureHeader
        = Returned answer /\
        (answer = true
         <-> header = "sha256=" ++ hex (hmac_sha256 secret rawBody)))).
Proof.
  unfold verifyGitHubSignature. split.
  - intros [-> | ->]; reflexivity.
  - intros header -> Hh.
    destruct header as [| c header]; [congruence |]. cbn [is_empty].
    split.
    + intros ->. cbn [is_empty]. eexists. reflexivity.
    + intro Hs. destruct secret as [| d secret]; [congruence |]. cbn [is_empty].
      cbv zeta. eexists. split; [reflexivity |]. split.
      * intro H. apply timingSafeEqual_sound in H. symmetry. exact H.
      * intros <-. apply timingSafeEqual_same.
Qed.

Lemma slice_to_min (n : nat) (s : string) :
  String.length (slice_to n s) = Nat.min n (String.length s).
Proof.
  revert s. induction n as [| k IH]; intros [| c t]; cbn; try reflexivity.
  rewrite IH. reflexivity.
Qed.

Lemma slice_to_chars (n : nat) (s : string) :
  chars (slice_to n s) = firstn n (chars s).
Proof.
  revert s. induction n as [| k IH]; intros [| c t]; cbn; try reflexivity.
  f_equal. apply IH.
Qed.

Lemma forallb_firstn {A : Type} (p : A -> bool) (n : nat) (l : list A) :
  forallb p l = true -> forallb p (firstn n l) = true.
Proof.
  revert l. induction n as [| k IH]; intros [| x t]; cbn; try reflexivity.
  intro H. apply andb_true_iff in H. destruct H as [-> Ht]. apply IH, Ht.
Qed.

(** X28: [shortHash] is the first 16 hexadecimal digits of the digest: 16
    characters as soon as the digest has 8 bytes, all of them lower-case
    hexadecimal digits. *)
Theorem shortHash_shape (input : string) :
  String.length (shortHash sha256 input)
  = Nat.min 16 (2 * List.length (sha256 input)) /\
  forallb is_hex_digit (chars (shortHash sha256 input)) = true.
Proof.
  unfold shortHash.
  destruct (hex_two_digits_shared (sha256 input)) as [Hlen Hdig].
  split.
  - rewrite slice_to_min, Hlen. reflexivity.
  - rewrite slice_to_chars. apply forallb_firstn, Hdig.
Qed.

End Subtle.

End CryptoFacts.

(** ** cloudflare-worker config.ts *)

Module ConfigFacts.

Import Config StringFacts StringSpec NormalizeFacts SplitFacts.

(** A whole number greater than zero. *)
Definition positive_int (n : number) : Prop := exists z : Z, 0 < z /\ n = num z.

Lemma isInteger_positive (n : number) :
  Number_isInteger n = true -> num_gtb n (num 0) = true -> positive_int n.
Proof.
  destruct n as [| | q |]; cbn [Number_isInteger]; try discriminate.
  intros Hint Hpos. apply Qc_eq_bool_correct in Hint.
  exists (Qfloor q). split.
  - unfold num_gtb, num in Hpos. cbn [num_ltb] in Hpos.
    apply NumberFacts.Qcltb_lt in Hpos. rewrite <- Hint in Hpos.
    exact (proj1 (RankFacts.qz_lt 0 (Qfloor q)) Hpos).
  - unfold num. rewrite Hint. reflexivity.
Qed.

Lemma not_leb_gtb (n : number) :
  Number_isInteger n = true -> num_leb n (num 0) = false -> num_gtb n (num 0) = true.
Proof.
  destruct n as [| | q |]; cbn [Number_isInteger]; try discriminate.
  intros _. unfold num_leb, num_gtb, num. cbn [num_geb num_ltb].
  intro H. apply NumberFacts.Qcltb_lt.
  apply Qcnot_le_lt. intro L. apply NumberFacts.Qcleb_le in L. congruence.
Qed.

Section Builtins.

Variable Number_of_string : string -> number.

Lemma parsePositiveInt_positive (value : option string) (fallback : number) :
  positive_int fallback ->
  positive_int (parsePositiveInt Number_of_string value fallback).
Proof.
  intro Hf. unfold parsePositiveInt. cbv zeta.
  set (parsed := match value with Some s => Number_of_string s | None => NaN end).
  destruct (Number_isInteger parsed) eqn:Hint; cbn [negb orb]; [| exact Hf].
  destruct (num_leb parsed (num 0)) eqn:Hle; [exact Hf |].
  apply isInteger_positive; [exact Hint | apply not_leb_gtb; assumption].
Qed.

(** X29: Whatever the environment and the overrides hold, the configuration in
    force has whole, positive [maxRepos] and [topPatchCount]; overrides
    never change [maxRepos]. *)
Theorem config_counts_positive (env : Env) (overrides : AppConfigOverrides) :
  let base := readConfig Number_of_string env in
  let config := applyConfigOverrides base overrides in
  positive_int (maxRepos base) /\ positive_int (topPatchCount base) /\
  positive_int (maxRepos config) /\ positive_int (topPatchCount config) /\
  maxRepos config = maxRepos base.
Proof.
  cbv zeta.
  assert (H5 : positive_int (num 5)) by (exists 5; split; [lia | reflexivity]).
  assert (H3 : positive_int (num 3)) by (exists 3; split; [lia | reflexivity]).
  pose proof (parsePositiveInt_positive (MAX_REPOS env) (num 5) H5) as Hm.
  pose proof (parsePositiveInt_positive (TOP_PATCH_COUNT env) (num 3) H3) as Ht.
  split; [exact Hm | split; [exact Ht | split; [exact Hm | split; [| reflexivity]]]].
  cbn [applyConfigOverrides topPatchCount readConfig].
  destruct (o_topPatchCount overrides) as [n |]; [| exact Ht].
  destruct (Number_isInteger n) eqn:Hint; cbn [andb]; [| exact Ht].
  destruct (num_gtb n (num 0)) eqn:Hpos; [| exact Ht].
  apply isInteger_positive; assumption.
Qed.

End Builtins.

Lemma existsb_string (s : string) (seen : list string) :
  existsb (String.eqb s) seen = true <-> In s seen.
Proof.
  rewrite existsb_exists. split.
  - intros [x [Hx E]]. apply String.eqb_eq in E. subst. exact Hx.
  - intro H. exists s. split; [exact H | apply String.eqb_refl].
Qed.

Lemma string_set_in (l seen : list string) (x : string) :
  In x (string_set seen l) <-> In x seen \/ In x l.
Proof.
  revert seen. induction l as [| s t IH]; intro seen; cbn [string_set].
  - rewrite <- in_rev. cbn [In]. tauto.
  - destruct (existsb (String.eqb s) seen) eqn:E; rewrite IH; cbn [In].
    + apply existsb_string in E. split; [tauto |].
      intros [H | [<- | H]]; auto.
    + split; [intros [[<- | H] | H] | intros [H | [<- | H]]]; auto.
Qed.

Lemma string_set_nodup (l seen : list string) :
  NoDup seen -> NoDup (string_set seen l).
Proof.
  revert seen. induction l as [| s t IH]; intros seen Hnd; cbn [string_set].
  - apply NoDup_rev, Hnd.
  - destruct (existsb (String.eqb s) seen) eqn:E; apply IH; [exact Hnd |].
    constructor; [| exact Hnd].
    intro H. apply existsb_string in H. congruence.
Qed.

Lemma is_empty_iff (s : string) : is_empty s = true <-> s = "".
Proof. destruct s; cbn; split; congruence. Qed.

Lemma forallb_is_space_white (l : list ascii) :
  Forall white l -> forallb is_space l = true.
Proof.
  intro H. apply forallb_forall. rewrite Forall_forall in H.
  intros c Hc. apply is_space_white, H, Hc.
Qed.

(** What [trim] gives is the only trimmed form. *)
Lemma trimmed_of_unique (s t : string) : trimmed_of s t -> t = trim s.
Proof.
  intros [a [b [E [Wa [Wb [Hf Hl]]]]]]. unfold trim. rewrite E.
  rewrite (ChatOpsRoundTrip.trim_blank_around a (chars t) b).
  - symmetry. apply str_of_chars.
  - apply forallb_is_space_white, Wa.
  - apply forallb_is_space_white, Wb.
  - split.
    + destruct (chars t) as [| c u] eqn:Et; [exact I |]. cbn.
      destruct (is_space c) eqn:Ec; [| reflexivity].
      exfalso. apply (Hf c u eq_refl), is_space_white, Ec.
    + destruct (rev (chars t)) as [| c u] eqn:Er; [exact I |]. cbn.
      destruct (is_space c) eqn:Ec; [| reflexivity].
      exfalso. apply (Hl (rev u) c); [| apply is_space_white, Ec].
      rewrite <- (rev_involutive (chars t)), Er. reflexivity.
Qed.

Lemma lower_comma (c : ascii) : lower_char c = ","%char -> c = ","%char.
Proof.
  assert (H : (if Ascii.eqb (lower_char c) "," then Ascii.eqb c "," else true) = true).
  { destruct c as [[] [] [] [] [] [] [] []]; vm_compute; reflexivity. }
  intro E. rewrite E in H. cbn in H. apply Ascii.eqb_eq, H.
Qed.

Lemma trim_chars_incl (l : list ascii) (c : ascii) :
  In c (trim_chars l) -> In c l.
Proof.
  intro H. destruct (trim_chars_split l) as [a [b [E _]]].
  rewrite E. apply in_or_app. right. apply in_or_app. left. exact H.
Qed.

Lemma entry_comma_free (piece : string) :
  ~ In ","%char (chars piece) ->
  ~ In ","%char (chars (toLowerCase (trim piece))).
Proof.
  intros Hp Hin. unfold toLowerCase, trim in Hin.
  rewrite !chars_of_list in Hin. apply in_map_iff in Hin.
  destruct Hin as [c [Ec Hc]]. apply lower_comma in Ec. subst c.
  apply Hp, (trim_chars_incl _ _ Hc).
Qed.

Lemma string_set_distinct (l seen : list string) :
  NoDup (rev seen ++ l) -> string_set seen l = (rev seen ++ l)%list.
Proof.
  revert seen. induction l as [| s t IH]; intros seen Hnd; cbn [string_set].
  - rewrite app_nil_r. reflexivity.
  - assert (Hs : existsb (String.eqb s) seen = false).
    { destruct (existsb (String.eqb s) seen) eqn:E; [| reflexivity].
      apply existsb_string in E. apply NoDup_remove_2 in Hnd.
      exfalso. apply Hnd, in_or_app. left. apply in_rev in E. exact E. }
    rewrite Hs, IH; cbn [rev]; rewrite <- app_assoc; [reflexivity | exact Hnd].
Qed.

Lemma filter_all {A : Type} (p : A -> bool) (l : list A) :
  (forall x, In x l -> p x = true) -> filter p l = l.
Proof.
  induction l as [| x t IH]; intro H; cbn; [reflexivity |].
  rewrite (H x (or_introl eq_refl)), IH; [reflexivity |].
  intros y Hy. apply H. right. exact Hy.
Qed.

Lemma map_fixed {A : Type} (f : A -> A) (l : list A) :
  (forall x, In x l -> f x = x) -> map f l = l.
Proof.
  induction l as [| x t IH]; intro H; cbn; [reflexivity |].
  rewrite (H x (or_introl eq_refl)), IH; [reflexivity |].
  intros y Hy. apply H. right. exact Hy.
Qed.

Lemma join_nonempty (sep x : string) (l : list string) :
  x <> "" -> join sep (x :: l) <> "".
Proof.
  intro Hx. destruct l as [| y t]; cbn [join String.concat]; [exact Hx |].
  destruct x; [congruence | discriminate].
Qed.

(** The code's view of an entry. *)
Lemma parseAllowlist_in (value : option string) (x : string) :
  In x (parseAllowlist value) <->
  x <> "" /\
  exists v piece, value = Some v /\ In piece (split_char ","%char v) /\
                  x = toLowerCase (trim piece).
Proof.
  unfold parseAllowlist. destruct value as [v |].
  - destruct (is_empty v) eqn:Ev.
    + apply is_empty_iff in Ev. subst v. split; [intros [] |].
      intros [Hne [v [piece [E [Hp ->]]]]]. inversion E. subst v.
      cbn in Hp. destruct Hp as [<- | []]. apply Hne. reflexivity.
    + rewrite string_set_in, filter_In, in_map_iff. cbn [In]. split.
      * intros [[] | [[piece [<- Hp]] Hne]]. split.
        -- intro E. rewrite E in Hne. discriminate.
        -- exists v, piece. auto.
      * intros [Hne [v' [piece [E [Hp ->]]]]]. inversion E. subst v'.
        right. split; [exists piece; auto |].
        destruct (toLowerCase (trim piece)); [congruence | reflexivity].
  - split; [intros [] |]. intros [_ [v [piece [E _]]]]. discriminate.
Qed.

Lemma parseAllowlist_nodup (value : option string) : NoDup (parseAllowlist value).
Proof.
  unfold parseAllowlist. destruct value as [v |]; [| constructor].
  destruct (is_empty v); [constructor |]. apply string_set_nodup. constructor.
Qed.

Lemma entry_normal (value : option string) (x : string) :
  In x (parseAllowlist value) ->
  x <> "" /\ ~ In ","%char (chars x) /\ trim x = x /\ toLowerCase x = x.
Proof.
  intro Hx. apply parseAllowlist_in in Hx.
  destruct Hx as [Hne [v [piece [_ [Hp ->]]]]].
  split; [exact Hne |]. split; [| split].
  - apply entry_comma_free.
    pose proof (pieces_of_split ","%char v) as [_ [_ HF]].
    rewrite Forall_forall in HF. apply HF, Hp.
  - rewrite trim_toLowerCase, trim_idempotent. reflexivity.
  - apply toLowerCase_idempotent.
Qed.

(** X30: The allowlist has no entry twice.  Its entries are exactly the
    texts that are not empty and that are the lower-cased form of a piece
    between the commas of the setting without the white space at its two
    ends.  So no entry holds a comma, white space at an end or a capital
    letter, and reading the entries back, joined by commas, gives the same
    list.  A missing or empty setting allows nothing. *)
Theorem parseAllowlist_entries (value : option string) :
  NoDup (parseAllowlist value) /\
  (forall x, In x (parseAllowlist value) <->
     x <> "" /\
     exists v pieces piece t,
       value = Some v /\ pieces_of ","%char v pieces /\ In piece pieces /\
       trimmed_of piece t /\ x = toLowerCase t) /\
  (forall x, In x (parseAllowlist value) ->
     ~ In ","%char (chars x) /\ trimmed_of x x /\ toLowerCase x = x) /\
  parseAllowlist (Some (join "," (parseAllowlist value))) = parseAllowlist value.
Proof.
  split; [apply parseAllowlist_nodup |]. split; [| split].
  - intro x. rewrite parseAllowlist_in. split.
    + intros [Hne [v [piece [E [Hp ->]]]]]. split; [exact Hne |].
      exists v, (split_char ","%char v), piece, (trim piece).
      split; [exact E |]. split; [apply pieces_of_split |].
      split; [exact Hp |]. split; [apply trimmed_of_trim | reflexivity].
    + intros [Hne [v [pieces [piece [t [E [Hs [Hp [Ht ->]]]]]]]]].
      split; [exact Hne |]. exists v, piece.
      rewrite <- (pieces_of_unique _ _ _ Hs), (trimmed_of_unique _ _ Ht). auto.
  - intros x Hx. destruct (entry_normal value x Hx) as [_ [Hc [Ht Hl]]].
    split; [exact Hc | split; [| exact Hl]].
    rewrite <- Ht at 2. apply trimmed_of_trim.
  - pose proof (parseAllowlist_nodup value) as Hnd.
    pose proof (entry_normal value) as Hn.
    destruct (parseAllowlist value) as [| e rest] eqn:E; [reflexivity |].
    unfold parseAllowlist at 1.
    assert (Hj : is_empty (join "," (e :: rest)) = false).
    { destruct (join "," (e :: rest)) eqn:Ej; [| reflexivity].
      exfalso. apply (join_nonempty "," e rest); [| exact Ej].
      apply (Hn e). left. reflexivity. }
    rewrite Hj.
    rewrite (split_join ","%char (e :: rest)).
    + rewrite map_fixed, filter_all.
      * apply (string_set_distinct (e :: rest) []). exact Hnd.
      * intros x Hx. destruct (Hn x Hx) as [Hne _].
        destruct x; [congruence | reflexivity].
      * intros x Hx. destruct (Hn x Hx) as [_ [_ [-> ->]]]. reflexivity.
    + discriminate.
    + apply Forall_forall. intros x Hx. apply (Hn x Hx).
Qed.


Lemma parseAllowlist_missing : parseAllowlist None = [] /\ parseAllowlist (Some "") = [].
Proof. split; reflexivity. Qed.

(** Capital letters beyond A-Z are lowered and a NO-BREAK SPACE is
    trimmed. *)
Lemma parseAllowlist_latin1 :
  parseAllowlist
    (Some (String (ascii_of_nat 201) "cole/Api" ++ String (ascii_of_nat 160) ",acme/web"))
  = [String (ascii_of_nat 233) "cole/api"; "acme/web"].
Proof. vm_compute. reflexivity. Qed.

End ConfigFacts.

(** ** thread.ts: the latest agent message *)

Module ThreadFacts.

Import Thread.

Lemma last_item_snoc {A : Type} (l : list A) (x : A) : last_item (l ++ [x]) = Some x.
Proof.
  induction l as [| y t IH]; [reflexivity |].
  cbn [app last_item]. rewrite IH.
  destruct (t ++ [x])%list eqn:E; [| reflexivity].
  destruct t; discriminate.
Qed.



Section Builtins.

Variable String_of : json -> string.

Local Abbreviation item_text := (Thread.item_text String_of).
Local Abbreviation extractAgentMessagesFromTurn :=
  (Thread.extractAgentMessagesFromTurn String_of).
Local Abbreviation extractLatestAgentMessage :=
  (Thread.extractLatestAgentMessage String_of).





(** A thread without turns, or whose last turn is [null], has no latest
    message. *)
Lemma no_turns_no_message (thread : AppThread) (earlier : list (option AppTurn)) :
  turns thread = None \/ turns thread = Some [] \/
  turns thread = Some (earlier ++ [None])%list ->
  extractLatestAgentMessage thread = Returned None.
Proof.
  unfold Thread.extractLatestAgentMessage. intros [-> | [-> | ->]]; try reflexivity.
  cbv zeta. rewrite last_item_snoc. reflexivity.
Qed.

(** A last turn without an array of items makes the call throw. *)
Lemma no_items_throws (thread : AppThread) (earlier : list (option AppTurn))
  (latest : AppTurn) :
  turns thread = Some (earlier ++ [Some latest])%list -> items latest = None ->
  extractLatestAgentMessage thread = Thrown "TypeError".
Proof.
  intros Ht Hi. unfold Thread.extractLatestAgentMessage. rewrite Ht. cbv zeta.
  rewrite last_item_snoc. unfold Thread.extractAgentMessagesFromTurn.
  rewrite Hi. reflexivity.
Qed.

End Builtins.

Definition agent_says (text : string) : json :=
  JObj [("type", JStr "agentMessage"); ("text", JStr text)].

Definition sample_turn (messages : list string) : AppTurn :=
  {| turn_id := "turn-1"; turn_status := "completed";
     items := Some (map agent_says messages) |}.

Definition sample_thread : AppThread :=
  {| thread_id := "thread-1";
     turns := Some [Some (sample_turn ["first"]); Some (sample_turn ["second"; ""])] |}.


Lemma sample_thread_latest :
  extractLatestAgentMessage (fun _ => "") sample_thread = Returned (Some "second").
Proof. reflexivity. Qed.

End ThreadFacts.

(** ** orchestrator.ts: patch jobs, cancellation, JSON in prose; report.ts *)

Module PatchFacts.

Import Orchestrator.

Section Jobs.

Variable World : Type.
Variable store : RunStore World.
Variable github : GitHubService World.
Variable String_of : json -> string.
Variable runPullRequest : Z -> M World unit.
Variable cancelRun : Z -> option string -> M World unit.
Variable renderPatchComment : string -> string -> list Diff.GithubSuggestion -> string.

Local Abbreviation handle :=
  (handleJob World store github String_of runPullRequest cancelRun renderPatchComment).

Definition no_patch_comment (findingId : string) : string :=
  "No generated patch is available for `" ++ findingId
    ++ "`. Re-run the analysis with `/codex rerun` to generate a fresh patch.".

(** X21: A patch_finding job looks the patches up by finding id alone.  When the
    run exists and there is no patch it is exactly the posting of the
    no-patch comment on the run's pull request; when there are patches it
    posts the first one only, with "Patch generated." for missing risk
    notes; when the run is missing it returns without posting; and it
    throws only what one of its collaborator calls throws. *)
Theorem patch_finding_job (runId : Z) (findingId : string) (w : World) :
  (forall run w1 w2,
      getRunWithRepo store runId w = (Returned (Some run), w1) ->
      listPatchesForFinding store findingId w1 = (Returned [], w2) ->
      handle (patch_finding runId findingId) w
      = createIssueComment github (context_of run) (run_prNumber run)
          (no_patch_comment findingId) w2) /\
  (forall run w1 w2 latest older,
      getRunWithRepo store runId w = (Returned (Some run), w1) ->
      listPatchesForFinding store findingId w1 = (Returned (latest :: older), w2) ->
      handle (patch_finding runId findingId) w
      = createIssueComment github (context_of run) (run_prNumber run)
          (renderPatchComment findingId
             (match patch_riskNotes latest with
              | Some notes => notes
              | None => "Patch generated."
              end)
             (patch_suggestions latest)) w2) /\
  (forall w1,
      getRunWithRepo store runId w = (Returned None, w1) ->
      handle (patch_finding runId findingId) w = (Returned tt, w1)) /\
  (forall e w',
      handle (patch_finding runId findingId) w = (Thrown e, w') ->
      getRunWithRepo store runId w = (Thrown e, w') \/
      exists run w1,
        getRunWithRepo store runId w = (Returned (Some run), w1) /\
        (listPatchesForFinding store findingId w1 = (Thrown e, w') \/
         exists patches w2 body,
           listPatchesForFinding store findingId w1 = (Returned patches, w2) /\
           createIssueComment github (context_of run) (run_prNumber run) body w2
           = (Thrown e, w'))).
Proof.
  cbn [handleJob]. unfold patchFinding, bind, ret, no_patch_comment.
  split; [| split; [| split]].
  - intros run w1 w2 Hrun Hp. rewrite Hrun, Hp. reflexivity.
  - intros run w1 w2 latest older Hrun Hp. rewrite Hrun, Hp. reflexivity.
  - intros w1 Hrun. rewrite Hrun. reflexivity.
  - intros e w'.
    destruct (getRunWithRepo store runId w) as [[[run |] | e0] w1] eqn:Hrun.
    + destruct (listPatchesForFinding store findingId w1)
        as [[[| latest older] | e1] w2] eqn:Hp.
      * intro H. right. exists run, w1. split; [reflexivity |]. right.
        exists [], w2. eexists. split; [exact Hp | exact H].
      * intro H. right. exists run, w1. split; [reflexivity |]. right.
        exists (latest :: older), w2. eexists. split; [exact Hp | exact H].
      * intro H. right. exists run, w1. split; [reflexivity |]. left.
        rewrite Hp. inversion H. reflexivity.
    + discriminate.
    + intro H. left. inversion H. reflexivity.
Qed.

End Jobs.

End PatchFacts.

Module CancelFacts.

Import Orchestrator OrchestratorMore.

Section Cancel.

Variable World : Type.
Variable Client : Type.
Variable requestCancel : Z -> string -> M World unit.
Variable updateRunStatus : Z -> string -> option string -> M World unit.
Variable interrupt : Client -> string -> string -> M World unit.

Local Abbreviation cancel :=
  (cancelRun World Client requestCancel updateRunStatus interrupt).

Definition reason_or_default (reason : option string) : string :=
  match reason with Some r => r | None => "Cancellation requested" end.

(** The live turn of a run, if the registry has one. *)
Definition live_turn (activeRuns : list (Z * ActiveRunContext Client)) (runId : Z)
  : option (Client * string * string) :=
  match map_get Z.eqb activeRuns runId with
  | Some context =>
      match currentTurn context with
      | Some (threadId, turnId) => Some (client context, threadId, turnId)
      | None => None
      end
  | None => None
  end.

(** X22: [cancelRun] first records the request, with the default reason when
    none is given, and fails if that fails.  With a live turn it then sends
    the interrupt and returns normally even when the interrupt throws,
    without setting the run's status; without one it is the status update
    to "canceled". *)
Theorem cancelRun_best_effort (activeRuns : list (Z * ActiveRunContext Client))
  (runId : Z) (reason : option string) (w : World) :
  let why := reason_or_default reason in
  (forall e w1,
      requestCancel runId why w = (Thrown e, w1) ->
      cancel activeRuns runId reason w = (Thrown e, w1)) /\
  (forall w1 c threadId turnId,
      requestCancel runId why w = (Returned tt, w1) ->
      live_turn activeRuns runId = Some (c, threadId, turnId) ->
      cancel activeRuns runId reason w
      = (Returned tt, snd (interrupt c threadId turnId w1))) /\
  (forall w1,
      requestCancel runId why w = (Returned tt, w1) ->
      live_turn activeRuns runId = None ->
      cancel activeRuns runId reason w
      = updateRunStatus runId "canceled" (Some why) w1).
Proof.
  cbv zeta. unfold cancelRun, live_turn, reason_or_default, bind.
  split; [| split].
  - intros e w1 H. rewrite H. reflexivity.
  - intros w1 c threadId turnId H Hlive. rewrite H.
    destruct (map_get Z.eqb activeRuns runId) as [context |]; [| discriminate].
    destruct (currentTurn context) as [[t u] |]; [| discriminate].
    inversion Hlive. subst. unfold swallow.
    destruct (interrupt (client context) threadId turnId w1) as [[[] | e] w2];
      reflexivity.
  - intros w1 H Hlive. rewrite H.
    destruct (map_get Z.eqb activeRuns runId) as [context |]; [| reflexivity].
    destruct (currentTurn context) as [[t u] |]; [discriminate | reflexivity].
Qed.

End Cancel.

End CancelFacts.

Module JsonBlobFacts.

Import Orchestrator StringFacts.

Lemma drop_until (c : ascii) (pre rest : list ascii) :
  forallb (not_char c) pre = true ->
  drop_while (not_char c) (pre ++ c :: rest) = c :: rest.
Proof.
  induction pre as [| x t IH]; cbn [forallb app drop_while].
  - intros _. unfold not_char. rewrite Ascii.eqb_refl. reflexivity.
  - intro H. apply andb_true_iff in H. destruct H as [-> Ht]. apply IH, Ht.
Qed.

Lemma forallb_reversed {A : Type} (p : A -> bool) (l : list A) :
  forallb p (rev l) = forallb p l.
Proof.
  induction l as [| x t IH]; [reflexivity |].
  cbn [rev forallb]. rewrite forallb_app, IH. cbn [forallb].
  rewrite andb_true_r. apply andb_comm.
Qed.

(** The regular expression takes the text from the first opening brace to
    the last closing brace. *)
Lemma match_braces_span (pre mid post : string) :
  forallb (not_char "{"%char) (chars pre) = true ->
  forallb (not_char "}"%char) (chars post) = true ->
  match_braces (pre ++ "{" ++ mid ++ "}" ++ post) = Some ("{" ++ mid ++ "}").
Proof.
  intros Hpre Hpost. unfold match_braces.
  rewrite !chars_append.
  change (chars "{") with ["{"%char]. change (chars "}") with ["}"%char].
  cbn [app]. rewrite (drop_until _ _ _ Hpre).
  rewrite rev_app_distr. cbn [rev app]. rewrite <- app_assoc. cbn [app].
  rewrite drop_until by (rewrite forallb_reversed; exact Hpost).
  cbn [rev]. rewrite rev_involutive.
  f_equal. rewrite <- (str_chars ("{" ++ mid ++ "}")). rewrite !chars_append.
  reflexivity.
Qed.

Lemma drop_while_none (p : ascii -> bool) (l : list ascii) :
  forallb p l = true -> drop_while p l = [].
Proof.
  induction l as [| x t IH]; cbn [forallb drop_while]; [reflexivity |].
  intro H. apply andb_true_iff in H. destruct H as [-> Ht]. apply IH, Ht.
Qed.

Section Parsing.

Variable JSON_parse : string -> option json.

Local Abbreviation parseJsonBlob := (Orchestrator.parseJsonBlob JSON_parse).

(** X23: Text that parses is returned as parsed.  Text that does not parse is
    cut down to the span from its first opening brace to its last closing
    brace, and that span is parsed instead; without an opening brace there
    is no result. *)
Theorem parseJsonBlob_strips_prose (pre mid post : string) :
  forallb (not_char "{"%char) (chars pre) = true ->
  forallb (not_char "}"%char) (chars post) = true ->
  let input := pre ++ "{" ++ mid ++ "}" ++ post in
  (forall v, JSON_parse input = Some v -> parseJsonBlob input = Some v) /\
  (JSON_parse input = None ->
   parseJsonBlob input = JSON_parse ("{" ++ mid ++ "}")) /\
  (JSON_parse pre = None -> parseJsonBlob pre = None).
Proof.
  intros Hpre Hpost. cbv zeta. unfold Orchestrator.parseJsonBlob.
  split; [| split].
  - intros v ->. reflexivity.
  - intros ->. rewrite (match_braces_span _ _ _ Hpre Hpost). reflexivity.
  - intros ->. unfold match_braces. rewrite (drop_while_none _ _ Hpre). reflexivity.
Qed.

End Parsing.

Lemma parseJsonBlob_strips_prose_witness :
  Orchestrator.parseJsonBlob Reference.JSON_parse "Here it is: {} Done."
  = Some (JObj []).
Proof.
  exact (proj1 (proj2 (parseJsonBlob_strips_prose Reference.JSON_parse
                         "Here it is: " "" " Done." eq_refl eq_refl))
           eq_refl).
Defined.

End JsonBlobFacts.

Module SummaryFacts.

Import Findings OrchestratorMore.

Definition severity_eqb (a b : Severity) : bool :=
  match a, b with
  | low, low | medium, medium | high, high | critical, critical => true
  | _, _ => false
  end.

(** The number of findings of one severity. *)
Definition count_of (sev : Severity) (findings : list RankedFinding) : Z :=
  Z.of_nat (List.length (filter (fun f : RankedFinding => severity_eqb (severity f) sev)
                           findings)).

Lemma counts_from (findings : list RankedFinding) (c h m l : Z) :
  fold_left (fun counts (finding : RankedFinding) => count_step counts (severity finding))
    findings (c, h, m, l)
  = (c + count_of critical findings, h + count_of high findings,
     m + count_of medium findings, l + count_of low findings).
Proof.
  revert c h m l. induction findings as [| f t IH]; intros c h m l.
  - unfold count_of. cbn. rewrite !Z.add_0_r. reflexivity.
  - cbn [fold_left]. unfold count_step at 2.
    unfold count_of. cbn [filter].
    destruct (severity f); rewrite IH; unfold count_of;
      cbn [severity_eqb List.length]; rewrite !pair_equal_spec; lia.
Qed.

(** X24: The run summary prints the number of findings and, for each severity,
    the number of findings of that severity; the four numbers add up to
    the first. *)
Theorem renderRunSummary_counts (findings : list RankedFinding) :
  renderRunSummary findings
  = "Findings: " ++ Z_toString (Z.of_nat (List.length findings))
      ++ " (critical: " ++ Z_toString (count_of critical findings)
      ++ ", high: " ++ Z_toString (count_of high findings)
      ++ ", medium: " ++ Z_toString (count_of medium findings)
      ++ ", low: " ++ Z_toString (count_of low findings) ++ ")" /\
  count_of critical findings + count_of high findings
  + count_of medium findings + count_of low findings
  = Z.of_nat (List.length findings).
Proof.
  split.
  - unfold renderRunSummary, severity_counts. rewrite counts_from. reflexivity.
  - unfold count_of. induction findings as [| f t IH]; [reflexivity |].
    cbn [filter]. destruct (severity f); cbn [severity_eqb List.length]; lia.
Qed.

End SummaryFacts.

(** ** [Map] with any decidable key *)

Module MapLaws.

Section Laws.
Context {K V : Type}.
Variable eqb : K -> K -> bool.
Hypothesis eqb_eq : forall a b, eqb a b = true <-> a = b.
Implicit Types (m : list (K * V)) (k : K) (v : V).

Lemma eqb_same k : eqb k k = true.
Proof. apply eqb_eq. reflexivity. Qed.

Lemma eqb_differ k k0 : k <> k0 -> eqb k k0 = false.
Proof.
  intro H. destruct (eqb k k0) eqn:E; [| reflexivity].
  apply eqb_eq in E. contradiction.
Qed.

Lemma get_set_eq m k v : map_get eqb (map_set eqb m k v) k = Some v.
Proof.
  induction m as [| [k' v'] t IH]; cbn [map_set map_get].
  - rewrite eqb_same. reflexivity.
  - destruct (eqb k' k) eqn:E; cbn [map_get]; rewrite E; [reflexivity | exact IH].
Qed.

Lemma get_set_neq m k k0 v :
  k <> k0 -> map_get eqb (map_set eqb m k v) k0 = map_get eqb m k0.
Proof.
  intro Hne. induction m as [| [k' v'] t IH]; cbn [map_set map_get].
  - rewrite (eqb_differ _ _ Hne). reflexivity.
  - destruct (eqb k' k) eqn:E; cbn [map_get].
    + apply eqb_eq in E. subst k'. rewrite (eqb_differ _ _ Hne). reflexivity.
    + rewrite IH. reflexivity.
Qed.

Lemma get_absent m k : map_get eqb m k = None <-> ~ In k (map fst m).
Proof.
  induction m as [| [k' v'] t IH]; cbn [map_get map fst In]; [tauto |].
  destruct (eqb k' k) eqn:E.
  - apply eqb_eq in E. split; [discriminate | tauto].
  - rewrite IH. split; [| tauto].
    intros H [E' | H']; [| tauto]. subst. rewrite eqb_same in E. discriminate.
Qed.

Lemma get_present m k v : map_get eqb m k = Some v -> In (k, v) m.
Proof.
  induction m as [| [k' v'] t IH]; cbn [map_get In]; [discriminate |].
  destruct (eqb k' k) eqn:E; [| auto].
  apply eqb_eq in E. intro H. inversion H. subst. left. reflexivity.
Qed.

Lemma set_absent m k v :
  map_get eqb m k = None -> map_set eqb m k v = (m ++ [(k, v)])%list.
Proof.
  induction m as [| [k' v'] t IH]; cbn [map_get map_set app]; [reflexivity |].
  destruct (eqb k' k); [discriminate |]. intro H. rewrite (IH H). reflexivity.
Qed.

Lemma set_keys m k v :
  map fst (map_set eqb m k v)
  = match map_get eqb m k with
    | Some _ => map fst m
    | None => (map fst m ++ [k])%list
    end.
Proof.
  induction m as [| [k' v'] t IH]; cbn [map_set map_get map fst app]; [reflexivity |].
  destruct (eqb k' k) eqn:E; cbn [map fst]; [reflexivity |].
  rewrite IH. destruct (map_get eqb t k); reflexivity.
Qed.

Lemma set_keys_nodup m k v :
  NoDup (map fst m) -> NoDup (map fst (map_set eqb m k v)).
Proof.
  intro Hnd. rewrite set_keys. destruct (map_get eqb m k) eqn:E; [exact Hnd |].
  apply get_absent in E.
  apply NoDup_app; [exact Hnd | repeat constructor; intros [] |].
  intros x Hx [<- | []]. exact (E Hx).
Qed.

Lemma set_entries m k v (e : K * V) :
  In e (map_set eqb m k v) -> e = (k, v) \/ In e m.
Proof.
  induction m as [| [k' v'] t IH]; cbn [map_set In].
  - intros [<- | []]. left. reflexivity.
  - destruct (eqb k' k) eqn:E; cbn [In].
    + apply eqb_eq in E. subst k'. intros [<- | H]; auto.
    + intros [<- | H]; [auto |]. destruct (IH H); auto.
Qed.

Lemma delete_incl m k : incl (map_delete eqb m k) m.
Proof.
  induction m as [| [k' v'] t IH]; cbn [map_delete]; [apply incl_refl |].
  destruct (eqb k' k).
  - intros x Hx. right. exact Hx.
  - intros x [<- | Hx]; [left; reflexivity | right; apply IH, Hx].
Qed.

Lemma delete_keys_incl m k : incl (map fst (map_delete eqb m k)) (map fst m).
Proof.
  intros x Hx. apply in_map_iff in Hx. destruct Hx as [e [<- He]].
  apply in_map, (delete_incl m k), He.
Qed.

Lemma delete_keys_nodup m k :
  NoDup (map fst m) -> NoDup (map fst (map_delete eqb m k)).
Proof.
  induction m as [| [k' v'] t IH]; cbn [map_delete map fst]; [auto |].
  intro Hnd. inversion Hnd as [| ? ? Hnot Hnd']. subst.
  destruct (eqb k' k); [exact Hnd' |].
  cbn [map fst]. constructor; [| apply IH, Hnd'].
  intro H. apply Hnot. apply (delete_keys_incl t k), H.
Qed.

Lemma get_delete_eq m k :
  NoDup (map fst m) -> map_get eqb (map_delete eqb m k) k = None.
Proof.
  induction m as [| [k' v'] t IH]; cbn [map_delete map fst]; [reflexivity |].
  intro Hnd. inversion Hnd as [| ? ? Hnot Hnd']. subst.
  destruct (eqb k' k) eqn:E.
  - apply eqb_eq in E. subst k'. apply get_absent, Hnot.
  - cbn [map_get]. rewrite E. apply IH, Hnd'.
Qed.

Lemma get_delete_neq m k k0 :
  k <> k0 -> map_get eqb (map_delete eqb m k) k0 = map_get eqb m k0.
Proof.
  intro Hne. induction m as [| [k' v'] t IH]; cbn [map_delete map_get]; [reflexivity |].
  destruct (eqb k' k) eqn:E.
  - apply eqb_eq in E. subst k'. rewrite (eqb_differ _ _ Hne). reflexivity.
  - cbn [map_get]. rewrite IH. reflexivity.
Qed.

End Laws.

End MapLaws.

(** ** client.ts: the request table, the turn cache, and what a line does *)

Module ClientProtocol.

Import Client ClientQueries MapLaws.

Ltac crack s :=
  let b0 := fresh "b" in let b1 := fresh "b" in let b2 := fresh "b" in
  let b3 := fresh "b" in let b4 := fresh "b" in let b5 := fresh "b" in
  let b6 := fresh "b" in let b7 := fresh "b" in
  destruct s as [| [b0 b1 b2 b3 b4 b5 b6 b7] s];
  [ try reflexivity
  | destruct b0; try reflexivity; destruct b1; try reflexivity;
    destruct b2; try reflexivity; destruct b3; try reflexivity;
    destruct b4; try reflexivity; destruct b5; try reflexivity;
    destruct b6; try reflexivity; destruct b7; try reflexivity ].

(** The dispatch on the method of a notification, as a chain of tests. *)
Lemma method_match {T : Type} (A B C D : T) (s : string) :
  match s with
  | "turn/completed" => A
  | "turn/diff/updated" => B
  | "thread/tokenUsage/updated" => C
  | _ => D
  end
  = if String.eqb s "turn/completed" then A
    else if String.eqb s "turn/diff/updated" then B
    else if String.eqb s "thread/tokenUsage/updated" then C
    else D.
Proof. do 26 (try crack s). Qed.

(** What can happen to a client: the calls of its user and the events of
    its child process and timers. *)
Inductive Call : Type :=
| call_start
| call_stop
| call_request (method_ : string) (params : option json)
| call_wait (threadId turnId : string) (timeoutMs : Z)
| turn_timer_fires (key : string)
| kill_timer_fires
| stdout_line (line : string)
| child_exit (code : option Z) (signal : option string)
| child_error (message : string).

(** The tables are well formed: the ids of the pending requests are
    distinct and were all handed out, and so are the timers of the turn
    waiters, one waiter per key. *)
Record consistent (st : State) : Prop := {
  next_id_positive : 1 <= nextRequestId st;
  next_handle_natural : 0 <= nextHandle st;
  ids_distinct : NoDup (map fst (pendingResponses st));
  ids_issued : forall id, In id (map fst (pendingResponses st)) ->
                          1 <= id < nextRequestId st;
  waiters_distinct : NoDup (map fst (turnWaiters st));
  timers_issued : forall key w, In (key, w) (turnWaiters st) ->
                                0 <= timer w < nextHandle st
}.

(** Effects that settle a promise or report, and touch neither the child
    process nor the timers to come. *)
Definition settles_only (e : Effect) : bool :=
  match e with
  | Emit _ _ | ResolveRequest _ _ | RejectRequest _ _
  | ResolveTurn _ _ | ClearTimeout _ => true
  | _ => false
  end.

Lemma consistent_shrunk (st st' : State) :
  consistent st ->
  nextRequestId st' = nextRequestId st ->
  nextHandle st <= nextHandle st' ->
  incl (pendingResponses st') (pendingResponses st) ->
  NoDup (map fst (pendingResponses st')) ->
  incl (turnWaiters st') (turnWaiters st) ->
  NoDup (map fst (turnWaiters st')) ->
  consistent st'.
Proof.
  intros [H1 H2 H3 H4 H5 H6] Eid Hh Hp Hpn Hw Hwn. constructor.
  - rewrite Eid. exact H1.
  - lia.
  - exact Hpn.
  - intros id Hin. rewrite Eid. apply H4.
    apply in_map_iff in Hin. destruct Hin as [e [<- He]].
    apply in_map, Hp, He.
  - exact Hwn.
  - intros key w Hin. specialize (H6 key w (Hw _ Hin)). lia.
Qed.

Lemma create_consistent (bin : option string) : consistent (create bin).
Proof.
  constructor; cbn; try lia; try constructor; intros; contradiction.
Qed.

Lemma start_consistent (st : State) : consistent st -> consistent (fst (start st)).
Proof.
  intro H. unfold start. destruct (child st); [exact H |].
  apply (consistent_shrunk st _ H); cbn; try apply incl_refl; try lia; apply H.
Qed.

Lemma start_fields (st : State) :
  nextRequestId (fst (start st)) = nextRequestId st /\
  pendingResponses (fst (start st)) = pendingResponses st /\
  turnWaiters (fst (start st)) = turnWaiters st /\
  child (fst (start st)) <> None.
Proof.
  unfold start. destruct (child st) eqn:E; cbn; rewrite ?E; repeat split; discriminate.
Qed.

Lemma stop_consistent (st : State) : consistent st -> consistent (fst (stop st)).
Proof.
  intro H. unfold stop. destruct (child st); [| exact H].
  apply (consistent_shrunk st _ H); cbn; try apply incl_refl; try lia; apply H.
Qed.

Lemma failAllPending_consistent (reason : string) (st : State) :
  consistent st -> consistent (fst (failAllPending reason st)).
Proof.
  intro H. apply (consistent_shrunk st _ H); cbn; try lia;
    try apply NoDup_nil; intros ? [].
Qed.

Lemma timeout_consistent (key : string) (st : State) :
  consistent st -> consistent (fst (on_turn_timeout key st)).
Proof.
  intro H. apply (consistent_shrunk st _ H); cbn; try lia; try apply incl_refl.
  - apply H.
  - apply delete_incl.
  - apply delete_keys_nodup, H.
Qed.

Section Builtins.

Variable JSON_stringify : json -> string.
Variable JSON_parse : string -> option json.

Local Abbreviation request := (Client.request JSON_stringify).
Local Abbreviation handleStdoutLine := (Client.handleStdoutLine JSON_parse).

Definition perform (c : Call) (st : State) : State * list Effect :=
  match c with
  | call_start => start st
  | call_stop => stop st
  | call_request method_ params => request method_ params st
  | call_wait threadId turnId timeoutMs =>
      waitForTurnCompletion threadId turnId timeoutMs st
  | turn_timer_fires key => on_turn_timeout key st
  | kill_timer_fires => on_kill_timeout st
  | stdout_line line => handleStdoutLine line st
  | child_exit code signal => on_exit code signal st
  | child_error message => on_error message st
  end.

Fixpoint perform_all (calls : list Call) (st : State) : State * list Effect :=
  match calls with
  | [] => (st, [])
  | c :: rest =>
      let (st1, first) := perform c st in
      let (st2, later) := perform_all rest st1 in
      (st2, (first ++ later)%list)
  end.

(** *** Requests *)

Lemma request_shape (method_ : string) (params : option json) (st : State) :
  let id := nextRequestId st in
  let st' := fst (request method_ params st) in
  snd (request method_ params st)
  = (snd (start st)
     ++ [StdinWrite
           (JsonRpc.encodeJsonRpcRequest JSON_stringify (num id) method_ params
              ++ String LF "")])%list /\
  pendingResponses st'
  = map_set Z.eqb (pendingResponses st) id {| method := method_ |} /\
  nextRequestId st' = id + 1 /\
  turnWaiters st' = turnWaiters st /\
  nextHandle st' = nextHandle (fst (start st)) /\
  child st' <> None.
Proof.
  cbv zeta. unfold Client.request.
  destruct (start_fields st) as [E1 [E2 [E3 E4]]].
  destruct (start st) as [st1 spawned]. cbn [fst snd] in *.
  rewrite E1, E2. repeat split; assumption.
Qed.

Lemma pending_id_absent (st : State) :
  consistent st -> map_get Z.eqb (pendingResponses st) (nextRequestId st) = None.
Proof.
  intro H. apply (get_absent Z.eqb Z.eqb_eq). intro Hin.
  apply (ids_issued st H) in Hin. lia.
Qed.

Lemma request_consistent (method_ : string) (params : option json) (st : State) :
  consistent st -> consistent (fst (request method_ params st)).
Proof.
  intro H.
  destruct (request_shape method_ params st) as [_ [Ep [En [Ew [Eh _]]]]].
  pose proof (start_consistent st H) as Hs.
  constructor.
  - rewrite En. pose proof (next_id_positive st H). lia.
  - rewrite Eh. apply Hs.
  - rewrite Ep. apply (set_keys_nodup Z.eqb Z.eqb_eq), H.
  - intros id Hin. rewrite En. rewrite Ep in Hin.
    apply in_map_iff in Hin. destruct Hin as [e [<- He]].
    apply set_entries in He; [| exact Z.eqb_eq]. destruct He as [-> | He].
    + cbn [fst]. pose proof (next_id_positive st H). lia.
    + pose proof (ids_issued st H (fst e) (in_map fst _ _ He)). lia.
  - rewrite Ew. apply H.
  - intros key w Hin. rewrite Ew in Hin. rewrite Eh.
    pose proof (timers_issued st H key w Hin) as Ht.
    assert (Hle : nextHandle st <= nextHandle (fst (start st))).
    { unfold start. destruct (child st); cbn; lia. }
    lia.
Qed.

Lemma start_with_child (st : State) : child st <> None -> start st = (st, []).
Proof. unfold start. destruct (child st); [reflexivity | congruence]. Qed.

(** X14: With the child process in place, in a well-formed state, [request]
    runs to its end without waiting: it takes the next id, which no
    pending request has, adds it to the table as the last entry, writes the
    encoded request and a newline to the child and nothing else, and leaves
    the child as it is and the state well formed.  (Without a child the
    call first waits for [start]; that path is not covered.) *)
Theorem request_registers_fresh_id
  (method_ : string) (params : option json) (st : State) :
  consistent st -> child st <> None ->
  let id := nextRequestId st in
  let st' := fst (request method_ params st) in
  snd (request method_ params st)
  = [StdinWrite
       (JsonRpc.encodeJsonRpcRequest JSON_stringify (num id) method_ params
          ++ String LF "")] /\
  map_get Z.eqb (pendingResponses st) id = None /\
  pendingResponses st' = (pendingResponses st ++ [(id, {| method := method_ |})])%list /\
  nextRequestId st' = id + 1 /\
  child st' = child st /\
  consistent st'.
Proof.
  intros H Hc. cbv zeta.
  destruct (request_shape method_ params st) as [Ee [Ep [En _]]].
  pose proof (pending_id_absent st H) as Habs.
  rewrite (start_with_child st Hc) in Ee. cbn [snd app] in Ee.
  split; [exact Ee | split; [exact Habs | split; [| split; [exact En | split]]]].
  - rewrite Ep. apply (set_absent Z.eqb), Habs.
  - unfold Client.request. rewrite (start_with_child st Hc). reflexivity.
  - apply request_consistent, H.
Qed.

(** *** Responses *)

Lemma response_id (response : json) (id : Z) (st : State) :
  prop response "id" = Some (JNum (num id)) ->
  handleResponse response st
  = match map_get Z.eqb (pendingResponses st) id with
    | None => (st, [])
    | Some pending =>
        let st' :=
          with_tables st (map_delete Z.eqb (pendingResponses st) id)
            (turnWaiters st) in
        match prop response "error" with
        | Some err =>
            let message :=
              match prop err "message" with Some (JStr m) => m | _ => "undefined" end in
            (st', [RejectRequest id (method pending ++ " failed: " ++ message)])
        | None =>
            (st', [ResolveRequest id (json_or_null (prop response "result"))])
        end
    end.
Proof.
  intro Hid. unfold handleResponse. rewrite Hid. unfold num.
  rewrite NormalizeFacts.Qfloor_qz, NumberFacts.Qc_eq_bool_refl. reflexivity.
Qed.

Lemma response_consistent (response : json) (st : State) :
  consistent st -> consistent (fst (handleResponse response st)).
Proof.
  intro H. unfold handleResponse.
  destruct (prop response "id") as [[| | [| | q |] | | |] |]; try exact H.
  destruct (if Qc_eq_bool (qz (Qfloor q)) q
            then map_get Z.eqb (pendingResponses st) (Qfloor q) else None);
    [| exact H].
  assert (Hc : consistent
                 (with_tables st (map_delete Z.eqb (pendingResponses st) (Qfloor q))
                    (turnWaiters st))).
  { apply (consistent_shrunk st _ H); cbn; try lia; try apply incl_refl.
    - apply delete_incl.
    - apply delete_keys_nodup, H.
    - apply H. }
  cbv zeta. destruct (prop response "error"); exact Hc.
Qed.

(** X15: A response whose id is pending settles that request and no other: it
    resolves it with the result, or rejects it with the method and the
    error's message; the id then leaves the table, so that a second
    response with the same id does nothing. *)
Theorem response_settles_once
  (response : json) (id : Z) (pending : PendingResponse) (st : State) :
  consistent st ->
  prop response "id" = Some (JNum (num id)) ->
  map_get Z.eqb (pendingResponses st) id = Some pending ->
  let st' := fst (handleResponse response st) in
  (prop response "error" = None ->
   snd (handleResponse response st)
   = [ResolveRequest id (json_or_null (prop response "result"))]) /\
  (forall err message,
      prop response "error" = Some err ->
      prop err "message" = Some (JStr message) ->
      snd (handleResponse response st)
      = [RejectRequest id (method pending ++ " failed: " ++ message)]) /\
  map_get Z.eqb (pendingResponses st') id = None /\
  (forall other, other <> id ->
     map_get Z.eqb (pendingResponses st') other
     = map_get Z.eqb (pendingResponses st) other) /\
  turnWaiters st' = turnWaiters st /\
  handleResponse response st' = (st', []) /\
  consistent st'.
Proof.
  intros H Hid Hp. cbv zeta.
  pose proof (response_consistent response st H) as Hc.
  pose proof (response_id response id st Hid) as E. rewrite Hp in E. cbv zeta in E.
  assert (Hst : fst (handleResponse response st)
                = with_tables st (map_delete Z.eqb (pendingResponses st) id)
                    (turnWaiters st)).
  { rewrite E. destruct (prop response "error"); reflexivity. }
  assert (Hgone : map_get Z.eqb
                    (pendingResponses (fst (handleResponse response st))) id = None).
  { rewrite Hst. cbn. apply (get_delete_eq Z.eqb Z.eqb_eq), H. }
  split; [| split; [| split; [exact Hgone | split; [| split; [| split]]]]].
  - intro He. rewrite E, He. reflexivity.
  - intros err message He Hm. rewrite E, He. cbv zeta. rewrite Hm. reflexivity.
  - intros other Hne. rewrite Hst. cbn.
    apply (get_delete_neq Z.eqb Z.eqb_eq). congruence.
  - rewrite Hst. reflexivity.
  - rewrite (response_id response id _ Hid), Hgone. reflexivity.
  - exact Hc.
Qed.

(** *** Notifications *)

Lemma notification_cases (notification : json) (st : State) :
  let st' := fst (handleNotification notification st) in
  codexBin st' = codexBin st /\ child st' = child st /\
  nextRequestId st' = nextRequestId st /\ nextHandle st' = nextHandle st /\
  pendingResponses st' = pendingResponses st /\
  (turnWaiters st' = turnWaiters st \/
   exists key, turnWaiters st' = map_delete String.eqb (turnWaiters st) key) /\
  forallb settles_only (snd (handleNotification notification st)) = true.
Proof.
  cbv zeta. unfold handleNotification. cbv zeta.
  destruct (prop notification "method") as [[| | | s | |] |];
    try solve [cbn; repeat split; auto].
  rewrite method_match.
  destruct (String.eqb s "turn/completed").
  { destruct (map_get String.eqb (turnWaiters st) _) as [waiter |];
      cbn; repeat split; eauto. }
  destruct (String.eqb s "turn/diff/updated"); [cbn; repeat split; auto |].
  destruct (String.eqb s "thread/tokenUsage/updated"); cbn; repeat split; auto.
Qed.

Lemma response_cases (response : json) (st : State) :
  let st' := fst (handleResponse response st) in
  codexBin st' = codexBin st /\ child st' = child st /\
  nextRequestId st' = nextRequestId st /\ nextHandle st' = nextHandle st /\
  (pendingResponses st' = pendingResponses st \/
   exists id, pendingResponses st' = map_delete Z.eqb (pendingResponses st) id) /\
  turnWaiters st' = turnWaiters st /\
  forallb settles_only (snd (handleResponse response st)) = true.
Proof.
  cbv zeta. unfold handleResponse.
  destruct (prop response "id") as [[| | [| | q |] | | |] |];
    try solve [cbn; repeat split; auto].
  destruct (if Qc_eq_bool (qz (Qfloor q)) q
            then map_get Z.eqb (pendingResponses st) (Qfloor q) else None);
    [| cbn; repeat split; auto].
  cbv zeta. destruct (prop response "error"); cbn; repeat split; eauto.
Qed.

Lemma line_cases (line : string) (st : State) :
  let st' := fst (handleStdoutLine line st) in
  codexBin st' = codexBin st /\ child st' = child st /\
  nextRequestId st' = nextRequestId st /\ nextHandle st' = nextHandle st /\
  (pendingResponses st' = pendingResponses st \/
   exists id, pendingResponses st' = map_delete Z.eqb (pendingResponses st) id) /\
  (turnWaiters st' = turnWaiters st \/
   exists key, turnWaiters st' = map_delete String.eqb (turnWaiters st) key) /\
  forallb settles_only (snd (handleStdoutLine line st)) = true.
Proof.
  cbv zeta. unfold Client.handleStdoutLine.
  destruct (is_empty (trim line)); [cbn; repeat split; auto |].
  destruct (JsonRpc.parseJsonRpcMessage JSON_parse line) as [message | e];
    [| cbn; repeat split; auto].
  destruct (JsonRpc.has_prop message "id"
            && (JsonRpc.has_prop message "result" || JsonRpc.has_prop message "error")).
  - destruct (response_cases message st) as [H1 [H2 [H3 [H4 [H5 [H6 H7]]]]]].
    repeat split; auto.
  - destruct (notification_cases message st) as [H1 [H2 [H3 [H4 [H5 [H6 H7]]]]]].
    repeat split; auto.
Qed.

(** The handlers run to their end on the message: they read no property
    of [null] or [undefined].  A response carries no [error] that is
    [null]; a turn/completed notification has a [turn] in its params that
    is not [null]; a turn/diff/updated notification has params that are
    not [null]; a thread/tokenUsage/updated notification has a
    [tokenUsage] in its params that is not [null]. *)
Definition present (v : option json) : bool :=
  match v with
  | None | Some JNull => false
  | Some _ => true
  end.

Definition runs_through (message : json) : bool :=
  if JsonRpc.has_prop message "id"
     && (JsonRpc.has_prop message "result" || JsonRpc.has_prop message "error")
  then match prop message "error" with Some JNull => false | _ => true end
  else
    let params := json_or_null (prop message "params") in
    match prop message "method" with
    | Some (JStr m) =>
        if String.eqb m "turn/completed" then present (prop params "turn")
        else if String.eqb m "turn/diff/updated" then present (Some params)
        else if String.eqb m "thread/tokenUsage/updated"
             then present (prop params "tokenUsage")
        else true
    | _ => true
    end.

(** X16: A line read from the child process, when the handlers run to their
    end on its message, never starts or signals a process, writes nothing
    to it, sets no timer and hands out no id or handle: all it does is
    report, settle at most one pending request or one turn waiter, which it
    takes out of its table, and refresh the caches.  (A message on which a
    handler reads a property of [null] or [undefined] makes the handler
    throw; that is not covered.) *)
Theorem stdout_line_only_settles (line : string) (st : State) :
  (forall message,
      JsonRpc.parseJsonRpcMessage JSON_parse line = Returned message ->
      runs_through message = true) ->
  let st' := fst (handleStdoutLine line st) in
  codexBin st' = codexBin st /\ child st' = child st /\
  nextRequestId st' = nextRequestId st /\ nextHandle st' = nextHandle st /\
  forallb settles_only (snd (handleStdoutLine line st)) = true /\
  incl (pendingResponses st') (pendingResponses st) /\
  incl (turnWaiters st') (turnWaiters st) /\
  (List.length (pendingResponses st) <= List.length (pendingResponses st') + 1)%nat /\
  (List.length (turnWaiters st) <= List.length (turnWaiters st') + 1)%nat.
Proof.
  intros _. cbv zeta.
  assert (Hlen : forall (K V : Type) (eqb : K -> K -> bool) (m : list (K * V)) k,
             (List.length m <= List.length (map_delete eqb m k) + 1)%nat).
  { intros K V eqb m k. induction m as [| [k' v'] t IH]; cbn [map_delete List.length];
      [lia |]. destruct (eqb k' k); cbn [List.length]; lia. }
  destruct (line_cases line st) as [H1 [H2 [H3 [H4 [H5 [H6 H7]]]]]].
  repeat split; auto.
  - destruct H5 as [-> | [id ->]]; [apply incl_refl | apply delete_incl].
  - destruct H6 as [-> | [key ->]]; [apply incl_refl | apply delete_incl].
  - destruct H5 as [-> | [id ->]]; [lia | apply Hlen].
  - destruct H6 as [-> | [key ->]]; [lia | apply Hlen].
Qed.

Lemma line_consistent (line : string) (st : State) :
  consistent st -> consistent (fst (handleStdoutLine line st)).
Proof.
  intro H. destruct (line_cases line st) as [_ [_ [H3 [H4 [H5 [H6 _]]]]]].
  apply (consistent_shrunk st _ H); auto; try lia.
  - destruct H5 as [-> | [id ->]]; [apply incl_refl | apply delete_incl].
  - destruct H5 as [-> | [id ->]]; [apply H | apply delete_keys_nodup, H].
  - destruct H6 as [-> | [key ->]]; [apply incl_refl | apply delete_incl].
  - destruct H6 as [-> | [key ->]]; [apply H | apply delete_keys_nodup, H].
Qed.

Lemma wait_consistent (threadId turnId : string) (timeoutMs : Z) (st : State) :
  consistent st ->
  consistent (fst (waitForTurnCompletion threadId turnId timeoutMs st)).
Proof.
  intro H. unfold waitForTurnCompletion. cbv zeta.
  destruct (map_get String.eqb (completedTurns st) _); [exact H |].
  cbn [fst]. pose proof (next_handle_natural st H) as Hh.
  constructor; cbn.
  - apply H.
  - lia.
  - apply H.
  - apply H.
  - apply (set_keys_nodup String.eqb String.eqb_eq), H.
  - intros key w Hin. apply set_entries in Hin; [| exact String.eqb_eq].
    destruct Hin as [E | Hin].
    + inversion E. subst. cbn. lia.
    + pose proof (timers_issued st H key w Hin). lia.
Qed.

Lemma perform_consistent (c : Call) (st : State) :
  consistent st -> consistent (fst (perform c st)).
Proof.
  intro H. destruct c; cbn [perform].
  - apply start_consistent, H.
  - apply stop_consistent, H.
  - apply request_consistent, H.
  - apply wait_consistent, H.
  - apply timeout_consistent, H.
  - exact H.
  - apply line_consistent, H.
  - unfold on_exit.
    pose proof (failAllPending_consistent
                  ("codex app-server exited (code="
                     ++ or_null (option_map Z_toString code)
                     ++ ", signal=" ++ or_null signal ++ ")") st H) as Hf.
    cbv zeta. destruct (failAllPending _ st). exact Hf.
  - unfold on_error.
    pose proof (failAllPending_consistent message st H) as Hf.
    destruct (failAllPending message st). exact Hf.
Qed.

(** X17: Whatever sequence of calls and events a new client goes through, its
    tables stay well formed: the pending requests have distinct ids, all
    below the next id to be handed out, so that no id is shared by two
    requests; and the turn waiters have distinct keys and timers that were
    handed out. *)
Theorem client_tables_stay_consistent (bin : option string) (calls : list Call) :
  consistent (fst (perform_all calls (create bin))).
Proof.
  generalize (create_consistent bin). generalize (create bin).
  induction calls as [| c rest IH]; intros st H; cbn [perform_all]; [exact H |].
  pose proof (perform_consistent c st H) as Hc.
  destruct (perform c st) as [st1 first]. cbn [fst] in Hc.
  specialize (IH st1 Hc).
  destruct (perform_all rest st1) as [st2 later]. exact IH.
Qed.

End Builtins.

(** *** Turn completions and diffs *)

(** The notification is a well-formed turn/completed for the turn. *)
Definition completes (notification : json) (threadId turnId : string) (turn : json)
  : Prop :=
  prop notification "method" = Some (JStr "turn/completed") /\
  exists params,
    prop notification "params" = Some params /\
    prop params "threadId" = Some (JStr threadId) /\
    prop params "turn" = Some turn /\
    prop turn "id" = Some (JStr turnId).

Lemma completed_step (notification : json) (threadId turnId : string) (turn : json)
  (st : State) :
  completes notification threadId turnId turn ->
  let key := threadId ++ ":" ++ turnId in
  handleNotification notification st
  = let done := map_set String.eqb (completedTurns st) key turn in
    let st1 :=
      {| codexBin := codexBin st; child := child st;
         nextRequestId := nextRequestId st;
         pendingResponses := pendingResponses st; completedTurns := done;
         turnWaiters := turnWaiters st; diffByTurn := diffByTurn st;
         tokenUsageByThread := tokenUsageByThread st;
         nextHandle := nextHandle st |} in
    match map_get String.eqb (turnWaiters st) key with
    | Some waiter =>
        (with_tables st1 (pendingResponses st1)
           (map_delete String.eqb (turnWaiters st1) key),
         [Emit "notification" notification; ClearTimeout (timer waiter);
          ResolveTurn key turn])
    | None => (st1, [Emit "notification" notification])
    end.
Proof.
  intros [Hm [params [Hp [Hth [Ht Hid]]]]]. cbv zeta.
  unfold handleNotification. rewrite Hm, Hp. cbv zeta. cbn [json_or_null].
  unfold string_prop. rewrite Ht. cbn [json_or_null]. rewrite Hth, Hid.
  reflexivity.
Qed.

(** X18: A turn's completion and the wait for it meet in either order.  When
    the notification came first, the wait resolves at once with the turn,
    sets no timer and changes nothing.  When the wait came first, it sets
    one timer, and the notification clears that timer, resolves the wait
    with the turn and takes the waiter out of the table. *)
Theorem turn_completion_either_order
  (notification : json) (threadId turnId : string) (turn : json)
  (timeoutMs : Z) (st : State) :
  completes notification threadId turnId turn ->
  consistent st ->
  let key := threadId ++ ":" ++ turnId in
  (let st1 := fst (handleNotification notification st) in
   waitForTurnCompletion threadId turnId timeoutMs st1
   = (st1, [ResolveTurn key turn])) /\
  (map_get String.eqb (completedTurns st) key = None ->
   let waiting := fst (waitForTurnCompletion threadId turnId timeoutMs st) in
   snd (waitForTurnCompletion threadId turnId timeoutMs st)
   = [SetTimeout (nextHandle st) timeoutMs] /\
   snd (handleNotification notification waiting)
   = [Emit "notification" notification; ClearTimeout (nextHandle st);
      ResolveTurn key turn] /\
   map_get String.eqb
     (turnWaiters (fst (handleNotification notification waiting))) key = None).
Proof.
  intros Hn H. cbv zeta. split.
  - rewrite (completed_step notification threadId turnId turn st Hn). cbv zeta.
    unfold waitForTurnCompletion. cbv zeta.
    destruct (map_get String.eqb (turnWaiters st) _); cbn [fst completedTurns with_tables];
      rewrite (get_set_eq String.eqb String.eqb_eq); reflexivity.
  - intro Hnone. unfold waitForTurnCompletion. cbv zeta. rewrite Hnone.
    cbn [fst snd]. split; [reflexivity |].
    rewrite (completed_step notification threadId turnId turn _ Hn). cbv zeta.
    cbn [turnWaiters]. rewrite (get_set_eq String.eqb String.eqb_eq).
    cbn [fst snd timer turnWaiters with_tables]. split; [reflexivity |].
    apply (get_delete_eq String.eqb String.eqb_eq).
    apply (set_keys_nodup String.eqb String.eqb_eq), H.
Qed.

(** The notification is a well-formed turn/diff/updated for the turn. *)
Definition updates_diff (notification : json) (turnId diff : string) : Prop :=
  prop notification "method" = Some (JStr "turn/diff/updated") /\
  exists params,
    prop notification "params" = Some params /\
    prop params "turnId" = Some (JStr turnId) /\
    prop params "diff" = Some (JStr diff).

(** X19: [getLatestTurnDiff] returns the diff of the last update received for
    the turn; an update for one turn leaves the diffs of the others
    alone. *)
Theorem latest_diff_wins (notification : json) (turnId diff : string) (st : State) :
  updates_diff notification turnId diff ->
  let st' := fst (handleNotification notification st) in
  getLatestTurnDiff turnId st' = Some diff /\
  forall other, other <> turnId ->
    getLatestTurnDiff other st' = getLatestTurnDiff other st.
Proof.
  intros [Hm [params [Hp [Ht Hd]]]]. cbv zeta.
  unfold handleNotification. rewrite Hm, Hp. cbv zeta. cbn [json_or_null].
  unfold string_prop. rewrite Ht, Hd. cbn [fst].
  unfold getLatestTurnDiff. cbn [diffByTurn]. split.
  - apply (get_set_eq String.eqb String.eqb_eq).
  - intros other Hne. apply (get_set_neq String.eqb String.eqb_eq). congruence.
Qed.

End ClientProtocol.

Module ClientExamples.

Import Client ClientQueries ClientProtocol.

Definition fresh_client : State := create None.

Definition initialized : State :=
  fst (request Reference.JSON_stringify "initialize" None fresh_client).

Definition ok_response : json :=
  JObj [("jsonrpc", JStr "2.0"); ("id", JNum (num 1)); ("result", JStr "ok")].

Definition turn_done : json :=
  JObj [ ("method", JStr "turn/completed");
         ("params", JObj [ ("threadId", JStr "thread-1");
                           ("turn", JObj [("id", JStr "turn-1")]) ]) ].

Definition diff_update : json :=
  JObj [ ("method", JStr "turn/diff/updated");
         ("params", JObj [("turnId", JStr "turn-1"); ("diff", JStr "+ line")]) ].

Lemma request_registers_fresh_id_witness :
  snd (request Reference.JSON_stringify "thread/start" None initialized)
  = [StdinWrite
       (JsonRpc.encodeJsonRpcRequest Reference.JSON_stringify (num 2)
          "thread/start" None ++ String LF "")] /\
  map_get Z.eqb (pendingResponses initialized) 2 = None /\
  pendingResponses
    (fst (request Reference.JSON_stringify "thread/start" None initialized))
  = [(1, {| method := "initialize" |}); (2, {| method := "thread/start" |})] /\
  nextRequestId
    (fst (request Reference.JSON_stringify "thread/start" None initialized)) = 3 /\
  child (fst (request Reference.JSON_stringify "thread/start" None initialized))
  = child initialized /\
  consistent (fst (request Reference.JSON_stringify "thread/start" None initialized)).
Proof.
  apply (request_registers_fresh_id Reference.JSON_stringify "thread/start" None
           initialized
           (request_consistent Reference.JSON_stringify "initialize" None
              fresh_client (create_consistent None))).
  discriminate.
Defined.

Lemma response_settles_once_witness :
  snd (handleResponse ok_response initialized) = [ResolveRequest 1 (JStr "ok")] /\
  handleResponse ok_response (fst (handleResponse ok_response initialized))
  = (fst (handleResponse ok_response initialized), []).
Proof.
  pose proof (response_settles_once ok_response 1 {| method := "initialize" |}
                initialized
                (request_consistent Reference.JSON_stringify "initialize" None
                   fresh_client (create_consistent None))
                eq_refl eq_refl) as H.
  cbv zeta in H. destruct H as [H1 [_ [_ [_ [_ [H2 _]]]]]].
  split; [exact (H1 eq_refl) | exact H2].
Defined.

Definition ok_line : string := Reference.JSON_stringify ok_response.

Lemma stdout_line_only_settles_witness :
  codexBin (fst (handleStdoutLine Reference.JSON_parse ok_line initialized))
  = codexBin initialized /\
  child (fst (handleStdoutLine Reference.JSON_parse ok_line initialized))
  = child initialized /\
  nextRequestId (fst (handleStdoutLine Reference.JSON_parse ok_line initialized))
  = nextRequestId initialized /\
  nextHandle (fst (handleStdoutLine Reference.JSON_parse ok_line initialized))
  = nextHandle initialized /\
  forallb settles_only
    (snd (handleStdoutLine Reference.JSON_parse ok_line initialized)) = true /\
  incl (pendingResponses (fst (handleStdoutLine Reference.JSON_parse ok_line initialized)))
    (pendingResponses initialized) /\
  incl (turnWaiters (fst (handleStdoutLine Reference.JSON_parse ok_line initialized)))
    (turnWaiters initialized) /\
  (List.length (pendingResponses initialized)
   <= List.length
        (pendingResponses (fst (handleStdoutLine Reference.JSON_parse ok_line initialized)))
      + 1)%nat /\
  (List.length (turnWaiters initialized)
   <= List.length
        (turnWaiters (fst (handleStdoutLine Reference.JSON_parse ok_line initialized)))
      + 1)%nat.
Proof.
  apply (stdout_line_only_settles Reference.JSON_parse ok_line initialized).
  intros message H. vm_compute in H. injection H as <-. vm_compute. reflexivity.
Defined.

(** The response is taken out of the table and its promise resolved. *)
Lemma ok_line_settles :
  snd (handleStdoutLine Reference.JSON_parse ok_line initialized)
  = [ResolveRequest 1 (JStr "ok")].
Proof. vm_compute. reflexivity. Qed.

Lemma turn_done_completes : completes turn_done "thread-1" "turn-1" (JObj [("id", JStr "turn-1")]).
Proof.
  split; [reflexivity |].
  exists (JObj [("threadId", JStr "thread-1"); ("turn", JObj [("id", JStr "turn-1")])]).
  repeat split.
Qed.

Lemma turn_completion_either_order_witness :
  waitForTurnCompletion "thread-1" "turn-1" 1000
    (fst (handleNotification turn_done fresh_client))
  = (fst (handleNotification turn_done fresh_client),
     [ResolveTurn "thread-1:turn-1" (JObj [("id", JStr "turn-1")])]).
Proof.
  exact (proj1 (turn_completion_either_order turn_done "thread-1" "turn-1"
                  (JObj [("id", JStr "turn-1")]) 1000 fresh_client
                  turn_done_completes (create_consistent None))).
Defined.

Lemma latest_diff_wins_witness :
  getLatestTurnDiff "turn-1" (fst (handleNotification diff_update fresh_client))
  = Some "+ line".
Proof.
  refine (proj1 (latest_diff_wins diff_update "turn-1" "+ line" fresh_client _)).
  split; [reflexivity |].
  exists (JObj [("turnId", JStr "turn-1"); ("diff", JStr "+ line")]).
  repeat split.
Defined.

End ClientExamples.

(** ** diff.ts: the file of a suggestion *)

Module DiffFiles.

Import Diff StringFacts.

(** The files named by the file headers among the lines. *)
Definition header_files (lines : list string) : list string :=
  flat_map
    (fun line => match match_file_header line with
                 | Some (_, f) => [f]
                 | None => []
                 end)
    lines.

Record files_known (lines : list string) (st : State) : Prop := {
  known_suggestions :
    Forall (fun s => In (filePath s) (header_files lines)) (suggestions st);
  known_current : forall f, currentFile st = Some f -> In f (header_files lines)
}.

Lemma files_known_flush (lines : list string) (st : State) :
  files_known lines st -> files_known lines (flush st).
Proof.
  intros [Hs Hc]. unfold flush.
  destruct (currentFile st) as [f |] eqn:Ef;
    [| constructor; cbn; [exact Hs | rewrite Ef; discriminate]].
  assert (Hsame : files_known lines (reset_pending st (suggestions st))).
  { constructor; cbn; [exact Hs | rewrite Ef; exact Hc]. }
  destruct (pendingStart st) as [p |]; [| exact Hsame].
  destruct (pendingBody st) as [| b bs]; [exact Hsame |].
  destruct (is_empty f); [exact Hsame |].
  constructor; cbn.
  - apply Forall_app. split; [exact Hs |].
    constructor; [| constructor]. cbn. apply Hc. reflexivity.
  - rewrite Ef. exact Hc.
Qed.

Lemma files_known_pending (lines : list string) (st : State)
  (n : Z) (start : option Z) (body_ : list string) :
  files_known lines st ->
  files_known lines
    {| suggestions := suggestions st; currentFile := currentFile st; newLine := n;
       pendingStart := start; pendingBody := body_ |}.
Proof. intros [Hs Hc]. constructor; assumption. Qed.

Lemma header_file_in (lines : list string) (line g1 f : string) :
  In line lines -> match_file_header line = Some (g1, f) -> In f (header_files lines).
Proof.
  intros Hin Hm. unfold header_files. apply in_flat_map.
  exists line. split; [exact Hin |]. rewrite Hm. left. reflexivity.
Qed.

Lemma files_known_step (lines : list string) (st : State) (line : string) :
  In line lines -> files_known lines st -> files_known lines (step st line).
Proof.
  intros Hin H. unfold step.
  destruct (match_file_header line) as [[g1 f] |] eqn:Em.
  { destruct (files_known_flush lines st H) as [Hs _]. constructor; cbn.
    - exact Hs.
    - intros f0 E. inversion E. subst f0. apply (header_file_in lines line g1 f Hin Em). }
  destruct (match_hunk_header line) as [n |].
  { apply (files_known_pending lines (flush st)), files_known_flush, H. }
  destruct (startsWith line "+++" || startsWith line "---"); [exact H |].
  destruct (startsWith line "+").
  { unfold open_pending. destruct (pendingStart st);
      apply (files_known_pending lines st), H. }
  destruct (startsWith line "-").
  { unfold open_pending. destruct (pendingStart st); [exact H |].
    apply (files_known_pending lines st), H. }
  destruct (startsWith line " ").
  - apply (files_known_pending lines (flush st)), files_known_flush, H.
  - apply files_known_flush, H.
Qed.

Lemma files_known_run (lines ls : list string) (st : State) :
  incl ls lines -> files_known lines st -> files_known lines (run st ls).
Proof.
  revert st. induction ls as [| l t IH]; intros st Hincl H; [exact H |].
  cbn [run fold_left]. apply IH.
  - intros x Hx. apply Hincl. right. exact Hx.
  - apply files_known_step; [apply Hincl; left; reflexivity | exact H].
Qed.

(** X9: Every suggestion is for a file that a "diff --git" header of the diff
    names as its b/ path; a diff without such a header gives no
    suggestion at all. *)
Theorem suggestions_name_header_files (diff : string) (maxSuggestions : option Z) :
  Forall (fun s => In (filePath s) (header_files (split_char LF diff)))
    (toGithubSuggestions diff maxSuggestions) /\
  (header_files (split_char LF diff) = [] ->
   toGithubSuggestions diff maxSuggestions = []).
Proof.
  assert (H : Forall (fun s => In (filePath s) (header_files (split_char LF diff)))
                (toGithubSuggestions diff maxSuggestions)).
  { unfold toGithubSuggestions. cbv zeta.
    assert (Hk : files_known (split_char LF diff)
                   (flush (run init (split_char LF diff)))).
    { apply files_known_flush, files_known_run; [apply incl_refl |].
      constructor; cbn; [constructor | discriminate]. }
    apply Forall_forall. intros s Hs.
    apply DiffShape.slice0_incl in Hs.
    destruct Hk as [Hall _]. rewrite Forall_forall in Hall. apply Hall, Hs. }
  split; [exact H |].
  intro Hnone. rewrite Hnone in H.
  destruct (toGithubSuggestions diff maxSuggestions) as [| s t]; [reflexivity |].
  inversion H as [| ? ? Hs _]. destruct Hs.
Qed.

(** *** The file header *)

Lemma strip_prefix_app (p rest : list ascii) : strip_prefix p (p ++ rest) = Some rest.
Proof.
  induction p as [| a t IH]; [destruct rest; reflexivity |].
  cbn [app strip_prefix]. rewrite Ascii.eqb_refl. exact IH.
Qed.

Definition not_space (c : ascii) : bool := negb (Ascii.eqb c " "%char).

Lemma split_at_first_b (p q g1 : list ascii) :
  forallb not_space p = true -> q <> [] -> (g1 <> [] \/ p <> []) ->
  split_at_b g1 (p ++ chars " b/" ++ q) = Some ((rev g1 ++ p)%list, q).
Proof.
  intros Hp Hq. revert g1. induction p as [| c t IH]; intros g1 Hne.
  - destruct Hne as [Hne | Hne]; [| congruence].
    destruct g1 as [| a g]; [congruence |].
    destruct q as [| x g2]; [congruence |].
    cbn. rewrite app_nil_r. reflexivity.
  - cbn [forallb] in Hp. apply andb_true_iff in Hp. destruct Hp as [Hc Ht].
    cbn [app split_at_b].
    assert (Hs : strip_prefix (chars " b/") (c :: (t ++ chars " b/" ++ q)%list) = None).
    { cbn [chars list_ascii_of_string strip_prefix].
      unfold not_space in Hc. apply negb_true_iff in Hc.
      rewrite Ascii.eqb_sym, Hc. reflexivity. }
    rewrite Hs.
    assert (Hgo : split_at_b (c :: g1) (t ++ chars " b/" ++ q)
                  = Some ((rev (c :: g1) ++ t)%list, q)).
    { apply IH; [exact Ht | left; discriminate]. }
    cbn [rev] in Hgo. rewrite <- app_assoc in Hgo. cbn [app] in Hgo.
    destruct g1; exact Hgo.
Qed.

(** X10: The header of a file whose paths hold no line break, the first of them
    no space either, is matched, and the file taken is the b/ path. *)
Theorem match_file_header_plain (a_path b_path : string) :
  a_path <> "" -> b_path <> "" ->
  forallb not_space (chars a_path) = true ->
  forallb is_dot (chars a_path) = true ->
  forallb is_dot (chars b_path) = true ->
  match_file_header ("diff --git a/" ++ a_path ++ " b/" ++ b_path)
  = Some (a_path, b_path).
Proof.
  intros Ha Hb Hsp Hda Hdb. unfold match_file_header.
  rewrite !chars_append, strip_prefix_app.
  rewrite !forallb_app, Hda, Hdb. cbn [chars list_ascii_of_string forallb andb].
  change (is_dot " " && (is_dot "b" && (is_dot "/" && true))) with true.
  cbn [andb].
  change (" "%char :: "b"%char :: "/"%char :: [])%list with (chars " b/").
  rewrite (split_at_first_b (chars a_path) (chars b_path) [] Hsp).
  - cbn [rev app]. rewrite !str_chars. reflexivity.
  - destruct b_path; [congruence | discriminate].
  - right. destruct a_path; [congruence | discriminate].
Qed.

Lemma match_file_header_plain_witness :
  match_file_header ("diff --git a/" ++ "src/a.ts" ++ " b/" ++ "src/b c.ts")
  = Some ("src/a.ts", "src/b c.ts").
Proof.
  apply match_file_header_plain; (discriminate || reflexivity).
Defined.

End DiffFiles.

(** ** cloudflare-worker ranking.ts against findings.ts *)

Module RankingAgreement.

Import Findings NumberFacts FindingsFacts.

Module CF := CloudflareRanking.

(** What the two record types have in common once a finding is ranked. *)
Definition Ranked : Type :=
  (string * string * ReviewRole * Severity * number * list ReviewRole * number)%type.

Definition view_domain (r : RankedFinding) : Ranked :=
  (id r, dedupeKey r, role r, severity r, confidence r, supportingRoles r, score r).

Definition view_worker (f : CF.Finding) : Ranked :=
  (CF.id f, CF.dedupeKey f, CF.role f, CF.severity f, CF.confidence f,
   CF.supportingRoles f, CF.score f).

(** The same, before the score is computed. *)
Definition Merged : Type :=
  (string * string * ReviewRole * Severity * number * list ReviewRole)%type.

Definition merged_domain (r : RankedFinding) : Merged :=
  (id r, dedupeKey r, role r, severity r, confidence r, supportingRoles r).

Definition merged_worker (f : CF.Finding) : Merged :=
  (CF.id f, CF.dedupeKey f, CF.role f, CF.severity f, CF.confidence f,
   CF.supportingRoles f).

(** The finding of the domain package for a finding of the worker. *)
Definition to_domain (f : CF.Finding) : Finding :=
  {| id := CF.id f; repo := ""; prNumber := CF.runId f; role := CF.role f;
     severity := CF.severity f; confidence := CF.confidence f;
     file := CF.filePath f; startLine := CF.startLine f; endLine := CF.endLine f;
     title := CF.title f; issueKey := CF.issueKey f;
     evidence := [("evidence", JStr (CF.evidence f))];
     dedupeKey := CF.dedupeKey f |}.

(** A finding as the worker's normalisation makes it: supported by its own
    role, with a dedupe key. *)
Definition fresh (f : CF.Finding) : Prop :=
  CF.supportingRoles f = [CF.role f] /\ CF.dedupeKey f <> "".

Lemma worker_clamp01_agrees (v : number) : CF.clamp01 v = clampConfidence v.
Proof.
  rewrite clampConfidence_spec.
  destruct v as [| | q |]; reflexivity.
Qed.

Lemma set_of_roles_twice (l seen : list ReviewRole) (r : ReviewRole) :
  set_of_roles seen (l ++ [r; r]) = set_of_roles seen (l ++ [r]).
Proof.
  revert seen. induction l as [| x t IH]; intro seen; cbn [app set_of_roles].
  - destruct (existsb (role_eqb r) seen) eqn:E.
    + reflexivity.
    + cbn [existsb].
      assert (Hr : role_eqb r r = true) by (destruct r; reflexivity).
      rewrite Hr. reflexivity.
  - destruct (existsb (role_eqb x) seen); apply IH.
Qed.

Section Tables.
Context {V1 V2 W : Type}.
Variable g1 : V1 -> W.
Variable g2 : V2 -> W.

(** Two tables with the same keys in the same order and like values. *)
Definition alike (m1 : list (string * V1)) (m2 : list (string * V2)) : Prop :=
  map (fun e => (fst e, g1 (snd e))) m1 = map (fun e => (fst e, g2 (snd e))) m2.

Lemma alike_get (m1 : list (string * V1)) (m2 : list (string * V2)) (k : string) :
  alike m1 m2 ->
  option_map g1 (map_get String.eqb m1 k) = option_map g2 (map_get String.eqb m2 k).
Proof.
  unfold alike. revert m2.
  induction m1 as [| [k1 v1] t IH]; intros [| [k2 v2] u] H; try discriminate;
    [reflexivity |].
  cbn [map fst snd] in H. inversion H. subst k2. cbn [map_get].
  destruct (String.eqb k1 k); cbn [option_map]; [congruence | apply IH; assumption].
Qed.

Lemma alike_set (m1 : list (string * V1)) (m2 : list (string * V2))
  (k : string) (v1 : V1) (v2 : V2) :
  alike m1 m2 -> g1 v1 = g2 v2 ->
  alike (map_set String.eqb m1 k v1) (map_set String.eqb m2 k v2).
Proof.
  unfold alike. intros H Hv. revert m2 H.
  induction m1 as [| [k1 w1] t IH]; intros [| [k2 w2] u] H; try discriminate.
  - cbn. rewrite Hv. reflexivity.
  - cbn [map fst snd] in H. inversion H. subst k2. cbn [map_set].
    destruct (String.eqb k1 k); cbn [map fst snd].
    + rewrite Hv. congruence.
    + f_equal; [congruence | apply IH; assumption].
Qed.

Lemma alike_values (m1 : list (string * V1)) (m2 : list (string * V2)) :
  alike m1 m2 -> map g1 (map_values m1) = map g2 (map_values m2).
Proof.
  unfold alike, map_values. intro H.
  apply (f_equal (map snd)) in H. rewrite !map_map in H. cbn [snd] in H.
  rewrite !map_map. exact H.
Qed.

End Tables.

Section Sorting.
Context {A B W : Type}.
Variable va : A -> W.
Variable vb : B -> W.
Variable cmp_a : A -> A -> number.
Variable cmp_b : B -> B -> number.
Hypothesis same_order : forall x y x' y',
  va x = vb x' -> va y = vb y' -> cmp_a x y = cmp_b x' y'.

Lemma sort_insert_alike (x : A) (x' : B) (l : list A) (l' : list B) :
  va x = vb x' -> map va l = map vb l' ->
  map va (sort_insert cmp_a x l) = map vb (sort_insert cmp_b x' l').
Proof.
  intros Hx. revert l'. induction l as [| y t IH]; intros [| y' t'] H;
    try discriminate; cbn [sort_insert map].
  - rewrite Hx. reflexivity.
  - cbn [map] in H. inversion H as [[Hy Ht]].
    rewrite (same_order x y x' y' Hx Hy).
    destruct (num_gtb (cmp_b x' y') (num 0)); cbn [map].
    + rewrite Hy, (IH t' Ht). reflexivity.
    + rewrite Hx, Hy, Ht. reflexivity.
Qed.

Lemma Array_sort_alike (l : list A) (l' : list B) :
  map va l = map vb l' ->
  map va (Array_sort cmp_a l) = map vb (Array_sort cmp_b l').
Proof.
  revert l'. induction l as [| x t IH]; intros [| x' t'] H; try discriminate;
    [reflexivity |].
  cbn [map] in H. inversion H as [[Hx Ht]].
  cbn [Array_sort fold_right]. apply sort_insert_alike; [exact Hx |].
  apply IH, Ht.
Qed.

End Sorting.

Section Runtime.

Variable sha256_hex : string -> string.
Variable Number_toString : number -> string.
Variable localeCompare : string -> string -> Z.

Local Abbreviation group_step := (Findings.group_step sha256_hex Number_toString).
Local Abbreviation rankFindings :=
  (Findings.rankFindings sha256_hex Number_toString localeCompare).

Lemma key_of_fresh (f : CF.Finding) :
  fresh f -> Findings.key_of sha256_hex Number_toString (to_domain f) = CF.dedupeKey f.
Proof.
  intros [_ Hk]. unfold Findings.key_of. cbn [dedupeKey to_domain].
  destruct (CF.dedupeKey f); [congruence | reflexivity].
Qed.

Lemma step_alike (m1 : list (string * CF.Finding)) (m2 : list (string * RankedFinding))
  (f : CF.Finding) :
  fresh f -> alike merged_worker merged_domain m1 m2 ->
  alike merged_worker merged_domain (CF.key_step m1 f) (group_step m2 (to_domain f)).
Proof.
  intros Hf H. pose proof Hf as [Hroles _].
  unfold CF.key_step, Findings.group_step. cbv zeta.
  rewrite (key_of_fresh f Hf).
  pose proof (alike_get merged_worker merged_domain m1 m2 (CF.dedupeKey f) H) as Hget.
  destruct (map_get String.eqb m1 (CF.dedupeKey f)) as [existing |];
    destruct (map_get String.eqb m2 (CF.dedupeKey f)) as [current |];
    try discriminate.
  - cbn [option_map] in Hget. apply alike_set; [exact H |].
    unfold merged_worker, merged_domain in *.
    inversion Hget as [[Hid Hkey Hrole Hsev Hconf Hsup]].
    cbn. rewrite Hroles, worker_clamp01_agrees.
    unfold CF.maxSeverity, higherSeverity.
    rewrite <- Hid, <- Hkey, <- Hrole, <- Hsev, <- Hconf, <- Hsup.
    change (CF.supportingRoles existing ++ [CF.role f] ++ [CF.role f])%list
      with (CF.supportingRoles existing ++ [CF.role f; CF.role f])%list.
    rewrite set_of_roles_twice. reflexivity.
  - apply alike_set; [exact H |].
    unfold merged_worker, merged_domain. cbn.
    rewrite Hroles, worker_clamp01_agrees. reflexivity.
Qed.

Lemma fold_alike (findings : list CF.Finding)
  (m1 : list (string * CF.Finding)) (m2 : list (string * RankedFinding)) :
  Forall fresh findings -> alike merged_worker merged_domain m1 m2 ->
  alike merged_worker merged_domain
    (fold_left CF.key_step findings m1)
    (fold_left group_step (map to_domain findings) m2).
Proof.
  intro Hall. revert m1 m2. induction Hall as [| f t Hf Ht IH]; intros m1 m2 H;
    cbn [fold_left map]; [exact H |].
  apply IH, step_alike; assumption.
Qed.

Lemma score_alike (f : CF.Finding) (r : RankedFinding) :
  merged_worker f = merged_domain r -> CF.scoreForFinding f = rankScore_of r.
Proof.
  unfold merged_worker, merged_domain. intro H.
  inversion H as [[Hid Hkey Hrole Hsev Hconf Hsup]].
  unfold CF.scoreForFinding, rankScore_of, rankScore. cbv zeta.
  rewrite Hrole, Hsev, Hconf, Hsup, worker_clamp01_agrees.
  destruct (role r); reflexivity.
Qed.

(** X8: On findings as the worker makes them - each supported by its own role
    and carrying its dedupe key - the worker's [dedupeAndRankFindings] and
    the domain package's [rankFindings] return the same ranking: the same
    ids in the same order, with the same severity, confidence, supporting
    roles and score. *)
Theorem worker_ranking_agrees (findings : list CF.Finding) :
  Forall fresh findings ->
  map view_worker (CF.dedupeAndRankFindings localeCompare findings)
  = map view_domain (rankFindings (map to_domain findings)).
Proof.
  intro Hall.
  unfold CF.dedupeAndRankFindings, Findings.rankFindings, Findings.dedupeFindings.
  cbv zeta.
  apply Array_sort_alike.
  - intros x y x' y' Hx Hy. unfold view_worker, view_domain in Hx, Hy.
    injection Hx as Hxi _ _ _ Hxc _ Hxs. injection Hy as Hyi _ _ _ Hyc _ Hys.
    unfold CF.compare_ranked, rank_compare.
    rewrite Hxi, Hxc, Hxs, Hyi, Hyc, Hys. reflexivity.
  - pose proof (alike_values merged_worker merged_domain _ _
                  (fold_alike findings [] [] Hall eq_refl)) as Hv.
    revert Hv.
    generalize (map_values (fold_left CF.key_step findings [])).
    generalize (map_values (fold_left group_step (map to_domain findings) [])).
    intros l2 l1. revert l2.
    induction l1 as [| f t IH]; intros [| r u] Hv; try discriminate; [reflexivity |].
    cbn [map] in Hv. inversion Hv as [[Hid Hkey Hrole Hsev Hconf Hsup Ht]].
    cbn [map]. f_equal; [| apply IH; exact Ht].
    unfold view_worker, view_domain. cbn.
    rewrite (score_alike f r) by (unfold merged_worker, merged_domain; congruence).
    congruence.
Qed.

End Runtime.

Definition worker_sample (id_ : string) (role_ : ReviewRole) (sev : Severity)
  (conf : number) (key : string) : CF.Finding :=
  {| CF.id := id_; CF.runId := num 7; CF.role := role_; CF.severity := sev;
     CF.confidence := conf; CF.filePath := "src/index.ts";
     CF.startLine := num 10; CF.endLine := num 10;
     CF.title := "Potential null dereference"; CF.issueKey := "null-deref";
     CF.evidence := "line 10"; CF.dedupeKey := key;
     CF.supportingRoles := [role_]; CF.score := num 0 |}.

Definition worker_findings : list CF.Finding :=
  [ worker_sample "f-1" correctness medium (Fin (qfrac 6 10)) "k1";
    worker_sample "f-2" security high (Fin (qfrac 9 10)) "k1";
    worker_sample "f-3" security critical NaN "k2" ].

Lemma worker_ranking_agrees_witness :
  map view_worker (CF.dedupeAndRankFindings Reference.localeCompare worker_findings)
  = map view_domain
      (Findings.rankFindings FindingsExamples.digest FindingsExamples.show_number
         Reference.localeCompare (map to_domain worker_findings)).
Proof.
  apply (worker_ranking_agrees FindingsExamples.digest FindingsExamples.show_number
           Reference.localeCompare worker_findings).
  repeat constructor; discriminate.
Defined.

End RankingAgreement.

(** ** findings.ts: the score grows with its ingredients *)

Module ScoreOrder.

Import Findings NumberFacts DedupeFacts.










End ScoreOrder.
